(** * jschannel-ts: a shallow embedding of [src/jschannel.ts]

    The development follows the source file top to bottom:

    - JavaScript values as the channel sees them (wire messages are parsed
      JSON, thrown values are arbitrary), with the handful of platform
      operations the source calls ([typeof], truthiness, [JSON.stringify],
      [toString], [String.prototype.split], [Array.prototype.findIndex]);
    - the seeding expression of [s_curTranId];
    - the process-wide tables [s_boundChans] and [s_transIds] with
      [s_addBoundChan], [s_removeBoundChan] and [s_onMessage];
    - the closure state of one channel built by [Channel.build] and its inner
      functions [createTransaction], [onMessage], [postMessage], [onReady],
      [bind], [unbind], [call] (with [pruneFunctions]), [notify], [destroy].

    Conventions.  A JavaScript object used as a table is a [gmap] of its own
    properties, keyed by the property name; a lookup [tbl[k]] goes through
    [member], which also finds the members of [Object.prototype] that every
    plain object inherits ([constructor], [toString], ...).  An exception does
    not roll the state back: every effectful function returns the state it
    reached together with either its result or the thrown value.  User code
    (bound handlers, [success]/[error] callbacks, observers) is the
    environment: a bound handler is a script of operations on the transaction
    it receives; other user functions are known by identity, every invocation
    is recorded in the trace, and whether one returns or throws is given by
    the field [thrown] of the process-wide state.  Two calls of user code are
    taken to end well: what an observer throws is caught, and the text the
    source computes from it for the debug line is taken to exist (it does not
    for a thrown [null] or [undefined]); the ready observer [cfg.onReady] is
    taken to return.  A number is an integer; the model prints it as its
    decimal numeral, which is the text ECMAScript gives to the integers a
    double holds exactly ([exact]).  [console.log] debugging is left out. *)

From stdpp Require Import gmap strings list fin_maps pretty.
From Stdlib Require Import QArith Qround.

Set Warnings "-register-all".
Local Open Scope Z_scope.
Local Open Scope string_scope.

(** ** JavaScript values *)

(** A function value is either a function of the user (known by identity only)
    or one of the stubs that [onMessage] builds for a callback path. *)
Inductive fn : Type :=
  | FUser (f : nat)
  | FStub (i : string).

Inductive value : Type :=
  | VUndefined
  | VNull
  | VBool (b : bool)
  | VNum (n : Z)
  | VStr (s : string)
  | VArr (elems : list value)
  | VObj (props : list (string * value))
  | VFun (f : fn)
  | VErr (name message : string).

#[global] Instance fn_eq_dec : EqDecision fn.
Proof. solve_decision. Defined.

(** [typeof v] *)
Definition typeof (v : value) : string :=
  match v with
  | VUndefined => "undefined"
  | VNull => "object"
  | VBool _ => "boolean"
  | VNum _ => "number"
  | VStr _ => "string"
  | VArr _ | VObj _ | VErr _ _ => "object"
  | VFun _ => "function"
  end.

(** Truthiness, as used by [if (x)], [!x], [a && b]. *)
Definition truthy (v : value) : bool :=
  match v with
  | VUndefined | VNull => false
  | VBool b => b
  | VNum n => negb (n =? 0)%Z
  | VStr s => negb (String.eqb s "")
  | VArr _ | VObj _ | VFun _ | VErr _ _ => true
  end.

(** [a === b].  Primitives compare by value, functions by identity; the tree
    model gives containers no identity, so two containers are never [===]. *)
Definition strict_equals (a b : value) : bool :=
  match a, b with
  | VUndefined, VUndefined | VNull, VNull => true
  | VBool x, VBool y => Bool.eqb x y
  | VNum x, VNum y => (x =? y)%Z
  | VStr x, VStr y => String.eqb x y
  | VFun f, VFun g => bool_decide (f = g)
  | _, _ => false
  end.

Definition s_isArray (obj : value) : bool :=
  match obj with VArr _ => true | _ => false end.

Fixpoint assoc {A : Type} (k : string) (l : list (string * A)) : option A :=
  match l with
  | [] => None
  | (k', v) :: l' => if String.eqb k k' then Some v else assoc k l'
  end.

(** [v.k] for a [v] that is neither [null] nor [undefined]: the properties the
    source reads are own data properties of parsed objects, [message] of an
    error instance, and nothing on arrays and primitives. *)
Definition prop (v : value) (k : string) : value :=
  match v with
  | VObj props => default VUndefined (assoc k props)
  | VErr name message =>
      if String.eqb k "message" then VStr message
      else if String.eqb k "name" then VStr name else VUndefined
  | _ => VUndefined
  end.

Definition TypeError (msg : string) : value := VErr "TypeError" msg.
Definition Error (msg : string) : value := VErr "Error" msg.

(** ** Tables and the prototype chain

    The tables of the program ([s_boundChans] and the tables of scopes in
    it, [s_transIds], [regTbl], [outTbl], [inTbl], the [callbacks] of a
    call) are plain objects.  A lookup [tbl[k]] finds an own property or,
    failing that, the member of [Object.prototype] of that name.  All of
    these members are functions, except [__proto__], which reads as
    [Object.prototype] itself: every one is truthy, none is iterable. *)
Definition inherited (k : string) : bool :=
  bool_decide (k ∈ ["constructor"; "hasOwnProperty"; "isPrototypeOf";
                    "propertyIsEnumerable"; "toLocaleString"; "toString"; "valueOf";
                    "__proto__"; "__defineGetter__"; "__defineSetter__";
                    "__lookupGetter__"; "__lookupSetter__"]).

Inductive found (A : Type) : Type :=
  | Own (a : A)
  | Inherited
  | Nothing.
Arguments Own {A} a.
Arguments Inherited {A}.
Arguments Nothing {A}.

(** [tbl[k]] *)
Definition member {A : Type} (tbl : gmap string A) (k : string) : found A :=
  match tbl !! k with
  | Some a => Own a
  | None => if inherited k then Inherited else Nothing
  end.

(** [tbl[k] = a]: an own property, except under [__proto__], where the
    assignment goes to the setter of [Object.prototype] and replaces the
    prototype of [tbl] by [a] (an object, here), which leaves the own
    properties and the names inherited as they are. *)
Definition assign {A : Type} (k : string) (a : A) (tbl : gmap string A) : gmap string A :=
  if String.eqb k "__proto__" then tbl else <[k := a]> tbl.

(** ** Platform functions on strings *)

Definition quote_char : string := String (Ascii.ascii_of_nat 34) EmptyString.

Fixpoint join (sep : string) (l : list string) : string :=
  match l with
  | [] => ""
  | [s] => s
  | s :: l' => s +:+ sep +:+ join sep l'
  end.

(** [s.split(sep)] for a non-empty separator: [skip] counts the characters of
    a separator just matched that are still to be passed over, [cur] is the
    current piece, reversed. *)
Fixpoint split_go (sep s : string) (skip : nat) (cur : string) : list string :=
  match s with
  | EmptyString => [String.rev cur]
  | String c s' =>
      match skip with
      | S k => split_go sep s' k cur
      | O =>
          if String.prefix sep s
          then String.rev cur :: split_go sep s' (String.length sep - 1) ""
          else split_go sep s' O (String c cur)
      end
  end.

Definition split (sep s : string) : list string := split_go sep s O "".

(** The ECMAScript [ToString] conversion on the integers, strings and
    containers of the model; a number is printed as its numeral (see
    [exact]), a plain object as a plain object that shadows neither
    [toString] nor [valueOf]. *)
Fixpoint ToString (v : value) : string :=
  match v with
  | VUndefined => "undefined"
  | VNull => "null"
  | VBool b => if b then "true" else "false"
  | VNum n => pretty n
  | VStr s => s
  | VArr elems =>
      join "," (map (fun x => match x with
                              | VUndefined | VNull => ""
                              | _ => ToString x
                              end) elems)
  | VObj _ => "[object Object]"
  | VFun (FUser f) => "function f" +:+ pretty f +:+ "() { [user code] }"
  | VFun (FStub i) => "(params) => { return trans.invoke(i, params); }"
  | VErr name message =>
      if String.eqb message "" then name else name +:+ ": " +:+ message
  end.

(** The values whose numbers are all integers that a double holds exactly:
    on these [ToString] is the conversion of ECMAScript, which for a larger
    number gives the shortest digits that identify the double, in exponent
    form from 10^21 on. *)
Fixpoint exact (v : value) : bool :=
  match v with
  | VNum n => (Z.abs n <? 2 ^ 53)%Z
  | VArr elems => forallb exact elems
  | VObj props => forallb (fun kv => exact (snd kv)) props
  | _ => true
  end.

Definition hex_digit (n : nat) : string :=
  String (Ascii.ascii_of_nat (if Nat.ltb n 10 then 48 + n else 87 + n)) "".

(** Escaping inside a JSON string literal: quote, backslash, the control
    characters with a short escape, and the other control characters by
    their code. *)
Fixpoint json_escape (s : string) : string :=
  match s with
  | EmptyString => ""
  | String c s' =>
      let n := Ascii.nat_of_ascii c in
      (if Nat.eqb n 34 then "\" +:+ quote_char
       else if Nat.eqb n 92 then "\\"
       else if Nat.eqb n 8 then "\b"
       else if Nat.eqb n 12 then "\f"
       else if Nat.eqb n 10 then "\n"
       else if Nat.eqb n 13 then "\r"
       else if Nat.eqb n 9 then "\t"
       else if Nat.ltb n 32 then "\u00" +:+ hex_digit (n / 16) +:+ hex_digit (n mod 16)
       else String c "") +:+ json_escape s'
  end.

Definition json_quote (s : string) : string :=
  quote_char +:+ json_escape s +:+ quote_char.

(** [JSON.stringify(v)]; [None] is the result [undefined].  A member whose
    value has no JSON text is left out of an object and written [null] in an
    array; an error instance has no enumerable own property.  The members
    of an object are written in the order of [props], which lists them as
    they are enumerated. *)
Fixpoint JSON_stringify (v : value) : option string :=
  match v with
  | VUndefined | VFun _ => None
  | VNull => Some "null"
  | VBool b => Some (if b then "true" else "false")
  | VNum n => Some (pretty n)
  | VStr s => Some (json_quote s)
  | VArr elems =>
      Some ("[" +:+ join "," (map (fun x => default "null" (JSON_stringify x)) elems)
                +:+ "]")
  | VObj props =>
      Some ("{" +:+ join ","
               (omap (fun kv => match JSON_stringify (snd kv) with
                                | Some t => Some (json_quote (fst kv) +:+ ":" +:+ t)
                                | None => None
                                end) props)
                +:+ "}")
  | VErr _ _ => Some "{}"
  end.

(** ** The transaction id seed

    [let s_curTranId = Math.floor(Math.random() * 1000001);] with the value
    of [Math.random()] taken as an exact rational. *)
Definition s_curTranId_seed (random : Q) : Z := Qfloor (random * 1000001)%Q.

(** ** State, exceptions and the trace *)

Inductive outcome (A : Type) : Type :=
  | Ok (a : A)
  | Throw (e : value).
Arguments Ok {A} a.
Arguments Throw {A} e.

(** A computation over a state [S]: the state reached is returned also when an
    exception is thrown. *)
Definition M (S A : Type) : Type := S -> S * outcome A.

Definition m_ret {S A : Type} (a : A) : M S A := fun s => (s, Ok a).
Definition m_throw {S A : Type} (e : value) : M S A := fun s => (s, Throw e).
Definition m_bind {S A B : Type} (c : M S A) (k : A -> M S B) : M S B :=
  fun s => match c s with
           | (s', Ok a) => k a s'
           | (s', Throw e) => (s', Throw e)
           end.
Definition m_catch {S A : Type} (c : M S A) (h : value -> M S A) : M S A :=
  fun s => match c s with
           | (s', Ok a) => (s', Ok a)
           | (s', Throw e) => h e s'
           end.
Definition m_gets {S A : Type} (f : S -> A) : M S A := fun s => (s, Ok (f s)).
Definition m_modify {S : Type} (f : S -> S) : M S unit := fun s => (f s, Ok tt).
Definition m_lift {S A : Type} (o : outcome A) : M S A := fun s => (s, o).

Notation "'let*' x ':=' c 'in' k" := (m_bind c (fun x => k))
  (at level 10, x pattern, c at level 100, k at level 200).
Notation "c ';;' k" := (m_bind c (fun _ => k))
  (at level 100, k at level 200, right associativity).

(** [arr.findIndex(predicate)]: the first step of the algorithm throws a
    [TypeError] unless [predicate] is callable.  The program only ever passes
    an element of a [split] result, i.e. a string.  With a callable predicate
    the result would depend on user code; the model takes a predicate that
    accepts no element (a callback stub, which returns [undefined], is one). *)
Definition IsCallable (v : value) : bool :=
  match v with VFun _ => true | _ => false end.

Definition Array_findIndex (arr : list value) (predicate : value) : outcome Z :=
  if IsCallable predicate then Ok (-1)
  else Throw (TypeError (ToString predicate +:+ " is not a function")).

(** What a member of [Object.prototype] returns when the program finds it
    in a table and calls it as [tbl[k](a, b)]: the table itself, the first
    argument (an object, where the result is used), or a value. *)
Inductive native_result : Type :=
  | RThis
  | RArg
  | RValue (v : value).

(** [tbl[k](a, b)] for an inherited [k]; [has_own] tells the own properties
    of [tbl].  [constructor] is [Object], which returns an object given to
    it; [valueOf] returns [this]; [toString], and [toLocaleString] through
    it, give the text of a plain object; [hasOwnProperty] and
    [propertyIsEnumerable] look [a], converted to a key, up among the own
    properties, which are all enumerable; [isPrototypeOf] finds no table
    in the chain of an argument; [__lookupGetter__] and [__lookupSetter__]
    find no accessor; [__defineGetter__] and [__defineSetter__] start by
    throwing unless [b] is callable (the accessor they would define for a
    callable [b] has no place in a table of the model, and [b] is never
    callable in the program: it is missing or a member of a parsed message);
    [__proto__] is an object and not a function. *)
Definition call_inherited (k : string) (has_own : string -> bool) (a b : value)
    : outcome native_result :=
  if String.eqb k "constructor" then Ok RArg
  else if String.eqb k "valueOf" then Ok RThis
  else if String.eqb k "toString" || String.eqb k "toLocaleString"
  then Ok (RValue (VStr "[object Object]"))
  else if String.eqb k "hasOwnProperty" || String.eqb k "propertyIsEnumerable"
  then Ok (RValue (VBool (has_own (ToString a))))
  else if String.eqb k "isPrototypeOf" then Ok (RValue (VBool false))
  else if String.eqb k "__lookupGetter__" || String.eqb k "__lookupSetter__"
  then Ok (RValue VUndefined)
  else if String.eqb k "__defineGetter__" || String.eqb k "__defineSetter__"
  then if IsCallable b then Ok (RValue VUndefined)
       else Throw (TypeError ("Object.prototype." +:+ k +:+ ": Expecting function"))
  else Throw (TypeError (k +:+ " is not a function")).

Definition window : Type := nat.
Definition chan_id : Type := nat.
Definition loc : Type := nat.

(** The window the script runs in ([window] in the source). *)
Definition this_window : window := O.

(** What the outside observes: transport sends, runs of bound handlers, and
    invocations of other user functions. *)
Inductive event : Type :=
  | EvPost (target : window) (msg : value) (targetOrigin : value)
  | EvHandler (c : chan_id) (method : string) (params : value)
  | EvCall (f : fn) (args : list value)
  | EvReady (f : fn) (c : chan_id).

(** ** The caller's heap

    [call] prunes the functions out of the caller's [params] in place, so the
    objects a caller passes live in a store and are named by reference.  An
    array is an object whose own keys are its filled indices, together with
    its [length]. *)
Inductive hval : Type :=
  | HUndefined
  | HNull
  | HBool (b : bool)
  | HNum (n : Z)
  | HStr (s : string)
  | HFun (f : fn)
  | HRef (l : loc).

#[global] Instance hval_eq_dec : EqDecision hval.
Proof. solve_decision. Defined.

Record hobj : Type := {
  arr_length : option nat;          (* [Some n] for an array of length [n] *)
  own : list (string * hval)        (* own enumerable properties, in [for in] order *)
}.

Definition hval_typeof (v : hval) : string :=
  match v with
  | HUndefined => "undefined"
  | HNull | HRef _ => "object"
  | HBool _ => "boolean"
  | HNum _ => "number"
  | HStr _ => "string"
  | HFun _ => "function"
  end.

Definition own_keys (h : gmap loc hobj) (l : loc) : list string :=
  match h !! l with
  | Some o => map fst (own o)
  | None => []
  end.

(** [obj[k]] for an own property, [None] when [k] is not one. *)
Definition own_prop (h : gmap loc hobj) (l : loc) (k : string) : option hval :=
  match h !! l with
  | Some o => assoc k (own o)
  | None => None
  end.

Fixpoint remove_key {A : Type} (k : string) (l : list (string * A)) : list (string * A) :=
  match l with
  | [] => []
  | (k', v) :: l' =>
      if String.eqb k k' then remove_key k l' else (k', v) :: remove_key k l'
  end.

(** [delete obj[k]]: the key goes, an array keeps its length. *)
Definition delete_prop (h : gmap loc hobj) (l : loc) (k : string) : gmap loc hobj :=
  match h !! l with
  | Some o => <[l := {| arr_length := arr_length o; own := remove_key k (own o) |}]> h
  | None => h
  end.

(** What [JSON.stringify] sees from a heap value: the tree below it.  [None]
    when the fuel runs out, which a cyclic structure always does. *)
Fixpoint to_value (fuel : nat) (h : gmap loc hobj) (v : hval) : option value :=
  match v with
  | HUndefined => Some VUndefined
  | HNull => Some VNull
  | HBool b => Some (VBool b)
  | HNum n => Some (VNum n)
  | HStr s => Some (VStr s)
  | HFun f => Some (VFun f)
  | HRef l =>
      match fuel with
      | O => None
      | S fuel' =>
          match h !! l with
          | None => Some VUndefined
          | Some o =>
              match arr_length o with
              | Some n =>
                  VArr <$> mapM (fun i => match assoc (pretty i) (own o) with
                                          | Some x => to_value fuel' h x
                                          | None => Some VUndefined
                                          end) (seq 0 n)
              | None =>
                  VObj <$> mapM (fun kv => pair (fst kv) <$> to_value fuel' h (snd kv))
                                (own o)
              end
          end
      end
  end.

(** ** [pruneFunctions]

    The closure variables [callbacks], [callbackNames] and [seen] of [call],
    together with the heap the traversal mutates. *)
Record pstate : Type := {
  p_heap : gmap loc hobj;
  p_seen : list hval;
  p_callbacks : gmap string fn;
  p_names : list string
}.

Inductive pres : Type :=
  | Done (s : pstate)
  | Thrown (e : value) (s : pstate)
  | OutOfFuel.

Definition push_seen (v : hval) (s : pstate) : pstate :=
  {| p_heap := p_heap s; p_seen := p_seen s ++ [v];
     p_callbacks := p_callbacks s; p_names := p_names s |}.

(** [callbacks[np] = obj1[k]; callbackNames.push(np); delete obj1[k];] *)
Definition take_function (np : string) (f : fn) (l : loc) (k : string) (s : pstate) : pstate :=
  {| p_heap := delete_prop (p_heap s) l k; p_seen := p_seen s;
     p_callbacks := <[np := f]> (p_callbacks s); p_names := p_names s ++ [np] |}.

Definition child_path (path k : string) : string :=
  path +:+ (if Nat.eqb (String.length path) 0 then "" else "/") +:+ k.

(** The [for (const k in obj1)] loop on the object at [l], with [rec] for the
    recursive call.  It runs over the keys the object had when the loop
    started, skips a key that is gone by the time it is reached, and reads
    each property from the current heap.  ([obj1.hasOwnProperty] is taken
    to be the inherited function, which holds of every key the loop
    reaches on an object of the heap.) *)
Fixpoint prune_keys (rec : string -> hval -> pstate -> pres)
    (path : string) (l : loc) (ks : list string) (s : pstate) : pres :=
  match ks with
  | [] => Done s
  | k :: ks' =>
      match own_prop (p_heap s) l k with
      | None => prune_keys rec path l ks' s
      | Some v =>
          let np := child_path path k in
          match v with
          | HFun f => prune_keys rec path l ks' (take_function np f l k s)
          | HRef _ | HNull =>
              match rec np v s with
              | Done s' => prune_keys rec path l ks' s'
              | r => r
              end
          | _ => prune_keys rec path l ks' s
          end
      end
  end.

(** [pruneFunctions(path, obj1)]; [fuel] bounds the depth of the recursion.
    A [for in] over [null] runs over nothing. *)
Fixpoint pruneFunctions (fuel : nat) (path : string) (obj1 : hval) (s : pstate) : pres :=
  match fuel with
  | O => OutOfFuel
  | S fuel' =>
      if bool_decide (obj1 ∈ p_seen s)
      then Thrown (Error "params cannot be a recursive data structure") s
      else
        let s := push_seen obj1 s in
        match obj1 with
        | HRef l => prune_keys (pruneFunctions fuel') path l (own_keys (p_heap s) l) s
        | _ => Done s
        end
  end.

(** The traversal as [call] starts it: empty tables, and fuel for one level
    more than the heap has objects. *)
Definition prune_start (h : gmap loc hobj) : pstate :=
  {| p_heap := h; p_seen := []; p_callbacks := ∅; p_names := [] |}.

Definition prune_fuel (h : gmap loc hobj) : nat := S (S (size h)).

(** ** Process-wide state and the closure state of a channel *)

(** An entry [{ win, handler }] of [s_boundChans]; the handler is the
    [onMessage] closure of a channel, named by the channel. *)
Record bound : Type := { win : window; handler : chan_id }.

(** What the local [window] offers; the source probes each of these. *)
Record browser : Type := {
  has_postMessage : bool;
  has_JSON : bool;
  has_addEventListener : bool;
  has_attachEvent : bool;
  has_removeEventListener : bool;
  has_detachEvent : bool
}.

(** How [s_onMessage] is attached to the window's [message] event. *)
Inductive attach : Type := Detached | ByAddEventListener | ByAttachEvent.

#[global] Instance attach_eq_dec : EqDecision attach.
Proof. solve_decision. Defined.

(** Actions handed to [setTimeout]. *)
Inductive timer : Type :=
  | TimeoutTimer (c : chan_id) (transId : Z) (timeout : value) (method : string)
  | PingTimer (c : chan_id).

Record globals : Type := {
  env : browser;
  thrown : fn -> list value -> option value;   (* user code: [Some e] when the call throws [e] *)
  s_curTranId : Z;
  s_boundChans : gmap string (gmap string (list bound));
  s_transIds : gmap string chan_id;
  listener : attach;
  timers : list timer;
  heap : gmap loc hobj;
  trace : list event
}.

Definition set_curTranId (x : Z) (g : globals) : globals :=
  {| env := env g; thrown := thrown g; s_curTranId := x; s_boundChans := s_boundChans g;
     s_transIds := s_transIds g; listener := listener g; timers := timers g;
     heap := heap g; trace := trace g |}.
Definition set_boundChans (x : gmap string (gmap string (list bound))) (g : globals) : globals :=
  {| env := env g; thrown := thrown g; s_curTranId := s_curTranId g; s_boundChans := x;
     s_transIds := s_transIds g; listener := listener g; timers := timers g;
     heap := heap g; trace := trace g |}.
Definition set_transIds (x : gmap string chan_id) (g : globals) : globals :=
  {| env := env g; thrown := thrown g; s_curTranId := s_curTranId g; s_boundChans := s_boundChans g;
     s_transIds := x; listener := listener g; timers := timers g;
     heap := heap g; trace := trace g |}.
Definition set_listener (x : attach) (g : globals) : globals :=
  {| env := env g; thrown := thrown g; s_curTranId := s_curTranId g; s_boundChans := s_boundChans g;
     s_transIds := s_transIds g; listener := x; timers := timers g;
     heap := heap g; trace := trace g |}.
Definition set_timers (x : list timer) (g : globals) : globals :=
  {| env := env g; thrown := thrown g; s_curTranId := s_curTranId g; s_boundChans := s_boundChans g;
     s_transIds := s_transIds g; listener := listener g; timers := x;
     heap := heap g; trace := trace g |}.
Definition set_heap (x : gmap loc hobj) (g : globals) : globals :=
  {| env := env g; thrown := thrown g; s_curTranId := s_curTranId g; s_boundChans := s_boundChans g;
     s_transIds := s_transIds g; listener := listener g; timers := timers g;
     heap := x; trace := trace g |}.
Definition set_thrown (x : fn -> list value -> option value) (g : globals) : globals :=
  {| env := env g; thrown := x; s_curTranId := s_curTranId g;
     s_boundChans := s_boundChans g; s_transIds := s_transIds g; listener := listener g;
     timers := timers g; heap := heap g; trace := trace g |}.
Definition set_trace (x : list event) (g : globals) : globals :=
  {| env := env g; thrown := thrown g; s_curTranId := s_curTranId g; s_boundChans := s_boundChans g;
     s_transIds := s_transIds g; listener := listener g; timers := timers g;
     heap := heap g; trace := x |}.

(** The [cfg] argument of [Channel.build].  [cfg_window] is [None] for a
    missing window or one without [postMessage]. *)
Record config : Type := {
  cfg_window : option window;
  cfg_origin : value;
  cfg_scope : value;
  cfg_type : value;
  cfg_gotMessageObserver : value;
  cfg_postMessageObserver : value;
  cfg_onReady : value
}.

Definition set_cfg_origin (x : value) (c : config) : config :=
  {| cfg_window := cfg_window c; cfg_origin := x; cfg_scope := cfg_scope c;
     cfg_type := cfg_type c; cfg_gotMessageObserver := cfg_gotMessageObserver c;
     cfg_postMessageObserver := cfg_postMessageObserver c; cfg_onReady := cfg_onReady c |}.

(** A bound handler written by the user, as the channel sees it: the
    operations it performs on the transaction it is given, in order, and how
    it ends.  An operation that throws ends the handler with that exception. *)
Inductive taction : Type :=
  | TInvoke (cbName v : value)                 (* trans.invoke(cbName, v) *)
  | TCallParam (path : list string) (v : value) (* params.<path>(v) *)
  | TComplete (v : value)                      (* trans.complete(v) *)
  | TError (error message : value)             (* trans.error(error, message) *)
  | TDelayReturn (delay : value).              (* trans.delayReturn(delay) *)

Inductive ending : Type :=
  | Return (v : value)
  | Raise (e : value).

Record script : Type := { s_actions : list taction; s_ending : ending }.

(** What [regTbl] holds: the channel's own [onReady], or a user handler,
    which receives the transaction's origin and the params. *)
Inductive method_handler : Type :=
  | HReady
  | HUser (h : value -> value -> script).

(** An entry of [outTbl]: [{ callbacks, error: m.error, success: m.success }]. *)
Record out_entry : Type := {
  o_callbacks : gmap string fn;
  o_error : value;
  o_success : value
}.

(** The variables closed over by the functions [build] creates. *)
Record chan : Type := {
  self : chan_id;
  cfg : config;
  regTbl : gmap string method_handler;
  outTbl : gmap string out_entry;
  inTbl : gmap string unit;
  ready : bool;
  pendingQueue : list value
}.

Definition set_cfg (x : config) (c : chan) : chan :=
  {| self := self c; cfg := x; regTbl := regTbl c; outTbl := outTbl c;
     inTbl := inTbl c; ready := ready c; pendingQueue := pendingQueue c |}.
Definition set_regTbl (x : gmap string method_handler) (c : chan) : chan :=
  {| self := self c; cfg := cfg c; regTbl := x; outTbl := outTbl c;
     inTbl := inTbl c; ready := ready c; pendingQueue := pendingQueue c |}.
Definition set_outTbl (x : gmap string out_entry) (c : chan) : chan :=
  {| self := self c; cfg := cfg c; regTbl := regTbl c; outTbl := x;
     inTbl := inTbl c; ready := ready c; pendingQueue := pendingQueue c |}.
Definition set_inTbl (x : gmap string unit) (c : chan) : chan :=
  {| self := self c; cfg := cfg c; regTbl := regTbl c; outTbl := outTbl c;
     inTbl := x; ready := ready c; pendingQueue := pendingQueue c |}.
Definition set_ready (x : bool) (c : chan) : chan :=
  {| self := self c; cfg := cfg c; regTbl := regTbl c; outTbl := outTbl c;
     inTbl := inTbl c; ready := x; pendingQueue := pendingQueue c |}.
Definition set_pendingQueue (x : list value) (c : chan) : chan :=
  {| self := self c; cfg := cfg c; regTbl := regTbl c; outTbl := outTbl c;
     inTbl := inTbl c; ready := ready c; pendingQueue := x |}.

(** A channel function runs on the process-wide state and on the closure
    state of its channel. *)
Definition st : Type := globals * chan.

Definition getG {A : Type} (f : globals -> A) : M st A := m_gets (fun s => f (fst s)).
Definition getC {A : Type} (f : chan -> A) : M st A := m_gets (fun s => f (snd s)).
Definition modG (f : globals -> globals) : M st unit :=
  m_modify (fun s => (f (fst s), snd s)).
Definition modC (f : chan -> chan) : M st unit :=
  m_modify (fun s => (fst s, f (snd s))).
Definition log (ev : event) : M st unit :=
  modG (fun g => set_trace (trace g ++ [ev])%list g).

Definition liftG {A : Type} (c : M globals A) : M st A :=
  fun s => match c (fst s) with (g, r) => ((g, snd s), r) end.

(** ** [s_boundChans]: [s_addBoundChan] and [s_removeBoundChan] *)

(** The keys of [s_boundChans] are origins: the wildcard, or an origin that
    passed the validation of [build] or that the browser reports for a
    message.  None of these is a name of [Object.prototype], so an origin is
    looked up among the own properties.  A scope is any string, and is
    looked up with [member]. *)

(** [hasWin(arr)], the inner function of [s_addBoundChan], for the window
    [w] being added. *)
Definition hasWin (w : window) (arr : list bound) : bool :=
  existsb (fun i => Nat.eqb (win i) w) arr.

Definition not_iterable (scope : string) : value :=
  TypeError ("s_boundChans[...][" +:+ scope +:+ "] is not iterable").

(** The loop over the origins of [s_boundChans] taken when the new origin is
    the wildcard: the wildcard's own bucket is passed over, and the loop
    stops at the first origin whose bucket for [scope] holds the window.
    Under an inherited scope name the test [typeof ... === 'object'] lets
    [__proto__] through, and [hasWin] then throws on its [for of]. *)
Fixpoint scan_origins (w : window) (scope : string)
    (ks : list (string * gmap string (list bound))) : outcome bool :=
  match ks with
  | [] => Ok false
  | (k, scopes) :: ks' =>
      if String.eqb k "*" then scan_origins w scope ks'
      else
        match member scopes scope with
        | Own arr => if hasWin w arr then Ok true else scan_origins w scope ks'
        | Inherited =>
            if String.eqb scope "__proto__" then Throw (not_iterable scope)
            else scan_origins w scope ks'
        | Nothing => scan_origins w scope ks'
        end
  end.

Definition bucket (bc : gmap string (gmap string (list bound))) (origin scope : string)
    : option (list bound) :=
  match bc !! origin with
  | Some scopes => scopes !! scope
  | None => None
  end.

(** [s_boundChans[origin] && s_boundChans[origin][scope]], as a lookup. *)
Definition bucket_member (bc : gmap string (gmap string (list bound)))
    (origin scope : string) : found (list bound) :=
  match bc !! origin with
  | Some scopes => member scopes scope
  | None => Nothing
  end.

(** [hasWin] on what such a lookup gave, when it is truthy. *)
Definition hasWin_member (w : window) (scope : string) (f : found (list bound))
    : outcome bool :=
  match f with
  | Own arr => Ok (hasWin w arr)
  | Inherited => Throw (not_iterable scope)
  | Nothing => Ok false
  end.

(** The value of [exists] when [s_addBoundChan] reaches its [if (exists)],
    or the exception thrown on the way. *)
Definition overlap_exists (bc : gmap string (gmap string (list bound)))
    (w : window) (origin scope : string) : outcome bool :=
  if String.eqb origin "*" then scan_origins w scope (map_to_list bc)
  else
    match hasWin_member w scope (bucket_member bc "*" scope) with
    | Throw e => Throw e
    | Ok true => Ok true
    | Ok false => hasWin_member w scope (bucket_member bc origin scope)
    end.

(** After the test, the table of the origin and the array of the scope are
    created unless [typeof] finds an object there.  It does under the
    inherited name [__proto__], and the [push] that follows throws. *)
Definition s_addBoundChan (w : window) (origin scope : string) (h : chan_id)
    : M globals unit :=
  fun g =>
    let bc := s_boundChans g in
    match overlap_exists bc w origin scope with
    | Throw e => (g, Throw e)
    | Ok true =>
        (g, Throw (Error ("A channel is already bound to the same window which overlaps with origin '"
                            +:+ origin +:+ "' and has scope '" +:+ scope +:+ "'")))
    | Ok false =>
        let scopes : gmap string (list bound) := default ∅ (bc !! origin) in
        let push (arr : list bound) :=
          (set_boundChans
             (<[origin := <[scope := (arr ++ [ {| win := w; handler := h |} ])%list]> scopes]> bc)
             g,
           Ok tt) in
        match member scopes scope with
        | Own arr => push arr
        | Inherited =>
            if String.eqb scope "__proto__"
            then (set_boundChans (<[origin := scopes]> bc) g,
                  Throw (TypeError "s_boundChans[origin][scope].push is not a function"))
            else push []
        | Nothing => push []
        end
    end.

(** [w] and [origin] are whatever [cfg.window] and [cfg.origin] hold when
    [destroy] runs; as a property key [origin] is converted to a string.
    Without an own array under the scope, [arr] is [undefined] or an
    inherited member, which has no [forEach]: a [TypeError] either way. *)
Definition s_removeBoundChan (w : option window) (origin : value) (scope : string)
    : M globals unit :=
  fun g =>
    let bc := s_boundChans g in
    match bc !! ToString origin with
    | None => (g, Throw (TypeError "Cannot read properties of undefined"))
    | Some scopes =>
        match scopes !! scope with
        | None =>
            (g, Throw (TypeError "Cannot read properties of undefined (reading 'forEach')"))
        | Some arr =>
            let arr' := List.filter (fun item => negb (bool_decide (Some (win item) = w))) arr in
            let scopes' :=
              if Nat.eqb (length arr') 0 then delete scope scopes
              else <[scope := arr']> scopes in
            (set_boundChans (<[ToString origin := scopes']> bc) g, Ok tt)
        end
    end.

(** ** Functions of one channel *)

(** The name [scopeMethod(m)] returns on channel [c]. *)
Definition scoped_name (c : chan) (m : string) : string :=
  match cfg_scope (cfg c) with
  | VStr sc => if negb (Nat.eqb (String.length sc) 0) then join "::" [sc; m] else m
  | _ => m
  end.

(** [scopeMethod(m)] *)
Definition scopeMethod (m : string) : M st string :=
  getC (fun c => scoped_name c m).

(** A call of a user function held in a variable: a [TypeError] when the
    variable does not hold a function; otherwise the call is recorded, and
    it returns or throws as [thrown] tells. *)
Definition call_function (f : value) (args : list value) : M st unit :=
  match f with
  | VFun fn =>
      log (EvCall fn args) ;;
      let* e := getG (fun g => thrown g fn args) in
      match e with
      | Some e => m_throw e
      | None => m_ret tt
      end
  | _ => m_throw (TypeError (ToString f +:+ " is not a function"))
  end.

(** An observer call inside [try { ... } catch (e) { debug(...) }]. *)
Definition observe (observer : value) (args : list value) : M st unit :=
  if String.eqb (typeof observer) "function"
  then m_catch (call_function observer args) (fun _ => m_ret tt)
  else m_ret tt.

(** [postMessage(msg, force)] *)
Definition postMessage (msg : value) (force : bool) : M st unit :=
  if negb (truthy msg) then m_throw (Error "postMessage called with null message")
  else
    let* rdy := getC ready in
    if negb force && negb rdy
    then modC (fun c => set_pendingQueue (pendingQueue c ++ [msg])%list c)
    else
      let* obs := getC (fun c => cfg_postMessageObserver (cfg c)) in
      let* origin := getC (fun c => cfg_origin (cfg c)) in
      let* w := getC (fun c => cfg_window (cfg c)) in
      observe obs [origin; msg] ;;
      match w with
      | Some target => log (EvPost target msg origin)
      | None => m_throw (TypeError "Cannot read properties of undefined (reading 'postMessage')")
      end.

(** [obj.unbind(method)] *)
Definition unbind (method : value) : M st bool :=
  let* tbl := getC regTbl in
  match member tbl (ToString method) with
  | Nothing => m_ret false
  | _ => modC (fun c => set_regTbl (delete (ToString method) (regTbl c)) c) ;; m_ret true
  end.

(** [obj.bind(method, cb)]; [cb] is [None] when the argument is not a function. *)
Definition bind (method : value) (cb : option method_handler) : M st unit :=
  if negb (truthy method) || negb (String.eqb (typeof method) "string")
  then m_throw (Error "'method' argument to bind must be string")
  else
    match cb with
    | None => m_throw (Error "callback missing from bind params")
    | Some h =>
        let* tbl := getC regTbl in
        match member tbl (ToString method) with
        | Nothing => modC (fun c => set_regTbl (<[ToString method := h]> (regTbl c)) c)
        | _ => m_throw (Error ("method '" +:+ ToString method +:+ "' is already bound!"))
        end
    end.

(** The argument [m] of [call] and [notify]: [{ method, params, success,
    error, timeout }].  Only [params] can be an object of the caller that the
    channel mutates, so only it is a heap value. *)
Record call_args : Type := {
  a_method : value;
  a_params : hval;
  a_success : value;
  a_error : value;
  a_timeout : value
}.

(** The [params] member as [JSON.stringify(msg)] reads it.  The model takes
    this reading when the message is built; the source keeps the reference in
    the message and reads it once for the debug line and once more when the
    message is posted. *)
Definition params_value (p : hval) : M st value :=
  let* h := getG heap in
  match to_value (S (size h)) h p with
  | Some v => m_ret v
  | None => m_throw (TypeError "Converting circular structure to JSON")
  end.

(** [obj.notify(m)]; [None] is a missing argument. *)
Definition notify (m : option call_args) : M st unit :=
  match m with
  | None => m_throw (Error "missing arguments to notify function")
  | Some m =>
      if negb (truthy (a_method m)) || negb (String.eqb (typeof (a_method m)) "string")
      then m_throw (Error "'method' argument to notify must be string")
      else
        let* meth := scopeMethod (ToString (a_method m)) in
        let* p := params_value (a_params m) in
        postMessage (VObj [("method", VStr meth); ("params", p)]) false
  end.

(** [arr.pop()]: the last element and the array without it. *)
Definition pop {A : Type} (q : list A) : option (A * list A) :=
  match rev q with
  | [] => None
  | x :: r => Some (x, rev r)
  end.

(** [while (pendingQueue.length) { postMessage(pendingQueue.pop()); }] *)
Fixpoint flush (fuel : nat) : M st unit :=
  match fuel with
  | O => m_ret tt
  | S fuel' =>
      let* q := getC pendingQueue in
      match pop q with
      | None => m_ret tt
      | Some (msg, q') =>
          modC (set_pendingQueue q') ;;
          postMessage msg false ;;
          flush fuel'
      end
  end.

(** [onReady(trans, type)]; the transaction is not used. *)
Definition onReady (type : value) : M st value :=
  let* rdy := getC ready in
  if rdy then m_throw (Error "received ready message while in ready state.  help!")
  else
    unbind (VStr "__ready") ;;
    modC (set_ready true) ;;
    (if strict_equals type (VStr "ping")
     then notify (Some {| a_method := VStr "__ready"; a_params := HStr "pong";
                          a_success := VUndefined; a_error := VUndefined;
                          a_timeout := VUndefined |})
     else m_ret tt) ;;
    let* q := getC pendingQueue in
    flush (length q) ;;
    let* f := getC (fun c => cfg_onReady (cfg c)) in
    let* me := getC self in
    match f with
    | VFun user => log (EvReady user me) ;; m_ret VUndefined
    | _ => m_ret VUndefined
    end.

(** ** Transactions: [createTransaction] *)

(** The parameters of [createTransaction(id, origin, callbacks)] ... *)
Record trans : Type := { t_id : value; t_origin : value; t_callbacks : value }.

(** ... and its two local variables, which the returned functions share. *)
Record tflags : Type := { shouldDelayReturn : bool; completed : bool }.

Definition createTransaction (id origin callbacks : value) : trans * tflags :=
  ({| t_id := id; t_origin := origin; t_callbacks := callbacks |},
   {| shouldDelayReturn := false; completed := false |}).

Definition tst : Type := st * tflags.

Definition liftT {A : Type} (c : M st A) : M tst A :=
  fun s => match c (fst s) with (s', r) => ((s', snd s), r) end.

(** Runs a computation that shares a transaction's variables, starting from
    [fl]; the variables are dropped at the end. *)
Definition with_flags {A : Type} (fl : tflags) (c : M tst A) : M st A :=
  fun s => match c (s, fl) with ((s', _), r) => (s', r) end.

Definition set_completed (b : bool) : M tst unit :=
  m_modify (fun s => (fst s, {| shouldDelayReturn := shouldDelayReturn (snd s);
                                completed := b |})).
Definition set_shouldDelayReturn (b : bool) : M tst unit :=
  m_modify (fun s => (fst s, {| shouldDelayReturn := b; completed := completed (snd s) |})).

Fixpoint chars (s : string) : list value :=
  match s with
  | EmptyString => []
  | String c s' => VStr (String c "") :: chars s'
  end.

(** The values a [for (const i of v)] loop runs over. *)
Definition iter_of (v : value) : outcome (list value) :=
  match v with
  | VArr elems => Ok elems
  | VStr s => Ok (chars s)
  | _ => Throw (TypeError (ToString v +:+ " is not iterable"))
  end.

(** [trans.invoke(cbName, v)] *)
Definition trans_invoke (t : trans) (cbName v : value) : M tst unit :=
  let* tbl := liftT (getC inTbl) in
  match member tbl (ToString (t_id t)) with
  | Nothing =>
      m_throw (Error ("attempting to invoke a callback of a nonexistent transaction: "
                        +:+ ToString (t_id t)))
  | _ =>
      let* cbs := m_lift (iter_of (t_callbacks t)) in
      if existsb (fun i => strict_equals cbName i) cbs
      then liftT (postMessage
                    (VObj [("id", t_id t); ("callback", cbName); ("params", v)]) false)
      else m_throw (Error ("request supports no such callback '"
                             +:+ ToString cbName +:+ "'"))
  end.

(** [trans.error(error, message)] *)
Definition trans_error (t : trans) (error message : value) : M tst unit :=
  set_completed true ;;
  let* tbl := liftT (getC inTbl) in
  match member tbl (ToString (t_id t)) with
  | Nothing =>
      m_throw (Error ("error called for nonexistent message: " +:+ ToString (t_id t)))
  | _ =>
      liftT (modC (fun c => set_inTbl (delete (ToString (t_id t)) (inTbl c)) c)) ;;
      liftT (postMessage
               (VObj [("id", t_id t); ("error", error); ("message", message)]) false)
  end.

(** [trans.complete(v)] *)
Definition trans_complete (t : trans) (v : value) : M tst unit :=
  set_completed true ;;
  let* tbl := liftT (getC inTbl) in
  match member tbl (ToString (t_id t)) with
  | Nothing =>
      m_throw (Error ("complete called for nonexistent message: " +:+ ToString (t_id t)))
  | _ =>
      liftT (modC (fun c => set_inTbl (delete (ToString (t_id t)) (inTbl c)) c)) ;;
      liftT (postMessage (VObj [("id", t_id t); ("result", v)]) false)
  end.

(** [trans.delayReturn(delay)] *)
Definition trans_delayReturn (delay : value) : M tst bool :=
  (if String.eqb (typeof delay) "boolean"
   then set_shouldDelayReturn (strict_equals delay (VBool true))
   else m_ret tt) ;;
  m_gets (fun s => shouldDelayReturn (snd s)).

(** [trans.completed()] *)
Definition trans_completed : M tst bool := m_gets (fun s => completed (snd s)).

(** ** Reading and writing inside a parsed message

    [onMessage] installs the callback stubs by assignments inside [m.params].
    The message is the tree [JSON.parse] returned; an assignment replaces the
    subtree it reaches, and the variable [object] of the source is the path
    from [m.params] to the object it refers to. *)

Fixpoint parse_digits (s : string) (acc : nat) : option nat :=
  match s with
  | EmptyString => Some acc
  | String c s' =>
      let n := Ascii.nat_of_ascii c in
      if Nat.leb 48 n && Nat.leb n 57
      then parse_digits s' (10 * acc + (n - 48))%nat
      else None
  end.

(** The array index a property key denotes, if any. *)
Definition array_index (k : string) : option nat :=
  match parse_digits k O with
  | Some n => if String.eqb (pretty n) k then Some n else None
  | None => None
  end.

Fixpoint assoc_set {A : Type} (k : string) (x : A) (l : list (string * A))
    : list (string * A) :=
  match l with
  | [] => [(k, x)]
  | (k', v) :: l' =>
      if String.eqb k k' then (k, x) :: l' else (k', v) :: assoc_set k x l'
  end.

(** [o[k]] *)
Definition value_get (o : value) (k : string) : outcome value :=
  match o with
  | VUndefined | VNull =>
      Throw (TypeError ("Cannot read properties of " +:+ ToString o))
  | VArr elems =>
      match array_index k with
      | Some i => Ok (default VUndefined (elems !! i))
      | None => Ok VUndefined
      end
  | _ => Ok (prop o k)
  end.

(** [o[k] = x] in strict mode; the result is [o] after the assignment.  An
    array grows to reach an index; a key of an array that is not an index has
    no place in the tree and is dropped. *)
Definition value_set (o : value) (k : string) (x : value) : outcome value :=
  match o with
  | VObj props => Ok (VObj (assoc_set k x props))
  | VArr elems =>
      match array_index k with
      | Some i =>
          if Nat.ltb i (length elems) then Ok (VArr (<[i := x]> elems))
          else Ok (VArr (elems ++ replicate (i - length elems) VUndefined ++ [x])%list)
      | None => Ok o
      end
  | VUndefined | VNull =>
      Throw (TypeError ("Cannot set properties of " +:+ ToString o))
  | VErr _ _ | VFun _ => Ok o
  | _ => Throw (TypeError ("Cannot create property '" +:+ k +:+ "' on " +:+ typeof o))
  end.

Fixpoint get_at (root : value) (path : list string) : outcome value :=
  match path with
  | [] => Ok root
  | k :: path' =>
      match value_get root k with
      | Ok child => get_at child path'
      | Throw e => Throw e
      end
  end.

(** [root] after the object reached by [path] has had [k] set to [x]. *)
Fixpoint set_at (root : value) (path : list string) (k : string) (x : value)
    : outcome value :=
  match path with
  | [] => value_set root k x
  | j :: path' =>
      match value_get root j with
      | Ok child =>
          match set_at child path' k x with
          | Ok child' => value_set root j child'
          | Throw e => Throw e
          end
      | Throw e => Throw e
      end
  end.

(** The inner loop [for (const j of pathItems)] of the stub installation;
    [object] is the path reached so far, [params] the current [m.params]. *)
Fixpoint walk_path (pathItems js object : list string) (params : value)
    : outcome (list string * value) :=
  match js with
  | [] => Ok (object, params)
  | j :: js' =>
      match Array_findIndex (map VStr pathItems) (VStr j) with
      | Throw e => Throw e
      | Ok idx =>
          if (idx =? Z.of_nat (length pathItems) - 1)%Z
          then walk_path pathItems js' object params
          else
            match get_at params object with
            | Throw e => Throw e
            | Ok o =>
                match value_get o j with
                | Throw e => Throw e
                | Ok oj =>
                    let assigned :=
                      if negb (String.eqb (typeof oj) "object")
                      then set_at params object j (VObj [])
                      else Ok params in
                    match assigned with
                    | Throw e => Throw e
                    | Ok params' => walk_path pathItems js' (object ++ [j])%list params'
                    end
                end
            end
      end
  end.

(** The body of [for (const i of m.callbacks)]. *)
Definition install_callback (i : value) (params : value) : outcome value :=
  match i with
  | VStr path =>
      let pathItems := split "/" path in
      match walk_path pathItems pathItems [] params with
      | Throw e => Throw e
      | Ok (object, params') =>
          set_at params' object (List.last pathItems "") (VFun (FStub path))
      end
  | _ => Throw (TypeError "i.split is not a function")
  end.

Fixpoint install_all (cbs : list value) (params : value) : outcome value :=
  match cbs with
  | [] => Ok params
  | i :: cbs' =>
      match install_callback i params with
      | Ok params' => install_all cbs' params'
      | Throw e => Throw e
      end
  end.

(** [m.params] after the [if (m.callbacks && ...)] block of [onMessage]. *)
Definition install_callbacks (m : value) : outcome value :=
  match prop m "callbacks" with
  | VArr (i :: cbs) => install_all (i :: cbs) (prop m "params")
  | _ => Ok (prop m "params")
  end.

(** ** The [catch (e)] block of [onMessage] *)

(** [e.toString()] *)
Definition call_toString (e : value) : outcome value :=
  match e with
  | VUndefined | VNull =>
      Throw (TypeError ("Cannot read properties of " +:+ ToString e +:+ " (reading 'toString')"))
  | _ => Ok (VStr (ToString e))
  end.

(** The [try { message = JSON.stringify(e); ... } catch (e2) { ... }] that
    runs while [message] is still [null]. *)
Definition stringify_message (e : value) : outcome value :=
  let attempt :=
    match JSON_stringify e with
    | Some text => Ok (VStr text)
    | None => call_toString e
    end in
  match attempt with
  | Ok message => Ok message
  | Throw _ => call_toString e
  end.

(** The values of [error] and [message] when the block reaches
    [trans.error(error, message)].  The first phase sets [error], [message]
    and possibly replaces [e]; [message] starts as [null]. *)
Definition catch_classify (e : value) : outcome (value * value * value) :=
  let error := VStr "runtime_error" in
  if String.eqb (typeof e) "string" then Ok (error, e, e)
  else if String.eqb (typeof e) "object" then
    match e with
    | VArr [e0; e1] => Ok (e0, e1, e)
    | VUndefined | VNull =>
        Throw (TypeError ("Cannot read properties of " +:+ ToString e +:+ " (reading 'error')"))
    | _ =>
        match prop e "error" with
        | VStr code =>
            let msg := prop e "message" in
            if negb (truthy msg) then Ok (VStr code, VStr "", e)
            else if String.eqb (typeof msg) "string" then Ok (VStr code, msg, e)
            else Ok (VStr code, VNull, msg)
        | _ => Ok (error, VNull, e)
        end
    end
  else Ok (error, VNull, e).

Definition normalize_exception (e : value) : outcome (value * value) :=
  match catch_classify e with
  | Throw x => Throw x
  | Ok (error, message, e') =>
      if strict_equals message VNull
      then match stringify_message e' with
           | Ok message' => Ok (error, message')
           | Throw x => Throw x
           end
      else Ok (error, message)
  end.

(** ** Running a bound handler *)

Definition run_action (t : trans) (params : value) (a : taction) : M tst unit :=
  match a with
  | TInvoke cbName v => trans_invoke t cbName v
  | TCallParam path v =>
      match get_at params path with
      | Ok (VFun (FStub i)) => trans_invoke t (VStr i) v
      | Ok (VFun (FUser f)) => liftT (call_function (VFun (FUser f)) [v])
      | Ok other => m_throw (TypeError (ToString other +:+ " is not a function"))
      | Throw e => m_throw e
      end
  | TComplete v => trans_complete t v
  | TError error message => trans_error t error message
  | TDelayReturn delay => trans_delayReturn delay ;; m_ret tt
  end.

Fixpoint run_actions (t : trans) (params : value) (acts : list taction) : M tst unit :=
  match acts with
  | [] => m_ret tt
  | a :: acts' => run_action t params a ;; run_actions t params acts'
  end.

Definition finish (e : ending) {S : Type} : M S value :=
  match e with
  | Return v => m_ret v
  | Raise x => m_throw x
  end.

(** [regTbl[method](trans, m.params)] *)
Definition run_handler (h : method_handler) (method : string) (t : trans) (params : value)
    : M tst value :=
  match h with
  | HReady => liftT (onReady params)
  | HUser user =>
      let* me := liftT (getC self) in
      liftT (log (EvHandler me method params)) ;;
      let sc := user (t_origin t) params in
      run_actions t params (s_actions sc) ;;
      finish (s_ending sc)
  end.

(** [regTbl[method](a, params)] when the lookup gave a member of
    [Object.prototype].  The result is taken as [JSON.stringify] reads it
    when it is sent: [a] is the object given first (of a transaction, which
    holds functions besides, that reading is its [origin]), and the table
    holds nothing but functions, which have no text. *)
Definition run_inherited (method : string) (a params : value) : M st value :=
  let* tbl := getC regTbl in
  match call_inherited method (fun k => bool_decide (is_Some (tbl !! k))) a params with
  | Throw e => m_throw e
  | Ok RThis => m_ret (VObj [])
  | Ok RArg => m_ret a
  | Ok (RValue v) => m_ret v
  end.

(** [regTbl[method]({ origin }, m.params)]: the handler is given a plain
    object, on which no transaction operation exists. *)
Definition run_notification (h : method_handler) (method : string) (origin params : value)
    : M st value :=
  match h with
  | HReady => onReady params
  | HUser user =>
      let* me := getC self in
      log (EvHandler me method params) ;;
      let sc := user origin params in
      match s_actions sc with
      | [] => finish (s_ending sc)
      | _ :: _ => m_throw (TypeError "trans operation is not a function")
      end
  end.

(** ** [onMessage(origin, method, m)]

    The observer is called first; [onMessage_kind] is the rest of the
    function, from [now, what type of message is this?] on. *)
Definition onMessage_kind (origin method m : value) : M st unit :=
  let id := prop m "id" in
  if truthy id && truthy method then
    let* tbl := getC regTbl in
    match member tbl (ToString method) with
    | Nothing => m_ret tt
    | bound =>
        let callbacks := if truthy (prop m "callbacks") then prop m "callbacks" else VArr [] in
        let '(t, fl) := createTransaction id origin callbacks in
        modC (fun c => set_inTbl (assign (ToString id) tt (inTbl c)) c) ;;
        with_flags fl
          (m_catch
             (let* params := m_lift (install_callbacks m) in
              let* resp :=
                match bound with
                | Own h => run_handler h (ToString method) t params
                | _ => liftT (run_inherited (ToString method)
                                (VObj [("origin", origin)]) params)
                end in
              let* delayed := trans_delayReturn VUndefined in
              let* done := trans_completed in
              if negb delayed && negb done then trans_complete t resp else m_ret tt)
             (fun e =>
                let* em := m_lift (normalize_exception e) in
                trans_error t (fst em) (snd em)))
    end
  else if truthy id && truthy (prop m "callback") then
    let* out := getC outTbl in
    match member out (ToString id) with
    | Own entry =>
        let cbs := o_callbacks entry in
        match member cbs (ToString (prop m "callback")) with
        | Own f => call_function (VFun f) [prop m "params"]
        | Inherited =>
            match call_inherited (ToString (prop m "callback"))
                    (fun k => bool_decide (is_Some (cbs !! k))) (prop m "params") VUndefined with
            | Throw e => m_throw e
            | Ok _ => m_ret tt
            end
        | Nothing => m_ret tt
        end
    | _ => m_ret tt     (* an inherited member has no [callbacks] *)
    end
  else if truthy id then
    let* out := getC outTbl in
    match member out (ToString id) with
    | Nothing => m_ret tt
    | Inherited =>      (* an inherited member has neither [error] nor [success] *)
        m_throw (TypeError ("outTbl[m.id]." +:+ (if truthy (prop m "error") then "error"
                                                 else "success") +:+ " is not a function"))
    | Own entry =>
        (if truthy (prop m "error")
         then call_function (o_error entry) [prop m "error"; prop m "message"]
         else if negb (strict_equals (prop m "result") VUndefined)
              then call_function (o_success entry) [prop m "result"]
              else call_function (o_success entry) []) ;;
        modC (fun c => set_outTbl (delete (ToString id) (outTbl c)) c) ;;
        modG (fun g => set_transIds (delete (ToString id) (s_transIds g)) g)
    end
  else if truthy method then
    let* tbl := getC regTbl in
    match member tbl (ToString method) with
    | Nothing => m_ret tt
    | Own h => run_notification h (ToString method) origin (prop m "params") ;; m_ret tt
    | Inherited =>
        run_inherited (ToString method) (VObj [("origin", origin)]) (prop m "params") ;;
        m_ret tt
    end
  else m_ret tt.

Definition onMessage (origin method m : value) : M st unit :=
  let* obs := getC (fun c => cfg_gotMessageObserver (cfg c)) in
  observe obs [origin; m] ;;
  onMessage_kind origin method m.

(** ** [call] and [destroy] *)

Definition timeout_message (timeout : value) (method : string) : string :=
  "timeout (" +:+ ToString timeout +:+ "ms) exceeded on method '" +:+ method +:+ "'".

(** [obj.call(m)]; [None] is a missing argument.  The traversal is given
    [prune_fuel], which it never exhausts (lemma [pruneFunctions_fuel]). *)
Definition call (m : option call_args) : M st unit :=
  match m with
  | None => m_throw (Error "missing arguments to call function")
  | Some m =>
      if negb (truthy (a_method m)) || negb (String.eqb (typeof (a_method m)) "string")
      then m_throw (Error "'method' argument to call must be string")
      else if negb (truthy (a_success m)) || negb (String.eqb (typeof (a_success m)) "function")
      then m_throw (Error "'success' callback missing from call")
      else
        let* h := getG heap in
        match pruneFunctions (prune_fuel h) "" (a_params m) (prune_start h) with
        | OutOfFuel => m_throw (VErr "RangeError" "Maximum call stack size exceeded")
        | Thrown e ps => modG (set_heap (p_heap ps)) ;; m_throw e
        | Done ps =>
            modG (set_heap (p_heap ps)) ;;
            let* id := getG s_curTranId in
            let* meth := scopeMethod (ToString (a_method m)) in
            let* me := getC self in
            (if truthy (a_timeout m)
             then modG (fun g => set_timers
                                   (timers g ++ [TimeoutTimer me id (a_timeout m) meth])%list g)
             else m_ret tt) ;;
            modC (fun c => set_outTbl
                             (<[pretty id := {| o_callbacks := p_callbacks ps;
                                                o_error := a_error m;
                                                o_success := a_success m |}]> (outTbl c)) c) ;;
            modG (fun g => set_transIds (<[pretty id := me]> (s_transIds g)) g) ;;
            modG (fun g => set_curTranId (s_curTranId g + 1) g) ;;
            let* p := params_value (a_params m) in
            postMessage
              (VObj ([("id", VNum id); ("method", VStr meth); ("params", p)]
                     ++ match p_names ps with
                        | [] => []
                        | _ :: _ => [("callbacks", VArr (map VStr (p_names ps)))]
                        end)%list)
              false
        end
  end.

(** The [removeEventListener] / [detachEvent] step of [destroy]: each call
    removes the listener only if it was attached the matching way. *)
Definition detach_listener (g : globals) : globals :=
  if has_removeEventListener (env g) then
    (if bool_decide (listener g = ByAddEventListener) then set_listener Detached g else g)
  else if has_detachEvent (env g) then
    (if bool_decide (listener g = ByAttachEvent) then set_listener Detached g else g)
  else g.

(** [obj.destroy()] *)
Definition destroy : M st unit :=
  let* w := getC (fun c => cfg_window (cfg c)) in
  let* origin := getC (fun c => cfg_origin (cfg c)) in
  let* scope := getC (fun c => cfg_scope (cfg c)) in
  liftG (s_removeBoundChan w origin
           (match scope with VStr sc => sc | _ => "" end)) ;;
  modG detach_listener ;;
  modC (set_ready false) ;;
  modC (set_regTbl ∅) ;;
  modC (set_inTbl ∅) ;;
  modC (set_outTbl ∅) ;;
  modC (fun c => set_cfg (set_cfg_origin VNull (cfg c)) c) ;;
  modC (set_pendingQueue []).

(** ** The process: all channels, [build], and [s_onMessage] *)

Record proc : Type := {
  glob : globals;
  chans : gmap chan_id chan;       (* the closure state of every channel built *)
  next_chan : chan_id
}.

(** Runs a function of channel [c] on its closure state. *)
Definition in_chan {A : Type} (c : chan_id) (f : M st A) : M proc A :=
  fun p =>
    match chans p !! c with
    | None => (p, Throw (Error "not a channel"))
    | Some ch =>
        match f (glob p, ch) with
        | ((g', ch'), r) =>
            ({| glob := g'; chans := <[c := ch']> (chans p); next_chan := next_chan p |}, r)
        end
    end.

(** The state when the module has been evaluated: the counter is seeded, the
    tables are empty, and [s_onMessage] is attached the way the window
    allows.  [h] holds the objects of the user, [user] tells which calls of
    the user's functions throw. *)
Definition initial (b : browser) (random : Q) (h : gmap loc hobj)
    (user : fn -> list value -> option value) : proc :=
  {| glob := {| env := b;
                thrown := user;
                s_curTranId := s_curTranId_seed random;
                s_boundChans := ∅;
                s_transIds := ∅;
                listener := if has_addEventListener b then ByAddEventListener
                            else if has_attachEvent b then ByAttachEvent
                            else Detached;
                timers := [];
                heap := h;
                trace := [] |};
     chans := ∅;
     next_chan := O |}.

(** *** Origin validation: [/^https?:\/\/(?:[-a-zA-Z0-9_\.])+(?::\d+)?/] *)

Definition is_digit (c : Ascii.ascii) : bool :=
  let n := Ascii.nat_of_ascii c in Nat.leb 48 n && Nat.leb n 57.

Definition is_host_char (c : Ascii.ascii) : bool :=
  let n := Ascii.nat_of_ascii c in
  Nat.eqb n 45 || (Nat.leb 97 n && Nat.leb n 122) || (Nat.leb 65 n && Nat.leb n 90)
  || is_digit c || Nat.eqb n 95 || Nat.eqb n 46.

Fixpoint take_while (p : Ascii.ascii -> bool) (s : string) : string * string :=
  match s with
  | EmptyString => ("", "")
  | String c s' =>
      if p c then let '(a, b) := take_while p s' in (String c a, b)
      else ("", s)
  end.

Fixpoint drop_chars (n : nat) (s : string) : string :=
  match n, s with
  | O, _ => s
  | S n', String _ s' => drop_chars n' s'
  | S _, EmptyString => ""
  end.

(** [oMatch[0]] when the pattern matches, [None] when [oMatch] is [null]. *)
Definition origin_match (s : string) : option string :=
  let scheme :=
    if String.prefix "https://" s then Some "https://"
    else if String.prefix "http://" s then Some "http://"
    else None in
  match scheme with
  | None => None
  | Some sch =>
      let '(host, rest) := take_while is_host_char (drop_chars (String.length sch) s) in
      if Nat.eqb (String.length host) 0 then None
      else
        match rest with
        | String c rest' =>
            let '(digits, _) := take_while is_digit rest' in
            if Nat.eqb (Ascii.nat_of_ascii c) 58 && negb (Nat.eqb (String.length digits) 0)
            then Some (sch +:+ host +:+ ":" +:+ digits)
            else Some (sch +:+ host)
        | EmptyString => Some (sch +:+ host)
        end
  end.

Definition lower_char (c : Ascii.ascii) : Ascii.ascii :=
  let n := Ascii.nat_of_ascii c in
  if Nat.leb 65 n && Nat.leb n 90 then Ascii.ascii_of_nat (n + 32) else c.

Fixpoint toLowerCase (s : string) : string :=
  match s with
  | EmptyString => ""
  | String c s' => String (lower_char c) (toLowerCase s')
  end.

(** The value of [cfg.origin] after the validation block, or [None] when
    [validOrigin] stays false. *)
Definition validate_origin (origin : value) : option string :=
  match origin with
  | VStr s =>
      if String.eqb s "*" then Some s
      else match origin_match s with
           | Some matched => Some (toLowerCase matched)
           | None => None
           end
  | _ => None
  end.

(** [Channel.build(cfg)]; the result names the channel object returned. *)
Definition build (c : config) : M proc chan_id :=
  fun p =>
    let b := env (glob p) in
    if negb (has_postMessage b)
    then (p, Throw (Error "jschannel cannot run this browser, no postMessage"))
    else if negb (has_JSON b)
    then (p, Throw (Error "jschannel cannot run this browser, no JSON parsing/serialization"))
    else
      match cfg_window c with
      | None => (p, Throw (Error "Channel.build() called without a valid window argument"))
      | Some w =>
          if Nat.eqb this_window w
          then (p, Throw (Error "target window is same as present window -- not allowed"))
          else
            match validate_origin (cfg_origin c) with
            | None => (p, Throw (Error "Channel.build() called with an invalid origin"))
            | Some origin =>
                let scope_error :=
                  match cfg_scope c with
                  | VUndefined => None
                  | VStr sc =>
                      if Nat.ltb 1 (length (split "::" sc))
                      then Some (Error "scope may not contain double colons: '::'")
                      else None
                  | _ => Some (Error "scope, when specified, must be a string")
                  end in
                match scope_error with
                | Some e => (p, Throw e)
                | None =>
                    let me := next_chan p in
                    let scope := match cfg_scope c with VStr sc => sc | _ => "" end in
                    match s_addBoundChan w origin scope me (glob p) with
                    | (g, Throw e) =>
                        ({| glob := g; chans := chans p; next_chan := next_chan p |}, Throw e)
                    | (g, Ok _) =>
                        let ch := {| self := me;
                                     cfg := set_cfg_origin (VStr origin) c;
                                     regTbl := ∅; outTbl := ∅; inTbl := ∅;
                                     ready := false; pendingQueue := [] |} in
                        let after :=
                          (bind (VStr "__ready") (Some HReady) ;;
                           if truthy (cfg_type c) && strict_equals (cfg_type c) (VStr "child")
                           then modG (fun g => set_timers (timers g ++ [PingTimer me])%list g)
                           else m_ret tt) (g, ch) in
                        match after with
                        | ((g', ch'), Ok _) =>
                            ({| glob := g'; chans := <[me := ch']> (chans p);
                                next_chan := S me |}, Ok me)
                        | ((g', ch'), Throw e) =>
                            ({| glob := g'; chans := <[me := ch']> (chans p);
                                next_chan := S me |}, Throw e)
                        end
                    end
                end
            end
      end.

(** A [message] event: [e.data] as [JSON.parse] reads it ([None] when it
    throws), [e.source] and [e.origin]. *)
Record message_event : Type := {
  e_data : option value;
  e_source : window;
  e_origin : string
}.

(** The first entry of a bucket bound to window [w], which is where the
    [for (const j of ...)] loops of [s_onMessage] stop. *)
Fixpoint first_win (w : window) (arr : list bound) : option bound :=
  match arr with
  | [] => None
  | j :: arr' => if Nat.eqb (win j) w then Some j else first_win w arr'
  end.

Definition getP {A : Type} (f : globals -> A) : M proc A := m_gets (fun p => f (glob p)).

(** The scope [s] and method [meth] that [s_onMessage] reads off [m.method];
    each stays [undefined] unless assigned. *)
Definition unscope (m : value) : value * value :=
  match prop m "method" with
  | VStr name =>
      match split "::" name with
      | [s; meth] => (VStr s, VStr meth)
      | _ => (VUndefined, VStr name)
      end
  | _ => (VUndefined, VUndefined)
  end.

(** [s_onMessage(e)] *)
Definition s_onMessage (e : message_event) : M proc unit :=
  match e_data e with
  | None => m_ret tt
  | Some m =>
      if negb (String.eqb (typeof m) "object") || strict_equals m VNull then m_ret tt
      else
        let w := e_source e in
        let o := e_origin e in
        let '(s, meth) := unscope m in
        let i := prop m "id" in
        if String.eqb (typeof meth) "string" then
          let* bc := getP s_boundChans in
          let* delivered :=
            match bucket_member bc o (ToString s) with
            | Own arr =>
                match first_win w arr with
                | Some j => in_chan (handler j) (onMessage (VStr o) meth m) ;; m_ret true
                | None => m_ret false
                end
            | Inherited => m_throw (not_iterable (ToString s))
            | Nothing => m_ret false
            end in
          if delivered then m_ret tt
          else
            let* bc := getP s_boundChans in
            match bucket_member bc "*" (ToString s) with
            | Own arr =>
                match first_win w arr with
                | Some j => in_chan (handler j) (onMessage (VStr o) meth m)
                | None => m_ret tt
                end
            | Inherited => m_throw (not_iterable (ToString s))
            | Nothing => m_ret tt
            end
        else if negb (String.eqb (typeof i) "undefined") then
          let* ids := getP s_transIds in
          match member ids (ToString i) with
          | Own c => in_chan c (onMessage (VStr o) meth m)
          | Inherited =>
              match call_inherited (ToString i)
                      (fun k => bool_decide (is_Some (ids !! k))) (VStr o) meth with
              | Throw e => m_throw e
              | Ok _ => m_ret tt
              end
          | Nothing => m_ret tt
          end
        else m_ret tt
  end.

(** A message arriving at the window: it reaches [s_onMessage] only while the
    listener is attached. *)
Definition deliver (e : message_event) : M proc unit :=
  fun p =>
    if bool_decide (listener (glob p) = Detached) then (p, Ok tt)
    else s_onMessage e p.

(** The function given to [setTimeout] by [setTransactionTimeout]; the key
    of a number is its numeral, which is no inherited name ... *)
Definition timeout_action (transId : Z) (timeout : value) (method : string) : M st unit :=
  let* out := getC outTbl in
  match out !! pretty transId with
  | None => m_ret tt
  | Some entry =>
      call_function (o_error entry)
        [VStr "timeout_error"; VStr (timeout_message timeout method)] ;;
      modC (fun c => set_outTbl (delete (pretty transId) (outTbl c)) c) ;;
      modG (fun g => set_transIds (delete (pretty transId) (s_transIds g)) g)
  end.

(** ... and by [build] for a child. *)
Definition ping_action : M st unit :=
  let* meth := scopeMethod "__ready" in
  postMessage (VObj [("method", VStr meth); ("params", VStr "ping")]) true.

(** The [n]-th pending timer fires. *)
Definition fire_timer (n : nat) : M proc unit :=
  fun p =>
    match timers (glob p) !! n with
    | None => (p, Ok tt)
    | Some t =>
        let p' := {| glob := set_timers (take n (timers (glob p))
                                           ++ drop (S n) (timers (glob p)))%list (glob p);
                     chans := chans p; next_chan := next_chan p |} in
        match t with
        | TimeoutTimer c transId timeout method =>
            in_chan c (timeout_action transId timeout method) p'
        | PingTimer c => in_chan c ping_action p'
        end
    end.

(** What user code does with a transaction it kept: the variables [fl] of
    the transaction are those it had when the handler returned. *)
Definition later_complete (c : chan_id) (t : trans) (fl : tflags) (v : value) : M proc unit :=
  in_chan c (with_flags fl (trans_complete t v)).
Definition later_error (c : chan_id) (t : trans) (fl : tflags) (error message : value)
    : M proc unit :=
  in_chan c (with_flags fl (trans_error t error message)).

(** The posts of a trace, oldest first. *)
Definition posts (tr : list event) : list value :=
  omap (fun ev => match ev with EvPost _ msg _ => Some msg | _ => None end) tr.

(** The bound handlers a trace ran. *)
Definition handler_runs (tr : list event) : list event :=
  List.filter (fun ev => match ev with EvHandler _ _ _ => true | _ => false end) tr.

(** ** Scenarios

    A page in a current browser, and two scoped channels on it. *)

(** User code that never throws. *)
Definition quiet : fn -> list value -> option value := fun _ _ => None.

Definition modern : browser :=
  {| has_postMessage := true; has_JSON := true;
     has_addEventListener := true; has_attachEvent := false;
     has_removeEventListener := true; has_detachEvent := false |}.

Definition plain_cfg (w : window) (origin scope : string) : config :=
  {| cfg_window := Some w; cfg_origin := VStr origin; cfg_scope := VStr scope;
     cfg_type := VUndefined; cfg_gotMessageObserver := VUndefined;
     cfg_postMessageObserver := VUndefined; cfg_onReady := VUndefined |}.

(** Runs [c] and keeps the state. *)
Definition exec {S A : Type} (c : M S A) (s : S) : S := fst (c s).

(** Did the computation return normally? *)
Definition returns {S A : Type} (r : S * outcome A) : bool :=
  match snd r with Ok _ => true | Throw _ => false end.

(** The page right after the module is loaded, with no object of the user in
    the heap. *)
Definition page0 : proc := initial modern (1 # 2) ∅ quiet.

(** One channel to window 1 with scope [a], then destroyed once. *)
Definition page_built : proc := exec (build (plain_cfg 1%nat "*" "a")) page0.
Definition page_destroyed : proc := exec (in_chan 0%nat destroy) page_built.

(** A run of unforced [postMessage] calls, one per message. *)
Fixpoint post_all (msgs : list value) : M st unit :=
  match msgs with
  | [] => m_ret tt
  | msg :: msgs' => postMessage msg false ;; post_all msgs'
  end.

(** The reply a channel gives to a [ping]. *)
Definition pong (c : chan) : value :=
  VObj [("method", VStr (scoped_name c "__ready")); ("params", VStr "pong")].

(** [msg] has been handed to the transport, or, on a channel that is not
    ready, put at the end of the queue. *)
Definition sent_or_queued (msg : value) (before after : st) : Prop :=
  if ready (snd before)
  then posts (trace (fst after)) = (posts (trace (fst before)) ++ [msg])%list /\
       pendingQueue (snd after) = pendingQueue (snd before)
  else posts (trace (fst after)) = posts (trace (fst before)) /\
       pendingQueue (snd after) = (pendingQueue (snd before) ++ [msg])%list.

(** The transaction [onMessage] creates for a request [m] ... *)
Definition request_trans (origin m : value) : trans * tflags :=
  createTransaction (prop m "id") origin
    (if truthy (prop m "callbacks") then prop m "callbacks" else VArr []).

(** ... and the state in which it calls the bound handler: the observer has
    seen the message and the transaction is in [inTbl]. *)
Definition at_handler_call (origin m : value) (s : st) : st :=
  exec (observe (cfg_gotMessageObserver (cfg (snd s))) [origin; m] ;;
        modC (fun c => set_inTbl (assign (ToString (prop m "id")) tt (inTbl c)) c)) s.

(** The best-effort text of a value: its JSON text, or its string conversion
    when it has none. *)
Definition text_of (v : value) : value :=
  VStr (default (ToString v) (JSON_stringify v)).

(** The channel [build] creates for [plain_cfg 1 * a]. *)
Definition built_chan : chan :=
  {| self := 0%nat;
     cfg := set_cfg_origin (VStr "*") (plain_cfg 1%nat "*" "a");
     regTbl := <["__ready" := HReady]> ∅;
     outTbl := ∅; inTbl := ∅; ready := false; pendingQueue := [] |}.

(** A message from the peer in window 1. *)
Definition peer_event (m : value) : message_event :=
  {| e_data := Some m; e_source := 1%nat; e_origin := "http://peer.example" |}.

Definition ping_msg : value :=
  VObj [("method", VStr "a::__ready"); ("params", VStr "ping")].

Definition request (id : Z) (method : string) (params : value) : value :=
  VObj [("id", VNum id); ("method", VStr method); ("params", params)].

(** The page after the handshake, and with a user handler bound. *)
Definition page_ready : proc := exec (deliver (peer_event ping_msg)) page_built.

Definition with_handler (name : string) (h : value -> value -> script) (p : proc) : proc :=
  exec (in_chan 0%nat (bind (VStr name) (Some (HUser h)))) p.

(** A handler that throws [e] at once. *)
Definition raises (e : value) : value -> value -> script :=
  fun _ _ => {| s_actions := []; s_ending := Raise e |}.

(** The messages [trans.error] and [trans.complete] build. *)
Definition error_msg (t : trans) (error message : value) : value :=
  VObj [("id", t_id t); ("error", error); ("message", message)].
Definition result_msg (t : trans) (v : value) : value :=
  VObj [("id", t_id t); ("result", v)].

(** The closure state of channel [c] on page [p]. *)
Definition chan_of (p : proc) (c : chan_id) : chan := default built_chan (chans p !! c).

(** The page whose handler for [m] throws the two-element array of a code
    and a message, and the state of its channel when that handler is called
    for request 7. *)
Definition page_throwing (e : value) : proc := with_handler "m" (raises e) page_ready.

Definition throwing_call (e : value) : st :=
  exec (log (EvHandler 0%nat "m" VNull))
       (at_handler_call (VStr "http://peer.example") (request 7 "a::m" VNull)
          (glob (page_throwing e), chan_of (page_throwing e) 0%nat)).

(** ** What can happen on a channel

    Everything that can run on the state of one channel between two uses of a
    transaction the user kept: a message dispatched to its [onMessage], an
    operation on any transaction of the channel, a call of its public
    functions, one of its timers, and any activity elsewhere in the process
    (which touches the process-wide state only). *)
Inductive chan_event : Type :=
  | CeMessage (origin method m : value)
  | CeComplete (t : trans) (fl : tflags) (v : value)
  | CeError (t : trans) (fl : tflags) (error message : value)
  | CeInvoke (t : trans) (fl : tflags) (cbName v : value)
  | CeCall (m : option call_args)
  | CeNotify (m : option call_args)
  | CeBind (method : value) (cb : option method_handler)
  | CeUnbind (method : value)
  | CeDestroy
  | CeTimeout (transId : Z) (timeout : value) (method : string)
  | CePing
  | CeElsewhere (f : globals -> globals).

Definition run_event (ev : chan_event) (s : st) : st :=
  match ev with
  | CeMessage origin method m => exec (onMessage origin method m) s
  | CeComplete t fl v => exec (with_flags fl (trans_complete t v)) s
  | CeError t fl error message => exec (with_flags fl (trans_error t error message)) s
  | CeInvoke t fl cbName v => exec (with_flags fl (trans_invoke t cbName v)) s
  | CeCall m => exec (call m) s
  | CeNotify m => exec (notify m) s
  | CeBind method cb => exec (bind method cb) s
  | CeUnbind method => exec (unbind method) s
  | CeDestroy => exec destroy s
  | CeTimeout transId timeout method => exec (timeout_action transId timeout method) s
  | CePing => exec ping_action s
  | CeElsewhere f => exec (modG f) s
  end.

Definition run_events (evs : list chan_event) (s : st) : st :=
  foldl (fun s ev => run_event ev s) s evs.


(** The two ways to finish a transaction. *)
Inductive finisher : Type :=
  | Complete (v : value)
  | Fail (error message : value).

Definition finish_with (t : trans) (f : finisher) : M tst unit :=
  match f with
  | Complete v => trans_complete t v
  | Fail error message => trans_error t error message
  end.

Definition finish_msg (t : trans) (f : finisher) : value :=
  match f with
  | Complete v => result_msg t v
  | Fail error message => error_msg t error message
  end.


(** [c] keeps [P] true, whatever it returns or throws. *)
Definition preserves {S A : Type} (P : S -> Prop) (c : M S A) : Prop :=
  forall s, P s -> P (fst (c s)).


(** A handler that asks for a delayed return and keeps the transaction; the
    page after request 5 has reached it; and the transaction the user then
    holds, with its variables. *)
Definition delaying : value -> value -> script :=
  fun _ _ => {| s_actions := [TDelayReturn (VBool true)]; s_ending := Return VUndefined |}.

Definition page_delayed : proc :=
  exec (deliver (peer_event (request 5 "a::m" VNull))) (with_handler "m" delaying page_ready).

Definition trans5 : trans :=
  fst (request_trans (VStr "http://peer.example") (request 5 "a::m" VNull)).

Definition kept_flags : tflags := {| shouldDelayReturn := true; completed := false |}.

(** The same with a request whose id is the string [constructor]. *)
Definition named_request : value :=
  VObj [("id", VStr "constructor"); ("method", VStr "a::m"); ("params", VNull)].

Definition page_delayed_named : proc :=
  exec (deliver (peer_event named_request)) (with_handler "m" delaying page_ready).

Definition trans_named : trans :=
  fst (request_trans (VStr "http://peer.example") named_request).

(** *** A call that passes a function

    The caller's params object holds a number and the function 7 under
    [onProgress]; the caller's page is ready and calls [m] with it. *)
Definition caller_heap : gmap loc hobj :=
  {[ 0%nat := {| arr_length := None;
                 own := [("total", HNum 3); ("onProgress", HFun (FUser 7))] |} ]}.

Definition caller_page : proc :=
  exec (deliver (peer_event ping_msg))
       (exec (build (plain_cfg 1%nat "*" "a")) (initial modern (1 # 2) caller_heap quiet)).

Definition progress_call : call_args :=
  {| a_method := VStr "m"; a_params := HRef 0%nat;
     a_success := VFun (FUser 1); a_error := VFun (FUser 2); a_timeout := VUndefined |}.

Definition caller_called : proc := exec (in_chan 0%nat (call (Some progress_call))) caller_page.

(** The request this call puts on the wire ... *)
Definition progress_request : value :=
  VObj [("id", VNum 500000); ("method", VStr "a::m");
        ("params", VObj [("total", VNum 3)]);
        ("callbacks", VArr [VStr "onProgress"])].

(** ... and the page that receives it, whose handler for [m] reports progress
    through [params.onProgress] and returns. *)
Definition reporting : value -> value -> script :=
  fun _ _ => {| s_actions := [TCallParam ["onProgress"] (VNum 42)];
               s_ending := Return (VNum 0) |}.

Definition callee_page : proc := with_handler "m" reporting page_ready.

Definition callee_after : proc := exec (deliver (peer_event progress_request)) callee_page.

(** What the callee answers, delivered back to the caller. *)
Definition progress_error : value :=
  VObj [("id", VNum 500000); ("error", VStr "runtime_error"); ("message", VStr "{}")].

Definition caller_after : proc := exec (deliver (peer_event progress_error)) caller_called.

(** *** A call followed by [destroy] *)
Definition call_destroyed : proc := exec (in_chan 0%nat destroy) caller_called.

Definition late_response : value := VObj [("id", VNum 500000); ("result", VNum 1)].

(** *** Two channels on one page *)
Definition echo : value -> value -> script :=
  fun _ params => {| s_actions := []; s_ending := Return params |}.

Definition two_channels : proc :=
  exec (in_chan 1%nat (bind (VStr "m") (Some (HUser echo))))
    (exec (in_chan 0%nat (bind (VStr "m") (Some (HUser echo))))
       (exec (build (plain_cfg 2%nat "*" "b")) page_built)).

Definition from_window2 (m : value) : message_event :=
  {| e_data := Some m; e_source := 2%nat; e_origin := "http://other.example" |}.

Definition first_destroyed : proc := exec (in_chan 0%nat destroy) two_channels.

(** ** Reachability in the caller's heap *)

(** The object at [l] is reached from the value [v] through own properties. *)
Inductive reach (h : gmap loc hobj) : hval -> loc -> Prop :=
  | reach_here (l : loc) : reach h (HRef l) l
  | reach_step (l l' l'' : loc) (k : string) :
      own_prop h l k = Some (HRef l') -> reach h (HRef l') l'' -> reach h (HRef l) l''.

(** The object at [l] is reached from [v], and [p] is the path the traversal
    gives it when [v] has the path [path]. *)
Inductive at_path (h : gmap loc hobj) : hval -> string -> loc -> string -> Prop :=
  | at_here (l : loc) (path : string) : at_path h (HRef l) path l path
  | at_step (l l' l'' : loc) (k path p : string) :
      own_prop h l k = Some (HRef l') ->
      at_path h (HRef l') (child_path path k) l'' p ->
      at_path h (HRef l) path l'' p.

(** No own property of the object at [l] is a function, and every object it
    refers to is in [seen]. *)
Definition closed (h : gmap loc hobj) (seen : list hval) (l : loc) : Prop :=
  forall k v, own_prop h l k = Some v ->
    (forall f, v <> HFun f) /\ (forall l', v = HRef l' -> HRef l' ∈ seen).

(** How a traversal that returns relates the state it started in to the state
    it reached: [seen] and [callbackNames] grow, the heap changes by deleting
    function-valued properties of objects that have been seen, and every
    name in [callbackNames] has its entry in [callbacks]. *)
Record extends (s s' : pstate) : Prop := {
  ext_seen : forall x, x ∈ p_seen s -> x ∈ p_seen s';
  ext_names : forall np, np ∈ p_names s -> np ∈ p_names s';
  ext_mono : forall l k v,
    own_prop (p_heap s') l k = Some v -> own_prop (p_heap s) l k = Some v;
  ext_frame : forall l k v,
    own_prop (p_heap s) l k = Some v -> (forall f, v <> HFun f) ->
    own_prop (p_heap s') l k = Some v;
  ext_unseen : forall l k,
    HRef l ∉ p_seen s' -> own_prop (p_heap s') l k = own_prop (p_heap s) l k;
  ext_recorded :
    (forall np, np ∈ p_names s -> is_Some (p_callbacks s !! np)) ->
    (forall np, np ∈ p_names s' -> is_Some (p_callbacks s' !! np));
  ext_dom : dom (p_heap s') = dom (p_heap s)
}.

(** What a call [pruneFunctions(path, v)] that returns has done: the objects
    seen before it are as they were, and every object it has seen is
    [closed]. *)
Definition call_ok (v : hval) (s s' : pstate) : Prop :=
  extends s s' /\
  v ∈ p_seen s' /\
  (forall l k, HRef l ∈ p_seen s -> own_prop (p_heap s') l k = own_prop (p_heap s) l k) /\
  (forall l, HRef l ∈ p_seen s' -> HRef l ∉ p_seen s -> closed (p_heap s') (p_seen s') l).

(** The number of objects of the heap the traversal has not seen yet. *)
Definition unseen (s : pstate) : nat :=
  size (filter (fun l => HRef l ∉ p_seen s) (dom (p_heap s))).

(** The callback names a request message declares. *)
Definition callbacks_of (msg : value) : list value :=
  match prop msg "callbacks" with
  | VArr names => names
  | _ => []
  end.

(** The message handed over last: the last post of a ready channel, the end
    of the queue of one that is not ready. *)
Definition last_handed (was_ready : bool) (s : st) : option value :=
  if was_ready then last (posts (trace (fst s))) else last (pendingQueue (snd s)).

(** A params object with two [null] members. *)
Definition nulls_heap : gmap loc hobj :=
  {[ 0%nat := {| arr_length := None; own := [("a", HNull); ("b", HNull)] |} ]}.

(** ** Messages as [onMessage] sees them *)

(** How a call of the user's function [f] with [args] ends. *)
Definition user_outcome (g : globals) (f : fn) (args : list value) : outcome unit :=
  match thrown g f args with
  | Some e => Throw e
  | None => Ok tt
  end.

(** User code in which the function [f] throws [e], whatever it is given,
    and no other function throws. *)
Definition failing (f : fn) (e : value) : fn -> list value -> option value :=
  fun f' _ => if bool_decide (f' = f) then Some e else None.

(** The state in which [onMessage] looks at the message: the observer given
    as [cfg.gotMessageObserver], if any, has been called. *)
Definition after_observer (origin m : value) (s : st) : st :=
  exec (observe (cfg_gotMessageObserver (cfg (snd s))) [origin; m]) s.

(** A message that [onMessage] has nothing to do with: a request or a
    notification whose method [regTbl] has nothing for, a response whose id
    [outTbl] has nothing for, a callback invocation whose id belongs to no
    outstanding call or whose name the [callbacks] of the call have nothing
    for, or a message with neither id nor method.  A table has nothing for
    a key that is neither an own property nor an inherited name. *)
Definition unmatched (c : chan) (method m : value) : Prop :=
  (truthy method = true /\ member (regTbl c) (ToString method) = Nothing) \/
  (truthy method = false /\ truthy (prop m "id") = true /\
   truthy (prop m "callback") = false /\
   member (outTbl c) (ToString (prop m "id")) = Nothing) \/
  (truthy method = false /\ truthy (prop m "id") = true /\
   truthy (prop m "callback") = true /\
   (outTbl c !! ToString (prop m "id") = None \/
    exists entry, outTbl c !! ToString (prop m "id") = Some entry /\
                  member (o_callbacks entry) (ToString (prop m "callback")) = Nothing)) \/
  (truthy method = false /\ truthy (prop m "id") = false).

(** The function a response is for, and the arguments it is called with. *)
Definition response_callback (entry : out_entry) (m : value) : value :=
  if truthy (prop m "error") then o_error entry else o_success entry.

Definition response_args (m : value) : list value :=
  if truthy (prop m "error") then [prop m "error"; prop m "message"]
  else if negb (strict_equals (prop m "result") VUndefined) then [prop m "result"]
       else [].

(** ** Scopes, origins and routes *)

(** The scope [build] registers a channel under. *)
Definition scope_of (c : config) : string :=
  match cfg_scope c with VStr sc => sc | _ => "" end.

(** Does [sep] occur in [s]? *)
Fixpoint occurs (sep s : string) : bool :=
  String.prefix sep s ||
  match s with
  | EmptyString => false
  | String _ s' => occurs sep s'
  end.

(** The channel a message with a method is handed to: the first binding of
    the source window under the origin of the message and the scope key, or
    else the first one under the wildcard. *)
Definition route (bc : gmap string (gmap string (list bound)))
    (o key : string) (w : window) : option chan_id :=
  match bucket bc o key ≫= first_win w with
  | Some j => Some (handler j)
  | None => handler <$> (bucket bc "*" key ≫= first_win w)
  end.

(** Every character of [s] satisfies [p]. *)
Fixpoint all_chars (p : Ascii.ascii -> bool) (s : string) : bool :=
  match s with
  | EmptyString => true
  | String c s' => p c && all_chars p s'
  end.

(** The shape of what the origin pattern matches: a scheme, a host, and
    possibly a port. *)
Definition origin_shape (sch host port : string) : Prop :=
  (sch = "https://" \/ sch = "http://") /\
  host <> "" /\ all_chars is_host_char host = true /\
  (port = "" \/ exists digits, port = ":" +:+ digits /\ digits <> "" /\
                               all_chars is_digit digits = true).

(** ** The channel [build] returns *)

(** Its closure state: nothing bound but the handshake, nothing outstanding,
    not ready. *)
Definition fresh_chan (me : chan_id) (c : config) (origin : string) : chan :=
  {| self := me; cfg := set_cfg_origin (VStr origin) c;
     regTbl := <["__ready" := HReady]> ∅; outTbl := ∅; inTbl := ∅;
     ready := false; pendingQueue := [] |}.

(** Is the channel built for a child frame, which sends the first [ping]? *)
Definition is_child (c : config) : bool :=
  truthy (cfg_type c) && strict_equals (cfg_type c) (VStr "child").

(** ** What can happen on a page *)

(** Kinds of events on a channel. *)
Definition is_call (ev : chan_event) : Prop :=
  match ev with CeCall _ => True | _ => False end.
Definition is_destroy (ev : chan_event) : Prop :=
  match ev with CeDestroy => True | _ => False end.
Definition is_elsewhere (ev : chan_event) : Prop :=
  match ev with CeElsewhere _ => True | _ => False end.

(** On the page as a whole: a channel is built, a message arrives at the
    window, a timer fires, or something happens on one of the channels. *)
Inductive proc_event : Type :=
  | PeBuild (c : config)
  | PeMessage (e : message_event)
  | PeTimer (n : nat)
  | PeChan (c : chan_id) (ev : chan_event).

Definition run_proc_event (ev : proc_event) (p : proc) : proc :=
  match ev with
  | PeBuild c => exec (build c) p
  | PeMessage e => exec (deliver e) p
  | PeTimer n => exec (fire_timer n) p
  | PeChan c ev => exec (in_chan c (fun s => (run_event ev s, Ok tt))) p
  end.

Definition run_proc_events (evs : list proc_event) (p : proc) : proc :=
  foldl (fun p ev => run_proc_event ev p) p evs.

(** The event is the code of the module at work, not an arbitrary write to
    the process-wide state. *)
Definition of_the_module (ev : proc_event) : Prop :=
  match ev with
  | PeChan _ ev => ~ is_elsewhere ev
  | _ => True
  end.

(** ** Ids below the counter *)

(** The key [k] is the decimal text of an integer smaller than [n]. *)
Definition below (n : Z) (k : string) : Prop := exists i : Z, k = pretty i /\ i < n.

(** Every id in the transaction router and in the table of outstanding calls
    of a channel was taken from the counter: it is smaller than the counter
    is now (which is at least [n0]). *)
Definition ids_below_st (n0 : Z) (s : st) : Prop :=
  n0 <= s_curTranId (fst s) /\
  (forall k, is_Some (s_transIds (fst s) !! k) -> below (s_curTranId (fst s)) k) /\
  (forall k, is_Some (outTbl (snd s) !! k) -> below (s_curTranId (fst s)) k).

(** The same on the whole page, for every channel. *)
Definition ids_below (p : proc) : Prop :=
  (forall k, is_Some (s_transIds (glob p) !! k) -> below (s_curTranId (glob p)) k) /\
  (forall c ch k, chans p !! c = Some ch -> is_Some (outTbl ch !! k) ->
                  below (s_curTranId (glob p)) k).

(** ** More scenarios *)

(** A call without an [error] function, and one with a timeout. *)
Definition silent_call : call_args :=
  {| a_method := VStr "m"; a_params := HNum 1;
     a_success := VFun (FUser 1); a_error := VUndefined; a_timeout := VUndefined |}.


Definition timed_call : call_args :=
  {| a_method := VStr "m"; a_params := HNum 1;
     a_success := VFun (FUser 1); a_error := VFun (FUser 2); a_timeout := VNum 500 |}.

Definition caller_timed : proc := exec (in_chan 0%nat (call (Some timed_call))) caller_page.

(** A page with one channel built without a scope. *)
Definition unscoped_page : proc :=
  exec (build {| cfg_window := Some 1%nat; cfg_origin := VStr "*"; cfg_scope := VUndefined;
                 cfg_type := VUndefined; cfg_gotMessageObserver := VUndefined;
                 cfg_postMessageObserver := VUndefined; cfg_onReady := VUndefined |})
       page0.

(** A params object that holds a function and a reference to itself, on a
    page that is ready. *)
Definition looping_heap : gmap loc hobj :=
  {[ 0%nat := {| arr_length := None;
                 own := [("onProgress", HFun (FUser 7)); ("self", HRef 0%nat)] |} ]}.

Definition looping_page : proc :=
  exec (deliver (peer_event ping_msg))
       (exec (build (plain_cfg 1%nat "*" "a")) (initial modern (1 # 2) looping_heap quiet)).

(** * Properties *)

(** ** Stepping through a computation *)

Lemma m_bind_ok {S A B : Type} (c : M S A) (k : A -> M S B) (s s' : S) (a : A) :
  c s = (s', Ok a) -> m_bind c k s = k a s'.
Proof. intros H. unfold m_bind. by rewrite H. Qed.

Lemma m_bind_throw {S A B : Type} (c : M S A) (k : A -> M S B) (s s' : S) (e : value) :
  c s = (s', Throw e) -> m_bind c k s = (s', Throw e).
Proof. intros H. unfold m_bind. by rewrite H. Qed.

Lemma bind_getC {A B : Type} (f : chan -> A) (k : A -> M st B) (s : st) :
  m_bind (getC f) k s = k (f (snd s)) s.
Proof. reflexivity. Qed.

Lemma bind_getG {A B : Type} (f : globals -> A) (k : A -> M st B) (s : st) :
  m_bind (getG f) k s = k (f (fst s)) s.
Proof. reflexivity. Qed.

Lemma bind_modC {B : Type} (f : chan -> chan) (k : unit -> M st B) (s : st) :
  m_bind (modC f) k s = k tt (fst s, f (snd s)).
Proof. reflexivity. Qed.

Lemma bind_modG {B : Type} (f : globals -> globals) (k : unit -> M st B) (s : st) :
  m_bind (modG f) k s = k tt (f (fst s), snd s).
Proof. reflexivity. Qed.

Ltac mstep :=
  first [rewrite bind_getG | rewrite bind_getC | rewrite bind_modG | rewrite bind_modC];
  cbv beta; cbn [fst snd].

Lemma chan_eta (c : chan) : set_pendingQueue (pendingQueue c) c = c.
Proof. by destruct c. Qed.

Lemma proc_eta (p : proc) (c : chan_id) (ch : chan) :
  chans p !! c = Some ch ->
  {| glob := glob p; chans := <[c := ch]> (chans p); next_chan := next_chan p |} = p.
Proof. intros H. destruct p; simpl in *. by rewrite insert_id. Qed.

(** ** The seed of the transaction counter *)

Lemma s_curTranId_seed_range (random : Q) :
  (0 <= random)%Q -> (random < 1)%Q ->
  (0 <= s_curTranId_seed random <= 1000000)%Z.
Proof.
  intros H0 H1. unfold s_curTranId_seed. split.
  - change 0%Z with (Qfloor 0). apply Qfloor_resp_le.
    apply Qmult_le_0_compat; [exact H0 | discriminate].
  - assert (Hlt : (inject_Z (Qfloor (random * 1000001)) < inject_Z 1000001)%Q).
    { eapply Qle_lt_trans; [apply Qfloor_le |].
      apply (Qlt_le_trans _ (1 * 1000001)%Q);
        [apply Qmult_lt_compat_r; [reflexivity | exact H1] |].
      unfold Qle; simpl; lia. }
    rewrite <- Zlt_Qlt in Hlt. lia.
Qed.

(** Every integer from 0 to 1000000 is a possible seed. *)
Lemma s_curTranId_seed_onto (n : Z) :
  (0 <= n <= 1000000)%Z ->
  exists random : Q,
    (0 <= random)%Q /\ (random < 1)%Q /\ s_curTranId_seed random = n.
Proof.
  intros Hn. exists (n # 1000001)%Q. split; [| split].
  - unfold Qle; simpl. lia.
  - unfold Qlt; simpl. lia.
  - unfold s_curTranId_seed, Qfloor, Qmult; simpl.
    rewrite Z.div_mul; [reflexivity | discriminate].
Qed.

(** C9: the claim that the seed is always odd fails on the code: when
    [Math.random()] returns 0 the seeding expression yields 0, and when it
    returns 1/2 it yields 500000; both are even, against the comment on
    [s_curTranId] in the source. *)
Theorem seed_can_be_even :
  s_curTranId_seed 0 = 0%Z /\ Z.odd (s_curTranId_seed 0) = false /\
  s_curTranId_seed (1 # 2) = 500000%Z /\ Z.odd (s_curTranId_seed (1 # 2)) = false.
Proof. repeat split; reflexivity. Qed.

(** ** [s_addBoundChan] *)

Lemma hasWin_spec (w : window) (arr : list bound) :
  hasWin w arr = true <-> exists b, b ∈ arr /\ win b = w.
Proof.
  unfold hasWin. rewrite existsb_exists. split.
  - intros (b & Hin & Heq). exists b. split; [by apply list_elem_of_In |].
    by apply Nat.eqb_eq.
  - intros (b & Hin & Heq). exists b. split; [by apply list_elem_of_In |].
    by apply Nat.eqb_eq.
Qed.

(** ** Lookups *)

Lemma member_own {A : Type} (tbl : gmap string A) (k : string) (a : A) :
  tbl !! k = Some a -> member tbl k = Own a.
Proof. unfold member. by intros ->. Qed.

Lemma member_plain {A : Type} (tbl : gmap string A) (k : string) :
  inherited k = false ->
  member tbl k = match tbl !! k with Some a => Own a | None => Nothing end.
Proof. unfold member. intros ->. by destruct (tbl !! k). Qed.

Lemma member_nothing {A : Type} (tbl : gmap string A) (k : string) :
  member tbl k = Nothing <-> tbl !! k = None /\ inherited k = false.
Proof.
  unfold member. destruct (tbl !! k); [split; [done | by intros [? _]] |].
  destruct (inherited k); split; try done. by intros [_ ?].
Qed.

Lemma member_inherited {A : Type} (tbl : gmap string A) (k : string) :
  member tbl k = Inherited <-> tbl !! k = None /\ inherited k = true.
Proof.
  unfold member. destruct (tbl !! k); [split; [done | by intros [? _]] |].
  destruct (inherited k); split; try done. by intros [_ ?].
Qed.

Lemma member_own_inv {A : Type} (tbl : gmap string A) (k : string) (a : A) :
  member tbl k = Own a -> tbl !! k = Some a.
Proof. unfold member. destruct (tbl !! k); [congruence |]. by destruct (inherited k). Qed.

Lemma bucket_member_plain (bc : gmap string (gmap string (list bound))) (o sc : string) :
  inherited sc = false ->
  bucket_member bc o sc = match bucket bc o sc with Some arr => Own arr | None => Nothing end.
Proof.
  intros Hsc. unfold bucket_member, bucket. destruct (bc !! o); [| done].
  by apply member_plain.
Qed.

Lemma assign_plain {A : Type} (tbl : gmap string A) (k : string) (a : A) :
  inherited k = false -> assign k a tbl = <[k := a]> tbl.
Proof.
  unfold assign. destruct (String.eqb_spec k "__proto__") as [-> | _]; [| done].
  by vm_compute.
Qed.

Lemma scan_origins_spec (w : window) (scope : string)
    (ks : list (string * gmap string (list bound))) :
  scope <> "__proto__" ->
  exists b, scan_origins w scope ks = Ok b /\
    (b = true <->
     exists k scopes arr,
       (k, scopes) ∈ ks /\ k <> "*" /\ scopes !! scope = Some arr /\ hasWin w arr = true).
Proof.
  intros Hproto. induction ks as [| [k scopes] ks (b & IH & Hb)]; simpl.
  - exists false. split; [done |]. split; [discriminate |].
    intros (k & sc & arr & Hin & _). by apply elem_of_nil in Hin.
  - destruct (String.eqb_spec k "*") as [-> | Hk].
    + exists b. split; [done |]. rewrite Hb. split.
      * intros (k & sc & arr & Hin & H). exists k, sc, arr. split; [by right | done].
      * intros (k & sc & arr & Hin & Hne & H). apply elem_of_cons in Hin as [Heq | Hin].
        -- inversion Heq; subst. done.
        -- exists k, sc, arr. done.
    + assert (Hrest : (b = true <->
                exists k' sc arr, (k', sc) ∈ (k, scopes) :: ks /\ k' <> "*" /\
                                  sc !! scope = Some arr /\ hasWin w arr = true) \/
                exists arr, scopes !! scope = Some arr /\ hasWin w arr = true).
      { destruct (scopes !! scope) as [arr |] eqn:Hsc.
        - destruct (hasWin w arr) eqn:Hw; [right; eauto |]. left. rewrite Hb. split.
          + intros (k' & sc & arr' & Hin & H). exists k', sc, arr'. split; [by right | done].
          + intros (k' & sc & arr' & Hin & Hne & Hl & Hh).
            apply elem_of_cons in Hin as [Heq | Hin].
            * inversion Heq; subst. rewrite Hsc in Hl. inversion Hl; subst. congruence.
            * exists k', sc, arr'. done.
        - left. rewrite Hb. split.
          + intros (k' & sc & arr' & Hin & H). exists k', sc, arr'. split; [by right | done].
          + intros (k' & sc & arr' & Hin & Hne & Hl & Hh).
            apply elem_of_cons in Hin as [Heq | Hin].
            * inversion Heq; subst. rewrite Hsc in Hl. discriminate.
            * exists k', sc, arr'. done. }
      unfold member. destruct (scopes !! scope) as [arr |] eqn:Hsc.
      * destruct (hasWin w arr) eqn:Hw.
        -- exists true. split; [done |]. split; [| done]. intros _.
           exists k, scopes, arr. split; [by left | done].
        -- exists b. split; [done |]. destruct Hrest as [H | (arr' & ? & ?)]; [done | congruence].
      * exists b. split.
        -- destruct (inherited scope); [| done].
           by destruct (String.eqb_spec scope "__proto__").
        -- destruct Hrest as [H | (arr' & ? & ?)]; [done | congruence].
Qed.

(** What the code checks, for a scope that is no inherited name: a binding
    of the same window and scope overlaps the new one when exactly one of
    the two origins is the wildcard, or when the two origins are the same
    origin other than the wildcard. *)
Lemma overlap_exists_spec (bc : gmap string (gmap string (list bound)))
    (w : window) (origin scope : string) :
  inherited scope = false ->
  exists b, overlap_exists bc w origin scope = Ok b /\
    (b = true <->
     exists o arr b,
       bucket bc o scope = Some arr /\ b ∈ arr /\ win b = w /\
       ((origin = "*" /\ o <> "*") \/ (origin <> "*" /\ (o = "*" \/ o = origin)))).
Proof.
  intros Hsc. unfold overlap_exists. destruct (String.eqb_spec origin "*") as [-> | Hne].
  - destruct (scan_origins_spec w scope (map_to_list bc)) as (b & -> & Hb).
    { intros ->. by vm_compute in Hsc. }
    exists b. split; [done |]. rewrite Hb. split.
    + intros (k & scopes & arr & Hin & Hk & Hs & Hw).
      apply elem_of_map_to_list in Hin. apply hasWin_spec in Hw as (b' & Hb' & Hwb).
      exists k, arr, b'. unfold bucket. rewrite Hin. repeat split; auto.
    + intros (o & arr & b' & Hb' & Hin & Hw & [[_ Ho] | [Ho _]]); [| done].
      unfold bucket in Hb'. destruct (bc !! o) as [scopes |] eqn:Hbo; [| done].
      exists o, scopes, arr. split; [by apply elem_of_map_to_list |].
      repeat split; auto. apply hasWin_spec. eauto.
  - rewrite !bucket_member_plain by done.
    destruct (bucket bc "*" scope) as [arr |] eqn:Hstar; cbn [hasWin_member].
    + destruct (hasWin w arr) eqn:Hw.
      * exists true. split; [done |]. split; [| done]. intros _.
        apply hasWin_spec in Hw as (b & Hb & Hwb). exists "*", arr, b. eauto 10.
      * destruct (bucket bc origin scope) as [arr' |] eqn:Ho; cbn [hasWin_member].
        -- exists (hasWin w arr'). split; [done |]. split.
           ++ intros H. apply hasWin_spec in H as (b & Hb & Hwb). exists origin, arr', b. eauto 10.
           ++ intros (o & a & b & Hb & Hin & Hwb & [[Ho' _] | [_ [-> | ->]]]); [done | |].
              ** assert (a = arr) as -> by congruence.
                 assert (hasWin w arr = true) by (apply hasWin_spec; eauto). congruence.
              ** assert (a = arr') as -> by congruence. apply hasWin_spec; eauto.
        -- exists false. split; [done |]. split; [done |].
           intros (o & a & b & Hb & Hin & Hwb & [[Ho' _] | [_ [-> | ->]]]); [done | |].
           ++ assert (a = arr) as -> by congruence.
              assert (hasWin w arr = true) by (apply hasWin_spec; eauto). congruence.
           ++ rewrite Ho in Hb. discriminate.
    + destruct (bucket bc origin scope) as [arr' |] eqn:Ho; cbn [hasWin_member].
      * exists (hasWin w arr'). split; [done |]. split.
        -- intros H. apply hasWin_spec in H as (b & Hb & Hwb). exists origin, arr', b. eauto 10.
        -- intros (o & a & b & Hb & Hin & Hwb & [[Ho' _] | [_ [-> | ->]]]); [done | |].
           ++ rewrite Hstar in Hb. discriminate.
           ++ assert (a = arr') as -> by congruence. apply hasWin_spec; eauto.
      * exists false. split; [done |]. split; [done |].
        intros (o & a & b & Hb & Hin & Hwb & [[Ho' _] | [_ [-> | ->]]]); [done | |].
        -- rewrite Hstar in Hb. discriminate.
        -- rewrite Ho in Hb. discriminate.
Qed.

Lemma s_addBoundChan_throws (g : globals) (w : window) (origin scope : string) (h : chan_id) :
  inherited scope = false ->
  returns (s_addBoundChan w origin scope h g) = false <->
  overlap_exists (s_boundChans g) w origin scope = Ok true.
Proof.
  intros Hsc. unfold s_addBoundChan, returns.
  destruct (overlap_exists_spec (s_boundChans g) w origin scope Hsc) as (b & -> & _).
  rewrite member_plain by done.
  destruct b; simpl; [done |].
  by destruct (default ∅ (s_boundChans g !! origin) !! scope).
Qed.

(** C2: the claimed condition includes the case in which both origins are the
    wildcard, and there the code does not fail: the loop taken for a wildcard
    origin passes over the wildcard's own bucket.  A second channel built on
    window 1 with origin [*] and scope [a] is accepted next to the first, and
    the bucket then holds both, against the comment on [s_boundChans] in the
    source. *)
Theorem double_wildcard_binding_accepted :
  let p1 := exec (build (plain_cfg 1%nat "*" "a")) page0 in
  let p2 := exec (build (plain_cfg 1%nat "*" "a")) p1 in
  snd (build (plain_cfg 1%nat "*" "a") page0) = Ok 0%nat /\
  snd (build (plain_cfg 1%nat "*" "a") p1) = Ok 1%nat /\
  bucket (s_boundChans (glob p2)) "*" "a"
    = Some [ {| win := 1%nat; handler := 0%nat |}; {| win := 1%nat; handler := 1%nat |} ].
Proof. vm_compute. repeat split; reflexivity. Qed.

(** ** [destroy] on a destroyed channel *)

(** A destroy that returns leaves [cfg.origin] at [null]. *)
Lemma destroy_nulls_origin (s s' : st) :
  destroy s = (s', Ok tt) -> cfg_origin (cfg (snd s')) = VNull.
Proof.
  destruct s as [g ch]. unfold destroy, m_bind, getC, m_gets, liftG, modG, modC, m_modify.
  simpl. destruct (s_removeBoundChan _ _ _ g) as [g1 [[] | e]]; simpl; [| discriminate].
  intros H. inversion H; subst. reflexivity.
Qed.

(** C8 (amended): a second [destroy()] on a destroyed channel does raise: the
    first one left [cfg.origin] at [null], no origin of the registry is the
    string [null], and the lookup in [s_removeBoundChan] throws a [TypeError]
    before anything is written, so the registry, the transaction tables and
    all the rest of the state stay as they were. *)
Theorem second_destroy_throws_without_effect (p : proc) (c : chan_id) (ch : chan) :
  chans p !! c = Some ch ->
  cfg_origin (cfg ch) = VNull ->
  s_boundChans (glob p) !! "null" = None ->
  in_chan c destroy p = (p, Throw (TypeError "Cannot read properties of undefined")).
Proof.
  intros Hc Ho Hn. unfold in_chan. rewrite Hc.
  unfold destroy, m_bind, getC, m_gets, liftG, s_removeBoundChan. simpl.
  rewrite Ho. simpl. rewrite Hn. simpl. by rewrite proc_eta.
Qed.

Lemma second_destroy_witness :
  in_chan 0%nat destroy page_destroyed
  = (page_destroyed, Throw (TypeError "Cannot read properties of undefined")).
Proof.
  eapply second_destroy_throws_without_effect.
  - vm_compute. reflexivity.
  - reflexivity.
  - vm_compute. reflexivity.
Defined.

(** C8 (as stated): on a page with one channel, the first [destroy()] returns
    and the second one raises a [TypeError]. *)
Lemma second_destroy_raises :
  snd (in_chan 0%nat destroy page_built) = Ok tt /\
  snd (in_chan 0%nat destroy page_destroyed)
  = Throw (TypeError "Cannot read properties of undefined").
Proof. split; vm_compute; reflexivity. Qed.

(** No origin that passes the validation of [build] is the string [null],
    so the registry never has that key. *)
Lemma toLowerCase_http (sch rest : string) :
  sch = "https://" \/ sch = "http://" ->
  String.prefix "http" (toLowerCase (sch +:+ rest)) = true.
Proof. by intros [-> | ->]. Qed.

Lemma origin_match_http (s matched : string) :
  origin_match s = Some matched -> String.prefix "http" (toLowerCase matched) = true.
Proof.
  unfold origin_match.
  destruct (String.prefix "https://" s) eqn:H1; [| destruct (String.prefix "http://" s) eqn:H2].
  - destruct (take_while is_host_char _) as [host rest].
    destruct (Nat.eqb (String.length host) 0); [discriminate |].
    destruct rest as [| ch rest'].
    + intros [= <-]. by apply (toLowerCase_http "https://"); left.
    + destruct (take_while is_digit rest') as [digits r].
      destruct (_ && _); intros [= <-];
        apply (toLowerCase_http "https://"); by left.
  - destruct (take_while is_host_char _) as [host rest].
    destruct (Nat.eqb (String.length host) 0); [discriminate |].
    destruct rest as [| ch rest'].
    + intros [= <-]. by apply (toLowerCase_http "http://"); right.
    + destruct (take_while is_digit rest') as [digits r].
      destruct (_ && _); intros [= <-];
        apply (toLowerCase_http "http://"); by right.
  - discriminate.
Qed.

Lemma validate_origin_not_null (origin : value) (s : string) :
  validate_origin origin = Some s -> s <> "null".
Proof.
  destruct origin; simpl; try discriminate.
  destruct (String.eqb_spec s0 "*") as [-> | Hne].
  - intros [= <-]. discriminate.
  - destruct (origin_match s0) as [matched |] eqn:Hm; [| discriminate].
    intros [= <-] Hnull. apply origin_match_http in Hm. rewrite Hnull in Hm. discriminate.
Qed.

Lemma s_addBoundChan_other (w : window) (origin scope o : string) (h : chan_id) (g : globals) :
  o <> origin ->
  s_boundChans (fst (s_addBoundChan w origin scope h g)) !! o = s_boundChans g !! o.
Proof.
  intros Hne. unfold s_addBoundChan.
  destruct (overlap_exists _ _ _ _) as [[] | e]; [done | | done].
  destruct (member _ _); [| destruct (String.eqb scope "__proto__") |];
    cbn [fst s_boundChans set_boundChans]; by rewrite lookup_insert_ne.
Qed.

Lemma member_ready : member (∅ : gmap string method_handler) "__ready" = Nothing.
Proof. reflexivity. Qed.

Lemma build_keeps_null_free (c : config) (p : proc) :
  s_boundChans (glob p) !! "null" = None ->
  s_boundChans (glob (exec (build c) p)) !! "null" = None.
Proof.
  intros Hn. unfold exec, build.
  destruct (has_postMessage _); simpl; [| exact Hn].
  destruct (has_JSON _); simpl; [| exact Hn].
  destruct (cfg_window c) as [w |]; [| exact Hn].
  change (match w with O => true | S _ => false end) with (Nat.eqb this_window w).
  destruct (Nat.eqb this_window w); [exact Hn |].
  destruct (validate_origin (cfg_origin c)) as [origin |] eqn:Hv; [| exact Hn].
  apply validate_origin_not_null in Hv.
  destruct (match cfg_scope c with VUndefined => _ | _ => _ end); [exact Hn |].
  destruct (s_addBoundChan _ _ _ _ _) as [g r] eqn:E.
  assert (Hg : s_boundChans g !! "null" = None).
  { rewrite <- Hn. change g with (fst (g, r)). rewrite <- E.
    by apply s_addBoundChan_other. }
  destruct r as [[] | e]; [| exact Hg].
  unfold bind, m_bind, getC, m_gets, modC, modG, m_modify, m_ret, m_throw.
  cbn [truthy typeof negb orb fst snd regTbl String.eqb Ascii.eqb Bool.eqb ToString].
  rewrite member_ready.
  destruct (truthy (cfg_type c) && _); cbn [fst snd glob s_boundChans set_timers];
    exact Hg.
Qed.

Lemma detach_listener_boundChans (g : globals) :
  s_boundChans (detach_listener g) = s_boundChans g.
Proof.
  unfold detach_listener.
  destruct (has_removeEventListener _); [by case_bool_decide |].
  destruct (has_detachEvent _); [by case_bool_decide | done].
Qed.

Lemma destroy_keeps_null_free (c : chan_id) (p : proc) :
  s_boundChans (glob p) !! "null" = None ->
  s_boundChans (glob (exec (in_chan c destroy) p)) !! "null" = None.
Proof.
  intros Hn. unfold exec, in_chan. destruct (chans p !! c) as [ch |]; [| exact Hn].
  unfold destroy, m_bind, getC, m_gets, liftG, s_removeBoundChan, modG, modC, m_modify.
  cbn [fst snd].
  destruct (s_boundChans (glob p) !! ToString (cfg_origin (cfg ch))) as [scopes |] eqn:Ho;
    [| exact Hn].
  destruct (scopes !! _) as [arr |]; cbn [fst snd glob]; [| exact Hn].
  rewrite detach_listener_boundChans. cbn [s_boundChans set_boundChans].
  rewrite lookup_insert_ne; [exact Hn |].
  intros Heq. rewrite Heq in Ho. congruence.
Qed.

(** ** Posting and queueing *)

Lemma posts_app (a b : list event) : posts (a ++ b) = (posts a ++ posts b)%list.
Proof. unfold posts. apply omap_app. Qed.

Lemma handler_runs_app (a b : list event) :
  handler_runs (a ++ b) = (handler_runs a ++ handler_runs b)%list.
Proof. unfold handler_runs. apply List.filter_app. Qed.

(** An observer call changes nothing but the trace, where it adds no post and
    no handler run, and it always returns. *)
Lemma observe_spec (obs : value) (args : list value) (g : globals) (c : chan) :
  exists tr,
    observe obs args (g, c) = ((set_trace (trace g ++ tr) g, c), Ok tt) /\
    posts tr = [] /\ handler_runs tr = [].
Proof.
  unfold observe. destruct obs; simpl;
    try (exists []; rewrite app_nil_r; by destruct g).
  exists [EvCall f args].
  unfold m_catch, m_bind, log, modG, getG, m_gets, m_modify, m_ret, m_throw. cbn [fst snd].
  change (thrown (set_trace _ g)) with (thrown g). by destruct (thrown g f args).
Qed.

(** On a ready channel a message is handed to the transport at once. *)
Lemma postMessage_ready (msg : value) (force : bool) (g : globals) (c : chan) (w : window) :
  ready c = true -> cfg_window (cfg c) = Some w -> truthy msg = true ->
  exists tr,
    postMessage msg force (g, c) = ((set_trace (trace g ++ tr) g, c), Ok tt) /\
    posts tr = [msg] /\ handler_runs tr = [].
Proof.
  intros Hr Hw Ht. unfold postMessage. rewrite Ht. simpl.
  unfold m_bind, getC, m_gets. simpl. rewrite Hr. simpl negb.
  rewrite andb_false_r. simpl. rewrite Hw.
  destruct (observe_spec (cfg_postMessageObserver (cfg c)) [cfg_origin (cfg c); msg] g c)
    as (tr & -> & Hp & Hh).
  exists (tr ++ [EvPost w msg (cfg_origin (cfg c))])%list. split.
  - unfold log, modG, m_modify. simpl. by rewrite app_assoc.
  - rewrite posts_app, handler_runs_app, Hp, Hh. done.
Qed.

(** On a channel that is not ready, an unforced message goes to the end of
    the queue and nothing is sent. *)
Lemma postMessage_queues (msg : value) (g : globals) (c : chan) :
  ready c = false -> truthy msg = true ->
  postMessage msg false (g, c)
  = ((g, set_pendingQueue (pendingQueue c ++ [msg]) c), Ok tt).
Proof.
  intros Hr Ht. unfold postMessage. rewrite Ht. simpl.
  unfold m_bind, getC, m_gets. simpl. by rewrite Hr.
Qed.

Lemma pop_snoc {A : Type} (q : list A) (x : A) : pop (q ++ [x]) = Some (x, q).
Proof. unfold pop. rewrite rev_app_distr. simpl. by rewrite rev_involutive. Qed.

(** The flush loop, given the queue's length as fuel, leaves by its own
    condition: the queue ends empty, and the messages have been posted from
    the last one queued to the first. *)
Lemma flush_spec (q : list value) :
  forall (g : globals) (c : chan) (w : window),
    ready c = true -> cfg_window (cfg c) = Some w -> pendingQueue c = q ->
    Forall (fun m => truthy m = true) q ->
    exists tr,
      flush (length q) (g, c)
      = ((set_trace (trace g ++ tr) g, set_pendingQueue [] c), Ok tt) /\
      posts tr = rev q /\ handler_runs tr = [].
Proof.
  induction q as [| x q IH] using rev_ind; intros g c w Hr Hw Hq Hall.
  - exists []. simpl. unfold m_ret. rewrite app_nil_r. destruct g, c; simpl in *.
    by subst.
  - rewrite length_app. simpl. rewrite Nat.add_1_r. simpl.
    unfold m_bind at 1. unfold getC at 1, m_gets at 1. simpl. rewrite Hq, pop_snoc.
    unfold m_bind at 1. unfold modC at 1, m_modify at 1. simpl.
    apply Forall_app in Hall as [Hall Hx]. apply Forall_inv in Hx.
    destruct (postMessage_ready x false g (set_pendingQueue q c) w Hr Hw Hx)
      as (tr1 & E1 & Hp1 & Hh1).
    unfold m_bind at 1. rewrite E1.
    destruct (IH (set_trace (trace g ++ tr1) g) (set_pendingQueue q c) w Hr Hw eq_refl Hall)
      as (tr2 & E2 & Hp2 & Hh2).
    rewrite E2. exists (tr1 ++ tr2)%list. split.
    + simpl. by rewrite app_assoc.
    + rewrite posts_app, handler_runs_app, Hp1, Hp2, Hh1, Hh2, rev_app_distr. done.
Qed.

Lemma post_all_queues (msgs : list value) :
  forall (g : globals) (c : chan),
    ready c = false -> Forall (fun m => truthy m = true) msgs ->
    post_all msgs (g, c) = ((g, set_pendingQueue (pendingQueue c ++ msgs) c), Ok tt).
Proof.
  induction msgs as [| x msgs IH]; intros g c Hr Hall; simpl.
  - unfold m_ret. by rewrite app_nil_r, chan_eta.
  - inversion Hall as [| ? ? Hx Hrest]; subst.
    rewrite (m_bind_ok _ _ _ _ _ (postMessage_queues x g c Hr Hx)).
    rewrite IH by done. simpl. by rewrite <- app_assoc.
Qed.

(** [onReady] on a channel that is not ready: it returns, the channel is
    ready with an empty queue, and what it posts is the [pong] (when asked by
    a [ping]) followed by the queue from its last message to its first. *)
Lemma onReady_spec (type : value) (g : globals) (c : chan) (w : window) :
  ready c = false -> cfg_window (cfg c) = Some w ->
  Forall (fun m => truthy m = true) (pendingQueue c) ->
  exists tr c',
    onReady type (g, c) = ((set_trace (trace g ++ tr) g, c'), Ok VUndefined) /\
    ready c' = true /\ pendingQueue c' = [] /\ handler_runs tr = [] /\
    posts tr = ((if strict_equals type (VStr "ping") then [pong c] else [])
                  ++ rev (pendingQueue c))%list.
Proof.
  intros Hr Hw Hall. unfold onReady.
  rewrite (m_bind_ok _ _ (g, c) (g, c) false) by (unfold getC, m_gets; simpl; by rewrite Hr).
  set (c1 := set_ready true
               (match member (regTbl c) "__ready" with
                | Nothing => c
                | _ => set_regTbl (delete "__ready" (regTbl c)) c
                end)).
  assert (Hc1r : ready c1 = true) by done.
  assert (Hc1w : cfg_window (cfg c1) = Some w).
  { unfold c1. by destruct (member (regTbl c) "__ready"). }
  assert (Hc1q : pendingQueue c1 = pendingQueue c).
  { unfold c1. by destruct (member (regTbl c) "__ready"). }
  assert (Hc1s : scoped_name c1 "__ready" = scoped_name c "__ready").
  { unfold c1, scoped_name. by destruct (member (regTbl c) "__ready"). }
  assert (E1 : (unbind (VStr "__ready") ;; modC (set_ready true)) (g, c) = ((g, c1), Ok tt)).
  { unfold unbind, m_bind, getC, m_gets, modC, m_modify, m_ret. simpl.
    unfold c1. by destruct (member (regTbl c) "__ready"). }
  clearbody c1.
  assert (E2 : exists tr1,
    (if strict_equals type (VStr "ping")
     then notify (Some {| a_method := VStr "__ready"; a_params := HStr "pong";
                          a_success := VUndefined; a_error := VUndefined;
                          a_timeout := VUndefined |})
     else m_ret tt) (g, c1) = ((set_trace (trace g ++ tr1) g, c1), Ok tt) /\
    handler_runs tr1 = [] /\
    posts tr1 = if strict_equals type (VStr "ping") then [pong c] else []).
  { destruct (strict_equals type (VStr "ping")).
    - destruct (postMessage_ready (pong c) false g c1 w Hc1r Hc1w eq_refl)
        as (tr1 & Ep & Hp & Hh).
      exists tr1. split; [| done].
      unfold notify. simpl. unfold scopeMethod, params_value.
      unfold m_bind, getC, getG, m_gets, m_ret. simpl. rewrite Hc1s. exact Ep.
    - exists []. unfold m_ret. rewrite app_nil_r. by destruct g. }
  destruct E2 as (tr1 & E2 & Hh1 & Hp1).
  set (g1 := set_trace (trace g ++ tr1) g) in *.
  destruct (flush_spec (pendingQueue c1) g1 c1 w Hc1r Hc1w eq_refl) as (tr2 & E3 & Hp2 & Hh2).
  { by rewrite Hc1q. }
  exists (tr1 ++ tr2 ++ match cfg_onReady (cfg c1) with
                        | VFun user => [EvReady user (self c1)]
                        | _ => []
                        end)%list, (set_pendingQueue [] c1).
  split; [| split; [done | split; [done | split]]].
  - unfold m_bind at 1. unfold m_bind at 1 in E1.
    destruct (unbind (VStr "__ready") (g, c)) as [s0 [b |e]]; [| discriminate].
    unfold m_bind at 1. rewrite E1. unfold m_bind at 1. rewrite E2.
    unfold m_bind at 1. unfold getC at 1, m_gets at 1. cbn [fst snd].
    unfold m_bind at 1. rewrite E3.
    unfold m_bind, getC, m_gets, log, modG, m_modify, m_ret. cbn [fst snd].
    simpl. destruct (cfg_onReady (cfg c1));
      unfold g1; simpl; rewrite ?app_nil_r, <- ?app_assoc; done.
  - rewrite !handler_runs_app, Hh1, Hh2. by destruct (cfg_onReady (cfg c1)).
  - rewrite !posts_app, Hp1, Hp2, Hc1q.
    destruct (cfg_onReady (cfg c1)); simpl; by rewrite app_nil_r.
Qed.

(** C5: messages handed to [postMessage] while the channel is not ready are
    queued; when the [__ready] notification arrives, the handshake completes
    and the flush posts every queued message exactly once, the most recently
    queued first (after the [pong] that answers a [ping]). *)
Theorem queued_messages_flushed_lifo
    (g : globals) (c : chan) (w : window) (msgs : list value) (origin m : value) :
  ready c = false -> pendingQueue c = [] -> cfg_window (cfg c) = Some w ->
  regTbl c !! "__ready" = Some HReady ->
  Forall (fun x => truthy x = true) msgs ->
  truthy (prop m "id") = false ->
  exists g' c',
    (post_all msgs ;; onMessage origin (VStr "__ready") m) (g, c) = ((g', c'), Ok tt) /\
    ready c' = true /\ pendingQueue c' = [] /\
    posts (trace g')
    = (posts (trace g)
       ++ (if strict_equals (prop m "params") (VStr "ping") then [pong c] else [])
       ++ rev msgs)%list /\
    rev msgs ≡ₚ msgs.
Proof.
  intros Hr Hq Hw Hreg Hall Hid.
  rewrite (m_bind_ok _ _ _ _ _ (post_all_queues msgs g c Hr Hall)).
  rewrite Hq. simpl app.
  set (cq := set_pendingQueue msgs c).
  destruct (observe_spec (cfg_gotMessageObserver (cfg cq)) [origin; m] g cq)
    as (tr0 & E0 & Hp0 & Hh0).
  destruct (onReady_spec (prop m "params") (set_trace (trace g ++ tr0) g) cq w Hr Hw Hall)
    as (tr & c' & E & Hr' & Hq' & Hh & Hp).
  exists (set_trace (trace (set_trace (trace g ++ tr0) g) ++ tr) (set_trace (trace g ++ tr0) g)), c'.
  split; [| split; [done | split; [done | split]]].
  - unfold onMessage, onMessage_kind.
    rewrite bind_getC. cbn [snd].
    rewrite (m_bind_ok _ _ _ _ _ E0).
    rewrite Hid. cbn [andb].
    change (truthy (VStr "__ready")) with true. cbv iota.
    change (ToString (VStr "__ready")) with "__ready".
    rewrite bind_getC. cbn [snd].
    change (regTbl cq) with (regTbl c). rewrite (member_own _ _ _ Hreg).
    unfold run_notification. rewrite (m_bind_ok _ _ _ _ _ E). done.
  - simpl. rewrite !posts_app, Hp0, Hp. simpl. by rewrite app_nil_r.
  - apply Permutation_sym, Permutation_rev.
Qed.

Lemma queued_messages_flushed_lifo_witness :
  exists g' c',
    (post_all [request 1 "a::x" VNull; request 2 "a::y" VNull] ;;
     onMessage (VStr "http://peer.example") (VStr "__ready") ping_msg)
      (glob page_built, built_chan) = ((g', c'), Ok tt) /\
    ready c' = true /\ pendingQueue c' = [] /\
    posts (trace g')
    = (posts (trace (glob page_built))
       ++ (if strict_equals (prop ping_msg "params") (VStr "ping")
           then [pong built_chan] else [])
       ++ rev [request 1 "a::x" VNull; request 2 "a::y" VNull])%list /\
    rev [request 1 "a::x" VNull; request 2 "a::y" VNull]
      ≡ₚ [request 1 "a::x" VNull; request 2 "a::y" VNull].
Proof.
  apply (queued_messages_flushed_lifo _ _ 1%nat).
  - reflexivity.
  - reflexivity.
  - reflexivity.
  - vm_compute. reflexivity.
  - repeat constructor.
  - reflexivity.
Defined.

Example page_built_chan : chans page_built !! 0%nat = Some built_chan.
Proof. vm_compute. reflexivity. Qed.

Example page_ready_posts :
  posts (trace (glob page_ready))
  = [VObj [("method", VStr "a::__ready"); ("params", VStr "pong")]].
Proof. vm_compute. reflexivity. Qed.

(** A truthy message given to an unforced [postMessage] is sent or queued;
    nothing else changes but the trace and the queue. *)
Lemma postMessage_spec (msg : value) (g : globals) (c : chan) (w : window) :
  cfg_window (cfg c) = Some w -> truthy msg = true ->
  exists tr c',
    postMessage msg false (g, c) = ((set_trace (trace g ++ tr) g, c'), Ok tt) /\
    sent_or_queued msg (g, c) (set_trace (trace g ++ tr) g, c') /\
    handler_runs tr = [] /\
    inTbl c' = inTbl c /\ outTbl c' = outTbl c /\ regTbl c' = regTbl c /\
    cfg c' = cfg c /\ ready c' = ready c /\ self c' = self c.
Proof.
  intros Hw Ht. unfold sent_or_queued. simpl. destruct (ready c) eqn:Hr.
  - destruct (postMessage_ready msg false g c w Hr Hw Ht) as (tr & E & Hp & Hh).
    exists tr, c. rewrite E, posts_app, Hp, Hr. done.
  - exists [], (set_pendingQueue (pendingQueue c ++ [msg]) c).
    rewrite (postMessage_queues msg g c Hr Ht), app_nil_r.
    replace (set_trace (trace g) g) with g by by destruct g. done.
Qed.

(** ** [complete] and [error] on an open and on a closed transaction *)

Lemma member_found {A : Type} (tbl : gmap string A) (k : string) (a : A) :
  tbl !! k = Some a -> member tbl k <> Nothing.
Proof. intros H. by rewrite (member_own _ _ _ H). Qed.

Lemma member_assign {A : Type} (tbl : gmap string A) (k : string) (a : A) :
  member (assign k a tbl) k <> Nothing.
Proof.
  unfold assign. destruct (String.eqb_spec k "__proto__") as [-> | Hne].
  - unfold member. by destruct (tbl !! "__proto__").
  - apply (member_found _ _ a), lookup_insert_eq.
Qed.

(** While [inTbl] has something for the id, be it inherited, [error] and
    [complete] go through. *)
Lemma trans_error_found (t : trans) (error message : value)
    (g : globals) (c : chan) (fl : tflags) (w : window) :
  member (inTbl c) (ToString (t_id t)) <> Nothing -> cfg_window (cfg c) = Some w ->
  exists tr c',
    trans_error t error message ((g, c), fl)
    = (((set_trace (trace g ++ tr) g, c'),
        {| shouldDelayReturn := shouldDelayReturn fl; completed := true |}), Ok tt) /\
    sent_or_queued (error_msg t error message) (g, c) (set_trace (trace g ++ tr) g, c') /\
    inTbl c' = delete (ToString (t_id t)) (inTbl c) /\
    handler_runs tr = [].
Proof.
  intros Hin Hw. unfold trans_error.
  set (c1 := set_inTbl (delete (ToString (t_id t)) (inTbl c)) c).
  destruct (postMessage_spec (error_msg t error message) g c1 w Hw eq_refl)
    as (tr & c' & E & Hs & Hh & Hi & _).
  exists tr, c'. split; [| split; [exact Hs | split; [by rewrite Hi | exact Hh]]].
  unfold m_bind, set_completed, m_modify, liftT, getC, m_gets, modC. simpl.
  destruct (member (inTbl c) (ToString (t_id t))); try done;
    simpl; fold c1; unfold error_msg in E; by rewrite E.
Qed.

Lemma trans_complete_found (t : trans) (v : value)
    (g : globals) (c : chan) (fl : tflags) (w : window) :
  member (inTbl c) (ToString (t_id t)) <> Nothing -> cfg_window (cfg c) = Some w ->
  exists tr c',
    trans_complete t v ((g, c), fl)
    = (((set_trace (trace g ++ tr) g, c'),
        {| shouldDelayReturn := shouldDelayReturn fl; completed := true |}), Ok tt) /\
    sent_or_queued (result_msg t v) (g, c) (set_trace (trace g ++ tr) g, c') /\
    inTbl c' = delete (ToString (t_id t)) (inTbl c) /\
    handler_runs tr = [].
Proof.
  intros Hin Hw. unfold trans_complete.
  set (c1 := set_inTbl (delete (ToString (t_id t)) (inTbl c)) c).
  destruct (postMessage_spec (result_msg t v) g c1 w Hw eq_refl)
    as (tr & c' & E & Hs & Hh & Hi & _).
  exists tr, c'. split; [| split; [exact Hs | split; [by rewrite Hi | exact Hh]]].
  unfold m_bind, set_completed, m_modify, liftT, getC, m_gets, modC. simpl.
  destruct (member (inTbl c) (ToString (t_id t))); try done;
    simpl; fold c1; unfold result_msg in E; by rewrite E.
Qed.

Lemma trans_error_open (t : trans) (error message : value)
    (g : globals) (c : chan) (fl : tflags) (w : window) :
  inTbl c !! ToString (t_id t) = Some tt -> cfg_window (cfg c) = Some w ->
  exists tr c',
    trans_error t error message ((g, c), fl)
    = (((set_trace (trace g ++ tr) g, c'),
        {| shouldDelayReturn := shouldDelayReturn fl; completed := true |}), Ok tt) /\
    sent_or_queued (error_msg t error message) (g, c) (set_trace (trace g ++ tr) g, c') /\
    inTbl c' = delete (ToString (t_id t)) (inTbl c) /\
    handler_runs tr = [].
Proof. intros Hin. apply trans_error_found. by apply (member_found _ _ tt). Qed.




(** ** The error sent for a handler that throws *)

Lemma stringify_message_text (e : value) :
  e <> VUndefined -> stringify_message e = Ok (text_of e).
Proof.
  intros H. unfold stringify_message, text_of.
  destruct (JSON_stringify e) eqn:Hj; [done |]. by destruct e.
Qed.

(** The [catch] block's normalisation, case by case.  It throws for [null]
    and [undefined] only. *)
Lemma normalize_exception_spec (e : value) :
  e <> VNull -> e <> VUndefined ->
  exists code message,
    normalize_exception e = Ok (code, message) /\
    (forall s, e = VStr s -> code = VStr "runtime_error" /\ message = VStr s) /\
    (forall a b, e = VArr [a; b] ->
       code = a /\ (b <> VNull -> message = b) /\ (b = VNull -> message = text_of e)) /\
    (forall props c, e = VObj props -> prop e "error" = VStr c ->
       code = VStr c /\
       (truthy (prop e "message") = false -> message = VStr "") /\
       (forall s, prop e "message" = VStr s -> s <> "" -> message = VStr s) /\
       (truthy (prop e "message") = true -> typeof (prop e "message") <> "string" ->
        message = text_of (prop e "message"))) /\
    (typeof e <> "string" -> (forall a b, e <> VArr [a; b]) ->
     (forall c, prop e "error" <> VStr c) ->
     code = VStr "runtime_error" /\ message = text_of e).
Proof.
  intros Hnull Hundef. unfold normalize_exception.
  destruct e as [| | b | n | s | elems | props | f | name msg]; try done.
  - (* boolean *)
    eexists _, _. split; [reflexivity |]. repeat split; try done.
  - (* number *)
    eexists _, _. split; [reflexivity |]. repeat split; try done.
  - (* string *)
    exists (VStr "runtime_error"), (VStr s). split; [reflexivity |].
    repeat split; try done; try (intros; congruence).
    all: intros; simplify_eq; done.
  - (* array *)
    destruct elems as [| a [| b [| x elems]]].
    + eexists _, _. split; [reflexivity |]. repeat split; try done.
    + eexists _, _. split; [reflexivity |]. repeat split; try done.
    + destruct b; (eexists _, _; split; [reflexivity |]);
        repeat split; try done; intros; simplify_eq; try done.
      all: try match goal with
               | H : forall a b, _ <> VArr [a; b] |- _ => exfalso; eapply H; reflexivity
               end.
    + eexists _, _. split; [reflexivity |]. repeat split; try done.
  - (* object *)
    assert (Hcc : catch_classify (VObj props) =
      match prop (VObj props) "error" with
      | VStr code =>
          if negb (truthy (prop (VObj props) "message")) then Ok (VStr code, VStr "", VObj props)
          else if String.eqb (typeof (prop (VObj props) "message")) "string"
               then Ok (VStr code, prop (VObj props) "message", VObj props)
               else Ok (VStr code, VNull, prop (VObj props) "message")
      | _ => Ok (VStr "runtime_error", VNull, VObj props)
      end) by reflexivity.
    rewrite Hcc. clear Hcc.
    generalize (prop (VObj props) "error") (prop (VObj props) "message"). intros er ms.
    destruct er as [| | | | c | | | |].
    5: {
      destruct (truthy ms) eqn:Htm; simpl.
      - destruct (String.eqb (typeof ms) "string") eqn:Hty.
        + destruct ms; try done.
          eexists _, _. split; [reflexivity |].
          repeat split; try done; intros; simplify_eq; try done.
          all: match goal with
               | H : forall c0, VStr _ <> VStr c0 |- _ => exfalso; eapply H; reflexivity
               end.
        + rewrite stringify_message_text by (intros Hx; rewrite Hx in Htm; done).
          assert (strict_equals VNull VNull = true) as -> by done.
          eexists _, _. split; [reflexivity |].
          repeat split; try done; intros; simplify_eq; try done.
          all: match goal with
               | H : forall c0, VStr _ <> VStr c0 |- _ => exfalso; eapply H; reflexivity
               end.
      - eexists _, _. split; [reflexivity |].
        repeat split; try done; intros; simplify_eq; try done.
        + simpl in Htm. apply negb_false_iff in Htm.
          apply String.eqb_eq in Htm. done.
        + match goal with
          | H : forall c0, VStr _ <> VStr c0 |- _ => exfalso; eapply H; reflexivity
          end.
        + match goal with
          | H : forall c0, VStr _ <> VStr c0 |- _ => exfalso; eapply H; reflexivity
          end. }
    all: cbv beta iota; change (strict_equals VNull VNull) with true; cbv iota;
      rewrite stringify_message_text by done;
      eexists _, _; (split; [reflexivity |]);
      repeat split; try done; intros; simplify_eq; done.
  - (* function *)
    eexists _, _. split; [reflexivity |]. repeat split; try done.
  - (* error instance *)
    eexists _, _. split; [reflexivity |]. repeat split; try done.
Qed.

Lemma install_callbacks_none (m : value) :
  (forall i cbs, prop m "callbacks" <> VArr (i :: cbs)) ->
  install_callbacks m = Ok (prop m "params").
Proof.
  intros H. unfold install_callbacks.
  destruct (prop m "callbacks") as [| | | | | [| i cbs] | | |]; try done.
  by destruct (H i cbs).
Qed.

Lemma at_handler_call_spec (origin m : value) (g : globals) (c : chan) :
  exists tr,
    at_handler_call origin m (g, c)
    = (set_trace (trace g ++ tr) g,
       set_inTbl (assign (ToString (prop m "id")) tt (inTbl c)) c) /\
    posts tr = [] /\ handler_runs tr = [].
Proof.
  destruct (observe_spec (cfg_gotMessageObserver (cfg c)) [origin; m] g c)
    as (tr & E & Hp & Hh).
  exists tr. split; [| done].
  unfold at_handler_call, exec. cbn [snd]. by rewrite (m_bind_ok _ _ _ _ _ E).
Qed.

(** [onMessage] on a request whose method has a handler, up to the [try]. *)
Lemma onMessage_request (origin m : value) (method : string) (h : method_handler) (s : st) :
  truthy (prop m "id") = true -> truthy (VStr method) = true ->
  regTbl (snd s) !! method = Some h ->
  onMessage origin (VStr method) m s
  = with_flags (snd (request_trans origin m))
      (m_catch
         (let* params := m_lift (install_callbacks m) in
          let* resp := run_handler h method (fst (request_trans origin m)) params in
          let* delayed := trans_delayReturn VUndefined in
          let* done := trans_completed in
          if negb delayed && negb done
          then trans_complete (fst (request_trans origin m)) resp else m_ret tt)
         (fun e =>
            let* em := m_lift (normalize_exception e) in
            trans_error (fst (request_trans origin m)) (fst em) (snd em)))
      (at_handler_call origin m s).
Proof.
  intros Hid Hm Hreg. destruct s as [g c]. unfold onMessage, onMessage_kind.
  rewrite bind_getC. cbn [snd].
  destruct (observe_spec (cfg_gotMessageObserver (cfg c)) [origin; m] g c)
    as (tr0 & E0 & _).
  unfold at_handler_call, exec. cbn [snd].
  do 2 rewrite (m_bind_ok _ _ _ _ _ E0).
  rewrite Hid, Hm. cbn [andb]. rewrite bind_getC. cbn [snd].
  change (ToString (VStr method)) with method. simpl in Hreg.
  rewrite (member_own _ _ _ Hreg).
  unfold request_trans, createTransaction. cbn [fst snd].
  rewrite bind_modC. reflexivity.
Qed.

(** C6 (amended): when the bound handler of a request throws [e], other than
    [null] or [undefined], while the transaction is open, the channel sends
    (or queues, if it is not ready) the error message whose code and message
    follow this precedence: a string gives [runtime_error] and the string; a
    two-element array gives its first element and its second, except that a
    [null] second element gives the best-effort text of the whole array; an
    object with a string [error] gives that code and its [message] (the empty
    string when falsy, its best-effort text when not a string); anything else
    gives [runtime_error] and the best-effort text of [e]. *)
Theorem handler_exception_normalized
    (s s2 : st) (fl2 : tflags) (w : window) (origin m e : value) (method : string)
    (h : value -> value -> script) :
  truthy (prop m "id") = true -> truthy (VStr method) = true ->
  regTbl (snd s) !! method = Some (HUser h) ->
  (forall i cbs, prop m "callbacks" <> VArr (i :: cbs)) ->
  run_handler (HUser h) method (fst (request_trans origin m)) (prop m "params")
    (at_handler_call origin m s, snd (request_trans origin m)) = ((s2, fl2), Throw e) ->
  inTbl (snd s2) !! ToString (prop m "id") = Some tt ->
  cfg_window (cfg (snd s2)) = Some w ->
  e <> VNull -> e <> VUndefined ->
  exists code message s',
    onMessage origin (VStr method) m s = (s', Ok tt) /\
    sent_or_queued (VObj [("id", prop m "id"); ("error", code); ("message", message)]) s2 s' /\
    inTbl (snd s') !! ToString (prop m "id") = None /\
    (forall str, e = VStr str -> code = VStr "runtime_error" /\ message = VStr str) /\
    (forall a b, e = VArr [a; b] ->
       code = a /\ (b <> VNull -> message = b) /\ (b = VNull -> message = text_of e)) /\
    (forall props c, e = VObj props -> prop e "error" = VStr c ->
       code = VStr c /\
       (truthy (prop e "message") = false -> message = VStr "") /\
       (forall str, prop e "message" = VStr str -> str <> "" -> message = VStr str) /\
       (truthy (prop e "message") = true -> typeof (prop e "message") <> "string" ->
        message = text_of (prop e "message"))) /\
    (typeof e <> "string" -> (forall a b, e <> VArr [a; b]) ->
     (forall c, prop e "error" <> VStr c) ->
     code = VStr "runtime_error" /\ message = text_of e).
Proof.
  intros Hid Hm Hreg Hcb Hrun Hopen Hw Hnull Hundef.
  destruct (normalize_exception_spec e Hnull Hundef) as (code & message & Hn & Hcases).
  destruct s2 as [g2 c2].
  destruct (trans_error_open (fst (request_trans origin m)) code message g2 c2 fl2 w Hopen Hw)
    as (tr & c' & E & Hs & Hi & _).
  exists code, message, (set_trace (trace g2 ++ tr) g2, c').
  split; [| split; [exact Hs | split; [| exact Hcases]]].
  - rewrite (onMessage_request origin m method (HUser h) s Hid Hm Hreg).
    unfold with_flags, m_catch.
    rewrite (m_bind_ok _ _ _ _ (prop m "params"))
      by (unfold m_lift; by rewrite (install_callbacks_none m Hcb)).
    rewrite (m_bind_throw _ _ _ _ _ Hrun).
    unfold m_bind at 1, m_lift at 1. rewrite Hn. cbn [fst snd].
    unfold st in *. by rewrite E.
  - cbn [snd]. rewrite Hi. apply lookup_delete_eq.
Qed.

Lemma handler_exception_normalized_witness :
  let e := VArr [VStr "bad_input"; VStr "explain"] in
  let s := (glob (page_throwing e), chan_of (page_throwing e) 0%nat) in
  let m := request 7 "a::m" VNull in
  exists code message s',
    onMessage (VStr "http://peer.example") (VStr "m") m s = (s', Ok tt) /\
    sent_or_queued (VObj [("id", prop m "id"); ("error", code); ("message", message)])
      (throwing_call e) s' /\
    inTbl (snd s') !! ToString (prop m "id") = None /\
    (forall str, e = VStr str -> code = VStr "runtime_error" /\ message = VStr str) /\
    (forall a b, e = VArr [a; b] ->
       code = a /\ (b <> VNull -> message = b) /\ (b = VNull -> message = text_of e)) /\
    (forall props c, e = VObj props -> prop e "error" = VStr c ->
       code = VStr c /\
       (truthy (prop e "message") = false -> message = VStr "") /\
       (forall str, prop e "message" = VStr str -> str <> "" -> message = VStr str) /\
       (truthy (prop e "message") = true -> typeof (prop e "message") <> "string" ->
        message = text_of (prop e "message"))) /\
    (typeof e <> "string" -> (forall a b, e <> VArr [a; b]) ->
     (forall c, prop e "error" <> VStr c) ->
     code = VStr "runtime_error" /\ message = text_of e).
Proof.
  intros e s m.
  apply (handler_exception_normalized s (throwing_call e)
           {| shouldDelayReturn := false; completed := false |} 1%nat
           (VStr "http://peer.example") m e "m" (raises e)).
  - reflexivity.
  - reflexivity.
  - vm_compute. reflexivity.
  - intros i cbs. discriminate.
  - vm_compute. reflexivity.
  - vm_compute. reflexivity.
  - vm_compute. reflexivity.
  - discriminate.
  - discriminate.
Defined.

(** C6 (as stated): a handler throws the two-element array of [bad_input] and
    [null].  The claim gives the message as the second element, [null]; the
    error the code posts carries the JSON text of the whole array. *)
Lemma null_message_is_replaced_by_text :
  let p := exec (deliver (peer_event (request 7 "a::m" VNull)))
             (page_throwing (VArr [VStr "bad_input"; VNull])) in
  exists text,
    posts (trace (glob p))
    = [VObj [("method", VStr "a::__ready"); ("params", VStr "pong")];
       VObj [("id", VNum 7); ("error", VStr "bad_input"); ("message", VStr text)]] /\
    JSON_stringify (VArr [VStr "bad_input"; VNull]) = Some text /\
    VStr text <> VNull.
Proof. eexists. split; [vm_compute; reflexivity | split; [vm_compute; reflexivity | discriminate]]. Qed.

(** The example of the specification: the pair of [bad_input] and [explain]
    is sent as that code and that message. *)
Example bad_input_explain :
  posts (trace (glob (exec (deliver (peer_event (request 7 "a::m" VNull)))
                        (page_throwing (VArr [VStr "bad_input"; VStr "explain"])))))
  = [VObj [("method", VStr "a::__ready"); ("params", VStr "pong")];
     VObj [("id", VNum 7); ("error", VStr "bad_input"); ("message", VStr "explain")]].
Proof. vm_compute. reflexivity. Qed.

(** A handler that throws [null] gets no error sent at all: the [catch]
    block itself throws, and the exception leaves [s_onMessage]. *)
Example thrown_null_escapes :
  let r := deliver (peer_event (request 7 "a::m" VNull)) (page_throwing VNull) in
  snd r = Throw (TypeError "Cannot read properties of null (reading 'error')") /\
  posts (trace (glob (fst r)))
  = [VObj [("method", VStr "a::__ready"); ("params", VStr "pong")]].
Proof. split; vm_compute; reflexivity. Qed.

(** ** What keeps an id out of [inTbl] *)

Section Preservation.
Context {S : Type} (P : S -> Prop).

Lemma preserves_ret {A : Type} (a : A) : preserves P (m_ret a).
Proof. by intros s. Qed.

Lemma preserves_throw {A : Type} (e : value) : preserves P (@m_throw S A e).
Proof. by intros s. Qed.

Lemma preserves_lift {A : Type} (o : outcome A) : preserves P (m_lift o).
Proof. by intros s. Qed.

Lemma preserves_gets {A : Type} (f : S -> A) : preserves P (m_gets f).
Proof. by intros s. Qed.

Lemma preserves_modify (f : S -> S) :
  (forall s, P s -> P (f s)) -> preserves P (m_modify f).
Proof. intros H s. apply H. Qed.

Lemma preserves_bind {A B : Type} (c : M S A) (k : A -> M S B) :
  preserves P c -> (forall a, preserves P (k a)) -> preserves P (m_bind c k).
Proof.
  intros Hc Hk s Hs. unfold m_bind. specialize (Hc s Hs).
  destruct (c s) as [s' [a | e]]; simpl in *; [by apply Hk | done].
Qed.

Lemma preserves_catch {A : Type} (c : M S A) (h : value -> M S A) :
  preserves P c -> (forall e, preserves P (h e)) -> preserves P (m_catch c h).
Proof.
  intros Hc Hh s Hs. unfold m_catch. specialize (Hc s Hs).
  destruct (c s) as [s' [a | e]]; simpl in *; [done | by apply Hh].
Qed.
End Preservation.

Lemma preserves_liftT {A : Type} (P : st -> Prop) (c : M st A) :
  preserves P c -> preserves (fun s : tst => P (fst s)) (liftT c).
Proof.
  intros Hc [s fl] Hs. unfold liftT. simpl in *. specialize (Hc s Hs).
  by destruct (c s).
Qed.

Lemma preserves_with_flags {A : Type} (P : st -> Prop) (fl : tflags) (c : M tst A) :
  preserves (fun s : tst => P (fst s)) c -> preserves P (with_flags fl c).
Proof.
  intros Hc s Hs. unfold with_flags. specialize (Hc (s, fl) Hs).
  by destruct (c (s, fl)) as [[s' fl'] r].
Qed.

Lemma preserves_liftG {A : Type} (Q : chan -> Prop) (c : M globals A) :
  preserves (fun s : st => Q (snd s)) (liftG c).
Proof. intros [g ch] Hs. unfold liftG. simpl in *. by destruct (c g). Qed.

Ltac pres_step :=
  match goal with
  | |- preserves _ (m_bind _ _) => apply preserves_bind; [| intros ?]
  | |- preserves _ (m_ret _) => apply preserves_ret
  | |- preserves _ (m_throw _) => apply preserves_throw
  | |- preserves _ (m_lift _) => apply preserves_lift
  | |- preserves _ (m_gets _) => apply preserves_gets
  | |- preserves _ (getC _) => apply preserves_gets
  | |- preserves _ (getG _) => apply preserves_gets
  | |- preserves _ (m_catch _ _) => apply preserves_catch; [| intros ?]
  | |- preserves _ (liftT _) => apply preserves_liftT
  | |- preserves _ (with_flags _ _) => apply preserves_with_flags
  | |- preserves _ (liftG _) => apply (preserves_liftG (fun c => inTbl c !! _ = None))
  | |- preserves _ (modG _) => apply preserves_modify; intros [? ?] ?; assumption
  | |- preserves _ (log _) => apply preserves_modify; intros [? ?] ?; assumption
  | |- preserves _ (if ?b then _ else _) => destruct b
  | |- preserves _ (match ?x with _ => _ end) => destruct x
  | |- preserves _ (let (_, _) := ?x in _) => destruct x
  end.

Ltac pres := repeat pres_step.

Section Absent.
Variable k : string.












End Absent.

Section AbsentTransactions.
Variable k : string.


















End AbsentTransactions.





(** On an id that is an inherited name, [inTbl] is never found empty: a
    [complete] or an [error] returns and sends its message, whatever the
    table holds. *)
Lemma finish_with_inherited (t : trans) (f : finisher) (s : st) (fl : tflags) (w : window) :
  inherited (ToString (t_id t)) = true -> cfg_window (cfg (snd s)) = Some w ->
  exists s1,
    finish_with t f (s, fl)
    = ((s1, {| shouldDelayReturn := shouldDelayReturn fl; completed := true |}), Ok tt) /\
    sent_or_queued (finish_msg t f) s s1.
Proof.
  destruct s as [g c]. intros Hk Hw.
  assert (Hm : member (inTbl c) (ToString (t_id t)) <> Nothing).
  { unfold member. rewrite Hk. by destruct (inTbl c !! _). }
  destruct f as [v | error message]; simpl.
  - destruct (trans_complete_found t v g c fl w Hm Hw) as (tr & c' & E & Hs & _).
    eexists. split; [exact E | done].
  - destruct (trans_error_found t error message g c fl w Hm Hw) as (tr & c' & E & Hs & _).
    eexists. split; [exact E | done].
Qed.




(** A request whose id is the string [constructor]: after the first
    [complete] has taken the id out of [inTbl], the test [inTbl[id]] still
    finds the [constructor] that the table inherits, and a second
    [complete] returns and sends a second result, with no request in
    between. *)
Example inherited_id_completes_twice :
  let done := {| shouldDelayReturn := true; completed := true |} in
  let p1 := exec (later_complete 0%nat trans_named kept_flags (VNum 1)) page_delayed_named in
  let p2 := exec (later_complete 0%nat trans_named done (VNum 2)) p1 in
  snd (later_complete 0%nat trans_named kept_flags (VNum 1) page_delayed_named) = Ok tt /\
  inTbl (chan_of p1 0%nat) !! "constructor" = None /\
  snd (later_complete 0%nat trans_named done (VNum 2) p1) = Ok tt /\
  posts (trace (glob p2))
  = [VObj [("method", VStr "a::__ready"); ("params", VStr "pong")];
     VObj [("id", VStr "constructor"); ("result", VNum 1)];
     VObj [("id", VStr "constructor"); ("result", VNum 2)]].
Proof. repeat split; vm_compute; reflexivity. Qed.

(** Without the second request, the second call fails, as the specification
    asks of a double [complete]. *)
Example complete_twice_fails :
  let p1 := exec (later_complete 0%nat trans5 kept_flags (VNum 1)) page_delayed in
  snd (later_complete 0%nat trans5 kept_flags (VNum 2) p1)
  = Throw (Error "complete called for nonexistent message: 5") /\
  posts (trace (glob p1))
  = [VObj [("method", VStr "a::__ready"); ("params", VStr "pong")];
     VObj [("id", VNum 5); ("result", VNum 1)]].
Proof. split; vm_compute; reflexivity. Qed.

(** ** Requests that declare callbacks *)

Lemma split_go_nonempty (sep s : string) :
  forall skip cur, split_go sep s skip cur <> [].
Proof.
  induction s as [| ch s IH]; intros skip cur; [done |].
  cbn [split_go]. destruct skip; [| apply IH].
  destruct (String.prefix sep (String ch s)); [intros H; discriminate H | apply IH].
Qed.

(** The stub installation throws on the first path item of the first
    callback: [findIndex] is given a string where it wants a function. *)
Lemma install_callbacks_throws (m i : value) (cbs : list value) :
  prop m "callbacks" = VArr (i :: cbs) ->
  exists msg, install_callbacks m = Throw (TypeError msg).
Proof.
  intros H. unfold install_callbacks. rewrite H. simpl.
  destruct i; simpl; try (eexists; reflexivity).
  unfold split. destruct (split_go "/" s 0 "") as [| j js] eqn:Hs.
  - by apply split_go_nonempty in Hs.
  - simpl. eexists. reflexivity.
Qed.

(** So a request with a non-empty [callbacks] array never reaches the bound
    handler: the channel answers it with a [runtime_error] itself. *)
Lemma callbacks_block_handler (s : st) (w : window) (origin m i : value)
    (cbs : list value) (method : string) (h : method_handler) :
  truthy (prop m "id") = true -> truthy (VStr method) = true ->
  regTbl (snd s) !! method = Some h ->
  cfg_window (cfg (snd s)) = Some w ->
  prop m "callbacks" = VArr (i :: cbs) ->
  exists s',
    onMessage origin (VStr method) m s = (s', Ok tt) /\
    handler_runs (trace (fst s')) = handler_runs (trace (fst s)) /\
    sent_or_queued
      (VObj [("id", prop m "id"); ("error", VStr "runtime_error"); ("message", VStr "{}")])
      (at_handler_call origin m s) s'.
Proof.
  intros Hid Hm Hreg Hw Hcb. destruct s as [g c].
  destruct (install_callbacks_throws m i cbs Hcb) as (msg & Hthrow).
  destruct (at_handler_call_spec origin m g c) as (tr0 & Eat & _ & Hh0).
  set (c1 := set_inTbl (assign (ToString (prop m "id")) tt (inTbl c)) c) in *.
  set (g1 := set_trace (trace g ++ tr0) g) in *.
  destruct (trans_error_found (fst (request_trans origin m)) (VStr "runtime_error") (VStr "{}")
              g1 c1 (snd (request_trans origin m)) w) as (tr & c' & E & Hs & _ & Hh).
  { apply member_assign. }
  { exact Hw. }
  exists (set_trace (trace g1 ++ tr) g1, c'). split; [| split].
  - rewrite (onMessage_request origin m method h (g, c) Hid Hm Hreg).
    rewrite Eat. unfold with_flags, m_catch.
    rewrite (m_bind_throw _ _ _ (g1, c1, snd (request_trans origin m)) (TypeError msg))
      by (unfold m_lift; by rewrite Hthrow).
    unfold m_bind at 1, m_lift at 1. cbn [normalize_exception catch_classify TypeError
      typeof String.eqb Ascii.eqb Bool.eqb prop strict_equals stringify_message
      JSON_stringify fst snd].
    unfold st in *. by rewrite E.
  - simpl. rewrite !handler_runs_app, Hh0, Hh. by rewrite !app_nil_r.
  - rewrite Eat. exact Hs.
Qed.

(** C1: the claim fails on the code.  A caller passes the function 7 at
    [params.onProgress]: the function is taken out of the params and the
    request declares the callback [onProgress].  On the receiving page the
    stub installation throws before the bound handler is called, so the
    handler never runs, no stub is ever handed to it, and the channel
    answers with a [runtime_error] of its own; back at the caller only the
    [error] function 2 is invoked, never the function 7.  The same request
    without the [callbacks] member does reach the handler. *)
Theorem callback_request_never_reaches_handler :
  posts (trace (glob caller_called))
  = [VObj [("method", VStr "a::__ready"); ("params", VStr "pong")]; progress_request] /\
  handler_runs (trace (glob callee_after)) = [] /\
  posts (trace (glob callee_after))
  = [VObj [("method", VStr "a::__ready"); ("params", VStr "pong")]; progress_error] /\
  trace (glob caller_after)
  = (trace (glob caller_called)
     ++ [EvCall (FUser 2) [VStr "runtime_error"; VStr "{}"]])%list /\
  handler_runs
    (trace (glob (exec (deliver (peer_event
                                   (request 500000 "a::m" (VObj [("total", VNum 3)]))))
                    callee_page)))
  = [EvHandler 0%nat "m" (VObj [("total", VNum 3)])].
Proof. repeat split; vm_compute; reflexivity. Qed.

(** ** [destroy] and the process-wide tables *)

(** [destroy] never writes [s_transIds] ... *)
Lemma destroy_keeps_transIds (s : st) :
  s_transIds (fst (fst (destroy s))) = s_transIds (fst s).
Proof.
  destruct s as [g c]. unfold destroy, m_bind, getC, m_gets, liftG, modG, modC, m_modify.
  cbn [fst snd]. unfold s_removeBoundChan.
  destruct (s_boundChans g !! _) as [scopes |]; [| done].
  destruct (scopes !! _) as [arr |]; [| done]. cbn [fst snd].
  unfold detach_listener. cbn [env set_boundChans listener].
  destruct (has_removeEventListener _); [by case_bool_decide |].
  destruct (has_detachEvent _); [by case_bool_decide | done].
Qed.

(** Posting changes the trace and the queue only. *)
Lemma postMessage_keeps_transIds (msg : value) (force : bool) (s : st) :
  s_transIds (fst (fst (postMessage msg force s))) = s_transIds (fst s).
Proof.
  destruct s as [g c]. unfold postMessage. destruct (negb (truthy msg)); [done |].
  mstep. destruct (negb force && negb (ready c)); [done |].
  do 3 mstep.
  destruct (observe_spec (cfg_postMessageObserver (cfg c)) [cfg_origin (cfg c); msg] g c)
    as (tr & E & _).
  rewrite (m_bind_ok _ _ _ _ _ E). by destruct (cfg_window (cfg c)).
Qed.

(** ... and a [call] that returns has entered its id there. *)
Lemma call_enters_transId (m : option call_args) (s s' : st) :
  call m s = (s', Ok tt) ->
  s_transIds (fst s') !! pretty (s_curTranId (fst s)) = Some (self (snd s)).
Proof.
  destruct s as [g c]. unfold call. destruct m as [m |]; [| discriminate].
  destruct (_ || _); [discriminate |]. destruct (_ || _); [discriminate |].
  mstep.
  destruct (pruneFunctions _ _ _ _) as [ps | e ps |]; try discriminate.
  do 2 mstep. unfold scopeMethod. do 2 mstep.
  assert (Hend : forall (g1 : globals) (c1 : chan) msg,
    s_transIds g1 !! pretty (s_curTranId g) = Some (self c) ->
    s_transIds (fst (fst ((let* p := params_value (a_params m) in
                           postMessage (msg p) false) (g1, c1))))
      !! pretty (s_curTranId g) = Some (self c)).
  { intros g1 c1 msg H1. unfold params_value. unfold m_bind at 1. mstep.
    destruct (to_value _ _ _) as [v |]; [| exact H1].
    unfold m_ret. by rewrite postMessage_keeps_transIds. }
  destruct (truthy (a_timeout m)).
  - do 4 mstep. intros H.
    match type of H with
    | ?r = _ => replace s' with (fst r) by (by rewrite H)
    end.
    apply Hend. simpl. apply lookup_insert_eq.
  - unfold m_bind at 1, m_ret at 1. do 3 mstep. intros H.
    match type of H with
    | ?r = _ => replace s' with (fst r) by (by rewrite H)
    end.
    apply Hend. simpl. apply lookup_insert_eq.
Qed.

(** Whatever the state, a call followed by a destroy leaves the id of the
    call in the transaction router. *)
Lemma call_then_destroy_leaves_id (m : option call_args) (s s1 s2 : st) :
  call m s = (s1, Ok tt) -> destroy s1 = (s2, Ok tt) ->
  s_transIds (fst s2) !! pretty (s_curTranId (fst s)) = Some (self (snd s)).
Proof.
  intros Hc Hd. pose proof (destroy_keeps_transIds s1) as Hk. rewrite Hd in Hk.
  simpl in Hk. rewrite Hk. by apply (call_enters_transId m s s1).
Qed.

(** C3: the claim fails on the code.  [destroy] empties the channel's own
    [outTbl] but never deletes from [s_transIds] (the response and timeout
    paths delete from both): after a call and a destroy the id 500000 of the
    call is still routed to the dead channel.  A response carrying that id,
    handed to [s_onMessage], does reach the channel's [onMessage], which
    finds nothing in [outTbl] and ignores it without throwing; the entry
    stays for good. *)
Theorem destroy_leaves_transaction_id :
  s_transIds (glob caller_called) !! "500000" = Some 0%nat /\
  snd (in_chan 0%nat destroy caller_called) = Ok tt /\
  s_transIds (glob call_destroyed) !! "500000" = Some 0%nat /\
  outTbl (chan_of call_destroyed 0%nat) !! "500000" = None /\
  snd (s_onMessage (peer_event late_response) call_destroyed) = Ok tt /\
  trace (glob (exec (s_onMessage (peer_event late_response)) call_destroyed))
  = trace (glob call_destroyed) /\
  s_transIds (glob (exec (s_onMessage (peer_event late_response)) call_destroyed))
    !! "500000" = Some 0%nat.
Proof. repeat split; vm_compute; reflexivity. Qed.

(** Where the window has [removeEventListener] and the listener was attached
    with [addEventListener], a destroy that returns has detached it, whatever
    else is bound. *)
Lemma destroy_detaches (s s' : st) :
  has_removeEventListener (env (fst s)) = true ->
  listener (fst s) = ByAddEventListener ->
  destroy s = (s', Ok tt) ->
  listener (fst s') = Detached.
Proof.
  destruct s as [g c]. intros Henv Hl.
  unfold destroy, m_bind, getC, m_gets, liftG, modG, modC, m_modify. cbn [fst snd].
  unfold s_removeBoundChan.
  destruct (s_boundChans g !! _) as [scopes |]; [| discriminate].
  destruct (scopes !! _) as [arr |]; [| discriminate]. cbn [fst snd].
  intros [= <-]. cbn [fst]. unfold detach_listener. cbn [env set_boundChans listener].
  simpl in Henv, Hl. rewrite Henv, Hl. by case_bool_decide.
Qed.

(** A message that arrives while the listener is detached changes nothing. *)
Lemma deliver_detached (e : message_event) (p : proc) :
  listener (glob p) = Detached -> deliver e p = (p, Ok tt).
Proof. intros H. unfold deliver. by rewrite H. Qed.

(** C4: the claim fails on the code.  [destroy] removes the process-wide
    listener unconditionally.  On a page with a channel to window 1 and a
    channel to window 2, a request from window 2 runs the second channel's
    handler; once the first channel is destroyed the second is still
    registered, but the listener is gone, and the same request changes
    nothing: no handler runs. *)
Theorem destroy_detaches_listener_of_live_channels :
  handler_runs (trace (glob (exec (deliver (from_window2 (request 9 "b::m" (VNum 1))))
                               two_channels)))
  = [EvHandler 1%nat "m" (VNum 1)] /\
  snd (in_chan 0%nat destroy two_channels) = Ok tt /\
  bucket (s_boundChans (glob first_destroyed)) "*" "b"
  = Some [ {| win := 2%nat; handler := 1%nat |} ] /\
  listener (glob first_destroyed) = Detached /\
  deliver (from_window2 (request 9 "b::m" (VNum 1))) first_destroyed
  = (first_destroyed, Ok tt).
Proof.
  split; [vm_compute; reflexivity |].
  split; [vm_compute; reflexivity |].
  split; [vm_compute; reflexivity |].
  split; [vm_compute; reflexivity |].
  apply deliver_detached. vm_compute. reflexivity.
Qed.

(** ** [pruneFunctions] and the caller's heap *)

Lemma assoc_remove_key_eq {A : Type} (k : string) (l : list (string * A)) :
  assoc k (remove_key k l) = None.
Proof.
  induction l as [| [k' v] l IH]; simpl; [done |].
  destruct (String.eqb_spec k k') as [-> | Hne]; [done |].
  simpl. destruct (String.eqb_spec k k'); [done | exact IH].
Qed.

Lemma assoc_remove_key_ne {A : Type} (k k' : string) (l : list (string * A)) :
  k <> k' -> assoc k' (remove_key k l) = assoc k' l.
Proof.
  intros Hne. induction l as [| [k0 v] l IH]; simpl; [done |].
  destruct (String.eqb_spec k k0) as [-> | Hk].
  - destruct (String.eqb_spec k' k0) as [-> | Hk']; [done | exact IH].
  - simpl. by rewrite IH.
Qed.

Lemma own_prop_delete_eq (h : gmap loc hobj) (l : loc) (k : string) :
  own_prop (delete_prop h l k) l k = None.
Proof.
  unfold own_prop, delete_prop. destruct (h !! l) as [o |] eqn:Hl.
  - rewrite lookup_insert_eq. simpl. apply assoc_remove_key_eq.
  - by rewrite Hl.
Qed.

Lemma own_prop_delete_ne (h : gmap loc hobj) (l l' : loc) (k k' : string) :
  l <> l' \/ k <> k' ->
  own_prop (delete_prop h l k) l' k' = own_prop h l' k'.
Proof.
  intros Hne. unfold own_prop, delete_prop. destruct (h !! l) as [o |] eqn:Hl; [| done].
  destruct (decide (l = l')) as [<- | Hl'].
  - rewrite lookup_insert_eq, Hl. simpl. destruct Hne as [? | Hk]; [done |].
    by apply assoc_remove_key_ne.
  - by rewrite lookup_insert_ne.
Qed.

Lemma dom_delete_prop (h : gmap loc hobj) (l : loc) (k : string) :
  dom (delete_prop h l k) = dom h.
Proof.
  unfold delete_prop. destruct (h !! l) as [o |] eqn:Hl; [| done].
  rewrite dom_insert_L. apply elem_of_dom_2 in Hl.
  apply set_eq. intros x. rewrite elem_of_union, elem_of_singleton.
  split; [intros [-> | Hx]; done | intros Hx; by right].
Qed.

Lemma assoc_in_keys {A : Type} (k : string) (l : list (string * A)) (v : A) :
  assoc k l = Some v -> k ∈ map fst l.
Proof.
  induction l as [| [k' x] l IH]; simpl; [done |].
  destruct (String.eqb_spec k k') as [-> | Hne]; [intros _; by left |].
  intros H. right. by apply IH.
Qed.

Lemma own_prop_in_keys (h : gmap loc hobj) (l : loc) (k : string) (v : hval) :
  own_prop h l k = Some v -> k ∈ own_keys h l.
Proof.
  unfold own_prop, own_keys. destruct (h !! l); [apply assoc_in_keys | done].
Qed.

Lemma extends_refl (s : pstate) : extends s s.
Proof. by split. Qed.

Lemma extends_trans (s1 s2 s3 : pstate) : extends s1 s2 -> extends s2 s3 -> extends s1 s3.
Proof.
  intros [A1 B1 C1 D1 U1 R1 E1] [A2 B2 C2 D2 U2 R2 E2].
  split; [eauto | eauto | eauto | eauto | | eauto |].
  - intros l k Hl. rewrite U2 by done. apply U1. intros Hin. by apply Hl, A2.
  - by rewrite E2.
Qed.

Lemma extends_push (v : hval) (s : pstate) : extends s (push_seen v s).
Proof.
  split; simpl; try done. intros x Hx. apply elem_of_app. by left.
Qed.

Lemma extends_take (np : string) (f : fn) (l : loc) (k : string) (s : pstate) :
  own_prop (p_heap s) l k = Some (HFun f) -> HRef l ∈ p_seen s ->
  extends s (take_function np f l k s).
Proof.
  intros Hf Hseen. split; simpl.
  - done.
  - intros x Hx. apply elem_of_app. by left.
  - intros l' k' v Hv.
    destruct (decide (l = l')) as [<- | Hl]; [destruct (decide (k = k')) as [<- | Hk] |].
    + by rewrite own_prop_delete_eq in Hv.
    + rewrite own_prop_delete_ne in Hv by (by right). done.
    + rewrite own_prop_delete_ne in Hv by (by left). done.
  - intros l' k' v Hv Hnf.
    destruct (decide (l = l')) as [<- | Hl]; [destruct (decide (k = k')) as [<- | Hk] |].
    + rewrite Hf in Hv. inversion Hv; subst. by destruct (Hnf f).
    + by rewrite own_prop_delete_ne by (by right).
    + by rewrite own_prop_delete_ne by (by left).
  - intros l' k' Hl'. apply own_prop_delete_ne. left. by intros ->.
  - intros Hrec x Hx. apply elem_of_app in Hx as [Hx | Hx].
    + destruct (decide (np = x)) as [-> | Hne]; [by rewrite lookup_insert_eq |].
      rewrite lookup_insert_ne by done. by apply Hrec.
    + apply list_elem_of_singleton in Hx as ->. by rewrite lookup_insert_eq.
  - apply dom_delete_prop.
Qed.

Lemma closed_mono (h h' : gmap loc hobj) (seen seen' : list hval) (l : loc) :
  (forall k, own_prop h' l k = own_prop h l k) ->
  (forall x, x ∈ seen -> x ∈ seen') ->
  closed h seen l -> closed h' seen' l.
Proof.
  intros Hh Hs Hc k v Hv. rewrite Hh in Hv. destruct (Hc k v Hv) as [Hf Hr].
  split; [done |]. intros l' ->. apply Hs. by apply Hr.
Qed.

Section Loop.
Variable rec : string -> hval -> pstate -> pres.
Hypothesis Hrec : forall path v s s', rec path v s = Done s' -> call_ok v s s'.

(** One turn of the loop, on the key [k] of the object at [l], which is in
    [seen]: it leads to a state [sm] from which the rest of the loop runs. *)
Lemma prune_keys_step (path : string) (l : loc) (k : string) (ks : list string)
    (s s' : pstate) :
  prune_keys rec path l (k :: ks) s = Done s' -> HRef l ∈ p_seen s ->
  exists sm,
    prune_keys rec path l ks sm = Done s' /\
    extends s sm /\ HRef l ∈ p_seen sm /\
    (forall l0 k0, l0 <> l \/ k0 <> k -> HRef l0 ∈ p_seen s ->
                   own_prop (p_heap sm) l0 k0 = own_prop (p_heap s) l0 k0) /\
    (forall l0, HRef l0 ∈ p_seen sm -> HRef l0 ∉ p_seen s ->
                closed (p_heap sm) (p_seen sm) l0) /\
    (forall v, own_prop (p_heap sm) l k = Some v ->
               (forall f, v <> HFun f) /\
               (forall l', v = HRef l' -> HRef l' ∈ p_seen sm)) /\
    (forall f, own_prop (p_heap s) l k = Some (HFun f) ->
               child_path path k ∈ p_names sm) /\
    (forall l', own_prop (p_heap s) l k = Some (HRef l') ->
                rec (child_path path k) (HRef l') s = Done sm).
Proof.
  intros Hrun Hl. simpl in Hrun.
  assert (Hsame_state : forall v0,
    own_prop (p_heap s) l k = v0 ->
    (forall v, v0 = Some v -> (forall f, v <> HFun f) /\ (forall l', v <> HRef l')) ->
    prune_keys rec path l ks s = Done s' ->
    exists sm,
      prune_keys rec path l ks sm = Done s' /\
      extends s sm /\ HRef l ∈ p_seen sm /\
      (forall l0 k0, l0 <> l \/ k0 <> k -> HRef l0 ∈ p_seen s ->
                     own_prop (p_heap sm) l0 k0 = own_prop (p_heap s) l0 k0) /\
      (forall l0, HRef l0 ∈ p_seen sm -> HRef l0 ∉ p_seen s ->
                  closed (p_heap sm) (p_seen sm) l0) /\
      (forall v, own_prop (p_heap sm) l k = Some v ->
                 (forall f, v <> HFun f) /\
                 (forall l', v = HRef l' -> HRef l' ∈ p_seen sm)) /\
      (forall f, own_prop (p_heap s) l k = Some (HFun f) ->
                 child_path path k ∈ p_names sm) /\
      (forall l', own_prop (p_heap s) l k = Some (HRef l') ->
                  rec (child_path path k) (HRef l') s = Done sm)).
  { intros v0 Hv0 Hprim Hr. exists s. split_and!.
    - exact Hr.
    - apply extends_refl.
    - exact Hl.
    - done.
    - intros l0 Hin Hnot. by destruct Hnot.
    - intros v Hv'. rewrite Hv0 in Hv'. destruct (Hprim v Hv') as [Hf Hnr].
      split; [exact Hf |]. intros l' ->. by destruct (Hnr l').
    - intros f Hf. rewrite Hv0 in Hf. destruct (Hprim _ Hf) as [Hnf _]. by destruct (Hnf f).
    - intros l' Hr'. rewrite Hv0 in Hr'. destruct (Hprim _ Hr') as [_ Hnr].
      by destruct (Hnr l'). }
  assert (Hvia_rec : forall v sm,
    own_prop (p_heap s) l k = Some v -> (forall f, v <> HFun f) ->
    rec (child_path path k) v s = Done sm ->
    prune_keys rec path l ks sm = Done s' ->
    exists sm,
      prune_keys rec path l ks sm = Done s' /\
      extends s sm /\ HRef l ∈ p_seen sm /\
      (forall l0 k0, l0 <> l \/ k0 <> k -> HRef l0 ∈ p_seen s ->
                     own_prop (p_heap sm) l0 k0 = own_prop (p_heap s) l0 k0) /\
      (forall l0, HRef l0 ∈ p_seen sm -> HRef l0 ∉ p_seen s ->
                  closed (p_heap sm) (p_seen sm) l0) /\
      (forall v, own_prop (p_heap sm) l k = Some v ->
                 (forall f, v <> HFun f) /\
                 (forall l', v = HRef l' -> HRef l' ∈ p_seen sm)) /\
      (forall f, own_prop (p_heap s) l k = Some (HFun f) ->
                 child_path path k ∈ p_names sm) /\
      (forall l', own_prop (p_heap s) l k = Some (HRef l') ->
                  rec (child_path path k) (HRef l') s = Done sm)).
  { intros v sm Hv Hnf Hr Hrest.
    destruct (Hrec _ _ _ _ Hr) as (Hext & Hin & Hsame & Hclosed).
    exists sm. split_and!.
    - exact Hrest.
    - exact Hext.
    - by apply (ext_seen _ _ Hext).
    - intros l0 k0 _ Hl0. by apply Hsame.
    - exact Hclosed.
    - intros v' Hv'. rewrite Hsame in Hv' by done. rewrite Hv in Hv'.
      inversion Hv'; subst. split; [exact Hnf |]. by intros l' ->.
    - intros f Hf. rewrite Hv in Hf. inversion Hf; subst. by destruct (Hnf f).
    - intros l' Hr'. rewrite Hv in Hr'. inversion Hr'; subst. exact Hr. }
  destruct (own_prop (p_heap s) l k) as [v |] eqn:Hv.
  - destruct v as [| | b | n | str | f | l1].
    + apply (Hsame_state _ eq_refl); [| exact Hrun]. by intros v [= <-].
    + destruct (rec (child_path path k) HNull s) as [sm | |] eqn:Hr; try done.
      by apply (Hvia_rec HNull sm).
    + apply (Hsame_state _ eq_refl); [| exact Hrun]. by intros v [= <-].
    + apply (Hsame_state _ eq_refl); [| exact Hrun]. by intros v [= <-].
    + apply (Hsame_state _ eq_refl); [| exact Hrun]. by intros v [= <-].
    + (* a function: taken out of the object *)
      exists (take_function (child_path path k) f l k s). split_and!.
      * exact Hrun.
      * by apply extends_take.
      * exact Hl.
      * intros l0 k0 Hne _. simpl. apply own_prop_delete_ne.
        destruct Hne as [Hne | Hne]; [left | right]; congruence.
      * intros l0 Hin Hnot. by destruct Hnot.
      * intros v Hv'. simpl in Hv'. by rewrite own_prop_delete_eq in Hv'.
      * intros f0 _. simpl. apply elem_of_app. right. by left.
      * intros l' Hr'. discriminate Hr'.
    + destruct (rec (child_path path k) (HRef l1) s) as [sm | |] eqn:Hr; try done.
      by apply (Hvia_rec (HRef l1) sm).
  - apply (Hsame_state _ eq_refl); [| exact Hrun]. by intros v.
Qed.

(** The loop over the keys [ks] of the object at [l], which is in [seen]:
    the other objects seen before are as they were, the objects seen during
    the loop are closed, the properties of [l] under the keys of [ks] that
    are left are neither functions nor references to unseen objects, and
    the functions [l] had under the keys of [ks] are recorded. *)
Lemma prune_keys_ok (path : string) (l : loc) (ks : list string) :
  forall s s',
    prune_keys rec path l ks s = Done s' -> HRef l ∈ p_seen s ->
    extends s s' /\
    (forall l0 k, l0 <> l -> HRef l0 ∈ p_seen s ->
                  own_prop (p_heap s') l0 k = own_prop (p_heap s) l0 k) /\
    (forall l0, HRef l0 ∈ p_seen s' -> HRef l0 ∉ p_seen s ->
                closed (p_heap s') (p_seen s') l0) /\
    (forall k v, k ∈ ks -> own_prop (p_heap s') l k = Some v ->
                 (forall f, v <> HFun f) /\
                 (forall l', v = HRef l' -> HRef l' ∈ p_seen s')) /\
    (forall k f, k ∈ ks -> own_prop (p_heap s) l k = Some (HFun f) ->
                 child_path path k ∈ p_names s').
Proof.
  induction ks as [| k ks IH]; intros s s' Hrun Hl.
  - simpl in Hrun. inversion Hrun; subst. split_and!.
    + apply extends_refl.
    + done.
    + intros l0 Hin Hnot. by destruct Hnot.
    + intros k v Hk. by apply elem_of_nil in Hk.
    + intros k f Hk. by apply elem_of_nil in Hk.
  - destruct (prune_keys_step path l k ks s s' Hrun Hl)
      as (sm & Hrest & Hext & Hlm & Hsame & Hclosed & Hk & Hfun & _).
    destruct (IH sm s' Hrest Hlm) as (Hext' & Hsame' & Hclosed' & Hks & Hrec').
    split_and!.
    + by apply (extends_trans s sm s').
    + intros l0 k0 Hne Hl0. rewrite Hsame' by (try done; by apply (ext_seen _ _ Hext)).
      apply Hsame; [by left | done].
    + intros l0 Hl0 Hnew. destruct (decide (HRef l0 ∈ p_seen sm)) as [Hm | Hm].
      * assert (l0 <> l) by (intros ->; done).
        apply (closed_mono (p_heap sm) _ (p_seen sm)); [| apply (ext_seen _ _ Hext') |].
        -- intros k0. by apply Hsame'.
        -- by apply Hclosed.
      * by apply Hclosed'.
    + intros k0 v Hin Hv. apply elem_of_cons in Hin as [-> | Hin]; [| by apply (Hks k0)].
      pose proof (ext_mono _ _ Hext' _ _ _ Hv) as Hvm.
      destruct (Hk v Hvm) as [Hf Hr]. split; [done |].
      intros l' ->. apply (ext_seen _ _ Hext'). by apply Hr.
    + intros k0 f Hin Hf. destruct (decide (k0 = k)) as [-> | Hne].
      * apply (ext_names _ _ Hext'). by apply (Hfun f).
      * apply elem_of_cons in Hin as [-> | Hin]; [done |].
        apply (Hrec' k0 f Hin). rewrite Hsame; [done | by right | done].
Qed.
End Loop.

Lemma pruneFunctions_ok (fuel : nat) :
  forall path v s s', pruneFunctions fuel path v s = Done s' -> call_ok v s s'.
Proof.
  induction fuel as [| fuel IH]; intros path v s s' Hrun; simpl in Hrun; [done |].
  case_bool_decide as Hseen; [done |].
  assert (Hleaf : (forall l, v <> HRef l) -> Done (push_seen v s) = Done s' -> call_ok v s s').
  { intros Hnr [= <-]. split_and!.
    - apply extends_push.
    - simpl. apply elem_of_app. right. by left.
    - done.
    - intros l Hin Hnot. simpl in Hin. apply elem_of_app in Hin as [Hin | Hin]; [done |].
      apply list_elem_of_singleton in Hin. by destruct (Hnr l). }
  destruct v as [| | b | n | str | f | l]; try (by apply Hleaf).
  assert (Hl : HRef l ∈ p_seen (push_seen (HRef l) s)).
  { simpl. apply elem_of_app. right. by left. }
  destruct (prune_keys_ok (pruneFunctions fuel) IH path l _ _ _ Hrun Hl)
    as (Hext & Hsame & Hclosed & Hks & _).
  split_and!.
  - apply (extends_trans _ (push_seen (HRef l) s)); [apply extends_push | exact Hext].
  - by apply (ext_seen _ _ Hext).
  - intros l0 k Hl0. apply Hsame.
    + intros ->. done.
    + simpl. apply elem_of_app. by left.
  - intros l0 Hin Hnot. destruct (decide (l0 = l)) as [-> | Hne].
    + intros k v Hv. apply (Hks k v); [| exact Hv].
      apply (own_prop_in_keys _ _ _ v). by apply (ext_mono _ _ Hext).
    + apply Hclosed; [exact Hin |]. simpl. intros Hin'.
      apply elem_of_app in Hin' as [Hin' | Hin']; [done |].
      apply list_elem_of_singleton in Hin'. congruence.
Qed.

(** From the start of [call]: every object the traversal has seen is free of
    functions, and every object reachable from the params has been seen. *)
Lemma prune_start_closed (fuel : nat) (path : string) (v : hval)
    (h : gmap loc hobj) (s' : pstate) :
  pruneFunctions fuel path v (prune_start h) = Done s' ->
  forall l, reach (p_heap s') v l -> closed (p_heap s') (p_seen s') l.
Proof.
  intros Hrun. destruct (pruneFunctions_ok _ _ _ _ _ Hrun) as (_ & Hv & _ & Hclosed).
  assert (Hall : forall l, HRef l ∈ p_seen s' -> closed (p_heap s') (p_seen s') l).
  { intros l Hl. apply Hclosed; [exact Hl |]. simpl. apply not_elem_of_nil. }
  assert (Hreach : forall x l, reach (p_heap s') x l -> x ∈ p_seen s' -> HRef l ∈ p_seen s').
  { intros x l Hr. induction Hr as [l | l l' l'' k Hk Hr IH]; [done |].
    intros Hl. apply IH. destruct (Hall l Hl k _ Hk) as [_ Href]. by apply Href. }
  intros l Hr. apply Hall. by apply (Hreach v).
Qed.

(** *** The fuel given by [call] is enough *)

Lemma unseen_extends (s s' : pstate) : extends s s' -> (unseen s' <= unseen s)%nat.
Proof.
  intros Hext. unfold unseen. apply subseteq_size. rewrite (ext_dom _ _ Hext).
  intros l Hl. apply elem_of_filter in Hl as [Hns Hd]. apply elem_of_filter.
  split; [| done]. intros Hin. apply Hns. by apply (ext_seen _ _ Hext).
Qed.

Lemma unseen_push (l : loc) (s : pstate) :
  HRef l ∉ p_seen s -> l ∈ dom (p_heap s) ->
  (unseen (push_seen (HRef l) s) < unseen s)%nat.
Proof.
  intros Hns Hd. unfold unseen. apply subset_size. simpl. split.
  - intros x Hx. apply elem_of_filter in Hx as [Hx Hdx]. apply elem_of_filter.
    split; [| done]. intros Hin. apply Hx. apply elem_of_app. by left.
  - intros Hsub. assert (Hl : l ∈ filter (fun l => HRef l ∉ p_seen s) (dom (p_heap s))).
    { by apply elem_of_filter. }
    apply Hsub in Hl. apply elem_of_filter in Hl as [Hl _]. apply Hl.
    apply elem_of_app. right. by left.
Qed.

Lemma prune_keys_fuel (rec : string -> hval -> pstate -> pres)
    (path : string) (l : loc) (ks : list string) :
  (forall p v s s', rec p v s = Done s' -> call_ok v s s') ->
  forall s,
    (forall p v sm, (unseen sm <= unseen s)%nat -> rec p v sm <> OutOfFuel) ->
    prune_keys rec path l ks s <> OutOfFuel.
Proof.
  intros Hok. induction ks as [| k ks IH]; intros s Hrec; simpl; [done |].
  destruct (own_prop (p_heap s) l k) as [v |] eqn:Hv; [| by apply IH].
  assert (Hvia : forall v, prune_keys rec path l ks s <> OutOfFuel ->
    match rec (child_path path k) v s with
    | Done s' => prune_keys rec path l ks s'
    | r => r
    end <> OutOfFuel).
  { intros v0 _. destruct (rec (child_path path k) v0 s) as [sm | e sm |] eqn:Hr.
    - apply IH. intros p x sm' Hle. apply Hrec.
      destruct (Hok _ _ _ _ Hr) as (Hext & _). pose proof (unseen_extends _ _ Hext). lia.
    - done.
    - by apply (Hrec _ _ s (le_n _)) in Hr. }
  destruct v; try (by apply IH); try (apply Hvia; by apply IH).
  apply IH. intros p x sm Hle. apply Hrec.
  assert (unseen (take_function (child_path path k) f l k s) = unseen s) as Heq.
  { unfold unseen. simpl. by rewrite dom_delete_prop. }
  lia.
Qed.

Lemma pruneFunctions_enough (fuel : nat) :
  forall path v s, (unseen s < fuel)%nat -> pruneFunctions fuel path v s <> OutOfFuel.
Proof.
  induction fuel as [| fuel IH]; intros path v s Hlt; [lia |]. simpl.
  case_bool_decide as Hseen; [done |].
  destruct v as [| | b | n | str | f | l]; try done.
  destruct (decide (l ∈ dom (p_heap s))) as [Hd | Hd].
  - apply prune_keys_fuel; [apply pruneFunctions_ok |].
    intros p x sm Hle. apply IH. pose proof (unseen_push l s Hseen Hd). lia.
  - unfold own_keys. simpl. apply not_elem_of_dom in Hd. by rewrite Hd.
Qed.

(** [call] never runs the traversal out of fuel. *)
Lemma pruneFunctions_fuel (h : gmap loc hobj) (path : string) (v : hval) :
  pruneFunctions (prune_fuel h) path v (prune_start h) <> OutOfFuel.
Proof.
  apply pruneFunctions_enough. unfold prune_fuel.
  assert (Hle : (unseen (prune_start h) <= size h)%nat).
  { unfold unseen. simpl. rewrite <- (size_dom h). apply subseteq_size.
    intros x Hx. by apply elem_of_filter in Hx as [_ Hx]. }
  lia.
Qed.

(** *** Every function found is recorded under its path *)

Lemma at_path_extends (s s' : pstate) (v : hval) (path p : string) (l : loc) :
  extends s s' -> at_path (p_heap s) v path l p -> at_path (p_heap s') v path l p.
Proof.
  intros Hext Hp. induction Hp as [l path | l l' l'' k path p Hk Hp IH].
  - apply at_here.
  - apply (at_step _ l l' l'' k); [| exact IH]. by apply (ext_frame _ _ Hext).
Qed.

Lemma at_path_reach (h : gmap loc hobj) (v : hval) (path p : string) (l : loc) :
  at_path h v path l p -> reach h v l.
Proof.
  intros Hp. induction Hp as [l path | l l' l'' k path p Hk Hp IH].
  - apply reach_here.
  - by apply (reach_step _ l l' l'' k).
Qed.

Lemma reach_at_path (h : gmap loc hobj) (v : hval) (l : loc) :
  reach h v l -> forall path, exists p, at_path h v path l p.
Proof.
  intros Hr. induction Hr as [l | l l' l'' k Hk Hr IH]; intros path.
  - exists path. apply at_here.
  - destruct (IH (child_path path k)) as (p & Hp). exists p.
    by apply (at_step _ l l' l'' k).
Qed.

Section Records.
Variable h0 : gmap loc hobj.
Variable rec : string -> hval -> pstate -> pres.
Hypothesis Hrec : forall path v s s', rec path v s = Done s' -> call_ok v s s'.
Hypothesis Hrecords : forall path v s s',
  rec path v s = Done s' ->
  (forall l k, HRef l ∉ p_seen s -> own_prop (p_heap s) l k = own_prop h0 l k) ->
  forall l p, at_path (p_heap s) v path l p ->
  forall k f, own_prop h0 l k = Some (HFun f) -> child_path p k ∈ p_names s'.

Lemma prune_keys_records (path : string) (l1 : loc) (ks : list string) :
  forall s s',
    prune_keys rec path l1 ks s = Done s' -> HRef l1 ∈ p_seen s ->
    (forall l k, HRef l ∉ p_seen s -> own_prop (p_heap s) l k = own_prop h0 l k) ->
    forall k1 l' l p k f,
      k1 ∈ ks -> own_prop (p_heap s) l1 k1 = Some (HRef l') ->
      at_path (p_heap s) (HRef l') (child_path path k1) l p ->
      own_prop h0 l k = Some (HFun f) ->
      child_path p k ∈ p_names s'.
Proof.
  induction ks as [| k0 ks IH]; intros s s' Hrun Hl Hunv k1 l' l p k f Hin Hk1 Hp Hf.
  - by apply elem_of_nil in Hin.
  - destruct (prune_keys_step rec Hrec path l1 k0 ks s s' Hrun Hl)
      as (sm & Hrest & Hext & Hlm & Hsame & _ & _ & _ & Hcall).
    destruct (prune_keys_ok rec Hrec path l1 ks sm s' Hrest Hlm) as (Hext' & _).
    destruct (decide (k1 = k0)) as [-> | Hne].
    + apply (ext_names _ _ Hext').
      apply (Hrecords _ _ _ _ (Hcall l' Hk1) Hunv l p Hp k f Hf).
    + apply elem_of_cons in Hin as [-> | Hin]; [done |].
      apply (IH sm s' Hrest Hlm) with (k1 := k1) (l' := l') (l := l) (f := f); try done.
      * intros l2 k2 Hl2. rewrite (ext_unseen _ _ Hext) by done.
        apply Hunv. intros Hin2. by apply Hl2, (ext_seen _ _ Hext).
      * rewrite Hsame; [done | by right | done].
      * by apply (at_path_extends s sm).
Qed.
End Records.

Lemma pruneFunctions_records (h0 : gmap loc hobj) (fuel : nat) :
  forall path v s s',
    pruneFunctions fuel path v s = Done s' ->
    (forall l k, HRef l ∉ p_seen s -> own_prop (p_heap s) l k = own_prop h0 l k) ->
    forall l p, at_path (p_heap s) v path l p ->
    forall k f, own_prop h0 l k = Some (HFun f) -> child_path p k ∈ p_names s'.
Proof.
  induction fuel as [| fuel IH]; intros path v s s' Hrun Hunv l p Hp k f Hf;
    simpl in Hrun; [done |].
  case_bool_decide as Hseen; [done |].
  assert (Hunv1 : forall l k, HRef l ∉ p_seen (push_seen v s) ->
                              own_prop (p_heap (push_seen v s)) l k = own_prop h0 l k).
  { intros l2 k2 Hl2. simpl. apply Hunv. intros Hin. apply Hl2. simpl.
    apply elem_of_app. by left. }
  inversion Hp as [l1 path1 | l1 l' l'' k1 path1 p1 Hk1 Hp1]; subst.
  - assert (Hl : HRef l ∈ p_seen (push_seen (HRef l) s)).
    { simpl. apply elem_of_app. right. by left. }
    destruct (prune_keys_ok (pruneFunctions fuel) (pruneFunctions_ok fuel) p l _ _ _ Hrun Hl)
      as (_ & _ & _ & _ & Hfun).
    apply (Hfun k f).
    + apply (own_prop_in_keys _ _ _ (HFun f)). simpl. by rewrite Hunv.
    + simpl. by rewrite Hunv.
  - assert (Hl : HRef l1 ∈ p_seen (push_seen (HRef l1) s)).
    { simpl. apply elem_of_app. right. by left. }
    apply (prune_keys_records h0 (pruneFunctions fuel) (pruneFunctions_ok fuel) IH
             path l1 _ _ _ Hrun Hl Hunv1 k1 l' l p k f); try done.
    apply (own_prop_in_keys _ _ _ (HRef l')). exact Hk1.
Qed.

(** What a [call] that returns has done, step by step. *)
Lemma call_result (m : call_args) (s s' : st) (w : window) :
  call (Some m) s = (s', Ok tt) -> cfg_window (cfg (snd s)) = Some w ->
  exists ps p,
    pruneFunctions (prune_fuel (heap (fst s))) "" (a_params m) (prune_start (heap (fst s)))
    = Done ps /\
    heap (fst s') = p_heap ps /\
    outTbl (snd s')
    = <[pretty (s_curTranId (fst s)) :=
          {| o_callbacks := p_callbacks ps; o_error := a_error m;
             o_success := a_success m |}]> (outTbl (snd s)) /\
    last_handed (ready (snd s)) s'
    = Some (VObj ([("id", VNum (s_curTranId (fst s)));
                   ("method", VStr (scoped_name (snd s) (ToString (a_method m))));
                   ("params", p)]
                  ++ match p_names ps with
                     | [] => []
                     | _ :: _ => [("callbacks", VArr (map VStr (p_names ps)))]
                     end)%list).
Proof.
  destruct s as [g c]. cbn [fst snd]. intros Hcall Hw. unfold call in Hcall.
  destruct (_ || _); [discriminate |]. destruct (_ || _); [discriminate |].
  rewrite bind_getG in Hcall. cbn [fst snd] in Hcall.
  destruct (pruneFunctions _ _ _ _) as [ps | e ps |]; try discriminate.
  rewrite bind_modG, bind_getG in Hcall. cbn [fst snd] in Hcall.
  unfold scopeMethod in Hcall. rewrite !bind_getC in Hcall. cbn [fst snd] in Hcall.
  assert (Hend : forall (g1 : globals) (c1 : chan) msg,
    heap g1 = p_heap ps -> cfg_window (cfg c1) = Some w -> ready c1 = ready c ->
    (forall p, truthy (msg p) = true) ->
    (let* p := params_value (a_params m) in postMessage (msg p) false) (g1, c1)
    = (s', Ok tt) ->
    exists p, heap (fst s') = p_heap ps /\ outTbl (snd s') = outTbl c1 /\
              last_handed (ready c) s' = Some (msg p)).
  { intros g1 c1 msg Hh Hw1 Hr1 Ht Hrun. unfold params_value in Hrun.
    unfold m_bind at 1 in Hrun. rewrite bind_getG in Hrun. cbn [fst snd] in Hrun.
    destruct (to_value _ _ _) as [p |]; [| discriminate]. unfold m_ret in Hrun.
    destruct (postMessage_spec (msg p) g1 c1 w Hw1 (Ht p))
      as (tr & c' & E & Hs & _ & _ & Hout & _).
    unfold st in *. rewrite E in Hrun. inversion Hrun; subst. exists p.
    split; [done | split; [done |]].
    unfold sent_or_queued in Hs. cbn [fst snd] in Hs. unfold last_handed. cbn [fst snd].
    rewrite <- Hr1. destruct (ready c1).
    - destruct Hs as [-> _]. by rewrite last_snoc.
    - destruct Hs as [_ ->]. by rewrite last_snoc. }
  exists ps. revert Hcall. destruct (truthy (a_timeout m)).
  - rewrite !bind_modG, !bind_modC, !bind_modG. cbn [fst snd]. intros Hcall.
    apply Hend in Hcall as (p & Hh & Hout & Hlast); try done.
    exists p. by rewrite Hh, Hout.
  - unfold m_bind at 1, m_ret at 1. rewrite !bind_modC, !bind_modG. cbn [fst snd].
    intros Hcall. apply Hend in Hcall as (p & Hh & Hout & Hlast); try done.
    exists p. by rewrite Hh, Hout.
Qed.

(** C10: a [call] that returns has pruned the caller's params in place.  No
    object reachable from the params is left with a function-valued
    property; every function the params held has been deleted from the very
    object that held it and is recorded under its slash-joined path, both in
    the callbacks table kept for the call and in the [callbacks] list of the
    request handed over; and nothing else in the heap has changed. *)
Theorem call_prunes_params_in_place (m : call_args) (s s' : st) (w : window) :
  call (Some m) s = (s', Ok tt) -> cfg_window (cfg (snd s)) = Some w ->
  exists entry msg,
    outTbl (snd s') !! pretty (s_curTranId (fst s)) = Some entry /\
    last_handed (ready (snd s)) s' = Some msg /\
    prop msg "id" = VNum (s_curTranId (fst s)) /\
    (forall l k f, reach (heap (fst s')) (a_params m) l ->
                   own_prop (heap (fst s')) l k <> Some (HFun f)) /\
    (forall l p k f,
       at_path (heap (fst s)) (a_params m) "" l p ->
       own_prop (heap (fst s)) l k = Some (HFun f) ->
       own_prop (heap (fst s')) l k = None /\
       is_Some (o_callbacks entry !! child_path p k) /\
       VStr (child_path p k) ∈ callbacks_of msg) /\
    (forall l k v, own_prop (heap (fst s)) l k = Some v -> (forall f, v <> HFun f) ->
                   own_prop (heap (fst s')) l k = Some v).
Proof.
  intros Hcall Hw.
  destruct (call_result m s s' w Hcall Hw) as (ps & p & Hrun & Hheap & Hout & Hlast).
  destruct (pruneFunctions_ok _ _ _ _ _ Hrun) as (Hext & _).
  pose proof (prune_start_closed _ _ _ _ _ Hrun) as Hclosed.
  eexists _, _. split; [| split; [exact Hlast | split; [reflexivity |]]].
  { rewrite Hout. apply lookup_insert_eq. }
  rewrite Hheap. split; [| split].
  - intros l k f Hr Hf. destruct (Hclosed l Hr k _ Hf) as [Hnf _]. by destruct (Hnf f).
  - intros l q k f Hp Hf.
    assert (Hq : child_path q k ∈ p_names ps).
    { by apply (pruneFunctions_records (heap (fst s)) _ _ _ _ _ Hrun) with (l := l) (f := f). }
    split; [| split].
    + destruct (own_prop (p_heap ps) l k) as [v |] eqn:Hv; [| done].
      pose proof (ext_mono _ _ Hext _ _ _ Hv) as Hv0. simpl in Hv0.
      rewrite Hf in Hv0. inversion Hv0; subst.
      assert (Hr : reach (p_heap ps) (a_params m) l).
      { apply (at_path_reach _ _ "" q). by apply (at_path_extends (prune_start (heap (fst s)))). }
      destruct (Hclosed l Hr k _ Hv) as [Hnf _]. by destruct (Hnf f).
    + cbn [o_callbacks]. apply (ext_recorded _ _ Hext); [| exact Hq].
      intros np Hnp. by apply elem_of_nil in Hnp.
    + unfold callbacks_of. destruct (p_names ps) as [| n names] eqn:Hn.
      * by apply elem_of_nil in Hq.
      * change (VStr (child_path q k) ∈ map VStr (n :: names)).
        apply list_elem_of_In, in_map, list_elem_of_In. exact Hq.
  - intros l k v Hv Hnf. by apply (ext_frame _ _ Hext).
Qed.

Lemma call_prunes_params_in_place_witness :
  let s := (glob caller_page, chan_of caller_page 0%nat) in
  let s' := exec (call (Some progress_call)) s in
  exists entry msg,
    outTbl (snd s') !! pretty (s_curTranId (fst s)) = Some entry /\
    last_handed (ready (snd s)) s' = Some msg /\
    prop msg "id" = VNum (s_curTranId (fst s)) /\
    (forall l k f, reach (heap (fst s')) (a_params progress_call) l ->
                   own_prop (heap (fst s')) l k <> Some (HFun f)) /\
    (forall l p k f,
       at_path (heap (fst s)) (a_params progress_call) "" l p ->
       own_prop (heap (fst s)) l k = Some (HFun f) ->
       own_prop (heap (fst s')) l k = None /\
       is_Some (o_callbacks entry !! child_path p k) /\
       VStr (child_path p k) ∈ callbacks_of msg) /\
    (forall l k v, own_prop (heap (fst s)) l k = Some v -> (forall f, v <> HFun f) ->
                   own_prop (heap (fst s')) l k = Some v).
Proof.
  intros s s'. apply (call_prunes_params_in_place progress_call s s' 1%nat).
  - vm_compute. reflexivity.
  - vm_compute. reflexivity.
Defined.

(** The caller's object before and after the call of the scenario. *)
Example caller_params_pruned :
  own_prop (heap (glob caller_page)) 0%nat "onProgress" = Some (HFun (FUser 7)) /\
  own_prop (heap (glob caller_called)) 0%nat "onProgress" = None /\
  own_prop (heap (glob caller_called)) 0%nat "total" = Some (HNum 3) /\
  (o_callbacks <$> outTbl (chan_of caller_called 0%nat) !! "500000") ≫= (.!! "onProgress")
  = Some (FUser 7).
Proof. repeat split; vm_compute; reflexivity. Qed.

(** The [seen] list compares with [===], and [null] equals [null]: a params
    object with two [null] members is refused as recursive. *)
Example two_nulls_refused :
  let p := exec (deliver (peer_event ping_msg))
             (exec (build (plain_cfg 1%nat "*" "a")) (initial modern (1 # 2) nulls_heap quiet)) in
  snd (in_chan 0%nat (call (Some progress_call)) p)
  = Throw (Error "params cannot be a recursive data structure").
Proof. vm_compute. reflexivity. Qed.

(** ** The registry of bound channels, bucket by bucket *)

Lemma bucket_insert_eq (bc : gmap string (gmap string (list bound)))
    (scopes : gmap string (list bound)) (o sc : string) (arr : list bound) :
  bucket (<[o := <[sc := arr]> scopes]> bc) o sc = Some arr.
Proof. unfold bucket. by rewrite !lookup_insert_eq. Qed.

Lemma bucket_delete_eq (bc : gmap string (gmap string (list bound)))
    (scopes : gmap string (list bound)) (o sc : string) :
  bucket (<[o := delete sc scopes]> bc) o sc = None.
Proof. unfold bucket. by rewrite lookup_insert_eq, lookup_delete_eq. Qed.

(** Rewriting the bucket of one origin and scope leaves every other bucket
    as it was, also when the origin had no table of scopes before. *)
Lemma bucket_update_ne (bc : gmap string (gmap string (list bound)))
    (f : gmap string (list bound) -> gmap string (list bound)) (o sc o' sc' : string) :
  (forall scopes, sc' <> sc -> f scopes !! sc' = scopes !! sc') ->
  (o', sc') <> (o, sc) ->
  bucket (<[o := f (default ∅ (bc !! o))]> bc) o' sc' = bucket bc o' sc'.
Proof.
  intros Hf Hne. unfold bucket. destruct (decide (o' = o)) as [-> | Ho].
  - rewrite lookup_insert_eq. assert (Hsc : sc' <> sc) by congruence.
    rewrite (Hf _ Hsc). by destruct (bc !! o).
  - by rewrite lookup_insert_ne.
Qed.

Lemma s_addBoundChan_ok (g g' : globals) (w : window) (origin scope : string) (h : chan_id) :
  s_addBoundChan w origin scope h g = (g', Ok tt) ->
  overlap_exists (s_boundChans g) w origin scope = Ok false /\
  g' = set_boundChans
         (<[origin := <[scope := (default [] (bucket (s_boundChans g) origin scope)
                                   ++ [ {| win := w; handler := h |} ])%list]>
                        (default ∅ (s_boundChans g !! origin))]> (s_boundChans g)) g.
Proof.
  unfold s_addBoundChan. destruct (overlap_exists _ _ _ _) as [[] | e]; try discriminate.
  assert (Hb : bucket (s_boundChans g) origin scope
               = default ∅ (s_boundChans g !! origin) !! scope).
  { unfold bucket. by destruct (s_boundChans g !! origin). }
  rewrite Hb. unfold member.
  destruct (default ∅ (s_boundChans g !! origin) !! scope) as [arr |].
  - by intros [= <-].
  - destruct (inherited scope); [destruct (String.eqb scope "__proto__") |];
      try discriminate; by intros [= <-].
Qed.

(** A binding that is refused, for a scope that is no inherited name, finds
    an overlap and leaves the state as it was. *)
Lemma s_addBoundChan_refused
    (g g' : globals) (w : window) (origin scope : string) (h : chan_id) (e : value) :
  inherited scope = false ->
  s_addBoundChan w origin scope h g = (g', Throw e) ->
  overlap_exists (s_boundChans g) w origin scope = Ok true /\ g' = g.
Proof.
  intros Hsc. unfold s_addBoundChan.
  destruct (overlap_exists_spec (s_boundChans g) w origin scope Hsc) as (b & -> & _).
  destruct b; [by intros [= <- _] |].
  rewrite member_plain by done.
  by destruct (default ∅ (s_boundChans g !! origin) !! scope).
Qed.

(** The buckets after a binding was accepted. *)
Lemma s_addBoundChan_buckets
    (g g' : globals) (w : window) (origin scope : string) (h : chan_id) :
  s_addBoundChan w origin scope h g = (g', Ok tt) ->
  bucket (s_boundChans g') origin scope
  = Some (default [] (bucket (s_boundChans g) origin scope)
            ++ [ {| win := w; handler := h |} ])%list /\
  (forall o sc, (o, sc) <> (origin, scope) ->
     bucket (s_boundChans g') o sc = bucket (s_boundChans g) o sc).
Proof.
  intros H. apply s_addBoundChan_ok in H as [_ ->]. cbn [s_boundChans set_boundChans].
  split; [apply bucket_insert_eq |].
  intros o sc Hne.
  apply (bucket_update_ne _ (fun scopes => <[scope := _]> scopes) origin scope); [| done].
  intros scopes Hsc. by rewrite lookup_insert_ne.
Qed.

(** X1: a binding that [s_addBoundChan] accepts is entered at the end of the
    bucket of its origin and scope; every other bucket, the transaction
    router, the counter and the trace are as before.  (Origin and scope are
    names that no table inherits.) *)
Theorem s_addBoundChan_appends
    (g g' : globals) (w : window) (origin scope : string) (h : chan_id) :
  inherited origin = false -> inherited scope = false ->
  s_addBoundChan w origin scope h g = (g', Ok tt) ->
  bucket (s_boundChans g') origin scope
  = Some (default [] (bucket (s_boundChans g) origin scope)
            ++ [ {| win := w; handler := h |} ])%list /\
  (forall o sc, (o, sc) <> (origin, scope) ->
     bucket (s_boundChans g') o sc = bucket (s_boundChans g) o sc) /\
  s_transIds g' = s_transIds g /\ s_curTranId g' = s_curTranId g /\ trace g' = trace g.
Proof.
  intros _ _ H. apply s_addBoundChan_ok in H as [_ ->]. cbn [s_boundChans set_boundChans].
  split; [apply bucket_insert_eq |]. split; [| done].
  intros o sc Hne.
  apply (bucket_update_ne _ (fun scopes => <[scope := _]> scopes) origin scope); [| done].
  intros scopes Hsc. by rewrite lookup_insert_ne.
Qed.

Lemma s_addBoundChan_appends_witness :
  let g := glob page0 in
  let g' := fst (s_addBoundChan 1%nat "*" "a" 0%nat g) in
  bucket (s_boundChans g') "*" "a"
  = Some (default [] (bucket (s_boundChans g) "*" "a")
            ++ [ {| win := 1%nat; handler := 0%nat |} ])%list /\
  (forall o sc, (o, sc) <> ("*", "a") ->
     bucket (s_boundChans g') o sc = bucket (s_boundChans g) o sc) /\
  s_transIds g' = s_transIds g /\ s_curTranId g' = s_curTranId g /\ trace g' = trace g.
Proof.
  intros g g'. apply (s_addBoundChan_appends g g' 1%nat "*" "a" 0%nat).
  - reflexivity.
  - reflexivity.
  - vm_compute. reflexivity.
Defined.

(** X2: for an origin and a scope that are none of the names every object
    inherits from [Object.prototype], [s_addBoundChan] throws exactly when
    the registry holds a binding of the same window and scope under an
    origin that overlaps the new one: the other origin when exactly one of
    the two is the wildcard, the same origin or the wildcard when the new
    one is not the wildcard.  Whenever it throws, for such names, the state
    is as it was.  (Under an inherited scope name the lookups of the source
    find the inherited member, and the call can throw a [TypeError] with no
    overlapping binding: example [inherited_scope_is_refused].) *)
Theorem s_addBoundChan_refuses_exactly
    (g : globals) (w : window) (origin scope : string) (h : chan_id) :
  inherited origin = false -> inherited scope = false ->
  ((exists g' e, s_addBoundChan w origin scope h g = (g', Throw e)) <->
   (exists o arr b,
      bucket (s_boundChans g) o scope = Some arr /\ b ∈ arr /\ win b = w /\
      ((origin = "*" /\ o <> "*") \/ (origin <> "*" /\ (o = "*" \/ o = origin))))) /\
  (forall g' e, s_addBoundChan w origin scope h g = (g', Throw e) -> g' = g).
Proof.
  intros _ Hsc. split.
  - destruct (overlap_exists_spec (s_boundChans g) w origin scope Hsc) as (b & Hov & Hb).
    rewrite <- Hb. split.
    + intros (g' & e & He). apply s_addBoundChan_refused in He as [He _]; [| done]. congruence.
    + intros ->. unfold s_addBoundChan. rewrite Hov. eauto.
  - intros g' e He. by apply s_addBoundChan_refused in He as [_ ->].
Qed.

Lemma s_addBoundChan_refuses_exactly_witness :
  ((exists g' e, s_addBoundChan 1%nat "http://peer.example" "a" 1%nat (glob page_built)
                 = (g', Throw e)) <->
   (exists o arr b,
      bucket (s_boundChans (glob page_built)) o "a" = Some arr /\ b ∈ arr /\ win b = 1%nat /\
      (("http://peer.example" = "*" /\ o <> "*") \/
       ("http://peer.example" <> "*" /\ (o = "*" \/ o = "http://peer.example"))))) /\
  (forall g' e, s_addBoundChan 1%nat "http://peer.example" "a" 1%nat (glob page_built)
                = (g', Throw e) -> g' = glob page_built).
Proof.
  apply (s_addBoundChan_refuses_exactly (glob page_built) 1%nat "http://peer.example" "a"
           1%nat).
  - reflexivity.
  - reflexivity.
Defined.

(** With the scope [constructor], a binding for an origin other than the
    wildcard is refused with a [TypeError] as soon as the wildcard has a
    table of scopes, though no binding overlaps: the table of the wildcard
    inherits a [constructor], which [hasWin] cannot iterate. *)
Example inherited_scope_is_refused :
  s_addBoundChan 2%nat "http://peer.example" "constructor" 1%nat (glob page_built)
  = (glob page_built, Throw (not_iterable "constructor")) /\
  (forall o, bucket (s_boundChans (glob page_built)) o "constructor" = None).
Proof.
  split; [by vm_compute |]. intros o. unfold bucket.
  destruct (s_boundChans (glob page_built) !! o) as [scopes |] eqn:Ho; [| done].
  destruct (decide (o = "*")) as [-> | Hne].
  - vm_compute in Ho. injection Ho as <-. by vm_compute.
  - exfalso. revert Ho. change (s_boundChans (glob page_built))
      with (<["*" := <["a" := [ {| win := 1%nat; handler := 0%nat |} ]]> ∅]>
              (∅ : gmap string (gmap string (list bound)))).
    by rewrite lookup_insert_ne, lookup_empty.
Qed.

(** X3: right after a binding is accepted, a binding of the same window and
    scope is refused when its origin overlaps the first one: one of the two
    is the wildcard and the other is not, or both are the same origin other
    than the wildcard.  So the same window, origin and scope cannot be bound
    twice unless the origin is the wildcard. *)
Theorem overlapping_binding_refused
    (g g1 : globals) (w : window) (o1 o2 scope : string) (h1 h2 : chan_id) :
  inherited o1 = false -> inherited o2 = false -> inherited scope = false ->
  s_addBoundChan w o1 scope h1 g = (g1, Ok tt) ->
  (o1 = "*" /\ o2 <> "*") \/ (o1 <> "*" /\ (o2 = "*" \/ o2 = o1)) ->
  exists e, s_addBoundChan w o2 scope h2 g1 = (g1, Throw e).
Proof.
  intros _ _ Hsc Hadd Ho. apply s_addBoundChan_ok in Hadd as [_ ->].
  unfold s_addBoundChan at 1.
  destruct (overlap_exists_spec
              (s_boundChans (set_boundChans
                 (<[o1 := <[scope := (default [] (bucket (s_boundChans g) o1 scope)
                                       ++ [ {| win := w; handler := h1 |} ])%list]>
                            (default ∅ (s_boundChans g !! o1))]> (s_boundChans g)) g))
              w o2 scope Hsc) as (b & Hovb & Hb).
  assert (Hov : overlap_exists
                  (s_boundChans (set_boundChans
                     (<[o1 := <[scope := (default [] (bucket (s_boundChans g) o1 scope)
                                           ++ [ {| win := w; handler := h1 |} ])%list]>
                                (default ∅ (s_boundChans g !! o1))]> (s_boundChans g)) g))
                  w o2 scope = Ok true).
  { rewrite Hovb. f_equal. apply Hb.
    exists o1, (default [] (bucket (s_boundChans g) o1 scope)
                ++ [ {| win := w; handler := h1 |} ])%list, {| win := w; handler := h1 |}.
    cbn [s_boundChans set_boundChans]. rewrite bucket_insert_eq.
    split; [done |]. split; [apply elem_of_app; right; apply list_elem_of_singleton; done |].
    split; [done |]. destruct Ho as [[-> Hne] | [Hne [-> | ->]]]; [right | left | right]; auto. }
  rewrite Hov. eexists. reflexivity.
Qed.

Lemma overlapping_binding_refused_witness :
  exists e,
    s_addBoundChan 1%nat "http://peer.example" "a" 1%nat (glob page_built)
    = (glob page_built, Throw e).
Proof.
  apply (overlapping_binding_refused (glob page0) (glob page_built)
           1%nat "*" "http://peer.example" "a" 0%nat 1%nat).
  - reflexivity.
  - reflexivity.
  - reflexivity.
  - vm_compute. reflexivity.
  - left. split; [reflexivity | discriminate].
Defined.

(** ** [s_removeBoundChan] *)

Lemma s_removeBoundChan_ok (g g' : globals) (w : window) (origin scope : string) :
  s_removeBoundChan (Some w) (VStr origin) scope g = (g', Ok tt) ->
  exists scopes arr,
    s_boundChans g !! origin = Some scopes /\ scopes !! scope = Some arr /\
    g' = set_boundChans
           (<[origin :=
                let arr' := List.filter (fun b => negb (Nat.eqb (win b) w)) arr in
                if Nat.eqb (length arr') 0 then delete scope scopes
                else <[scope := arr']> scopes]> (s_boundChans g)) g.
Proof.
  unfold s_removeBoundChan. cbn [ToString].
  destruct (s_boundChans g !! origin) as [scopes |] eqn:Ho; [| discriminate].
  destruct (scopes !! scope) as [arr |] eqn:Hsc; [| discriminate].
  intros [= <-]. exists scopes, arr. split; [done |]. split; [done |].
  assert (Hf : List.filter (fun item => negb (bool_decide (Some (win item) = Some w))) arr
               = List.filter (fun b => negb (Nat.eqb (win b) w)) arr).
  { apply List.filter_ext. intros b. f_equal. case_bool_decide as Hb.
    - inversion Hb. symmetry. by apply Nat.eqb_eq.
    - symmetry. apply Nat.eqb_neq. congruence. }
  cbv zeta. by rewrite Hf.
Qed.

Lemma filter_length_0 {A : Type} (l : list A) : Nat.eqb (length l) 0 = true -> l = [].
Proof. by destruct l. Qed.

Lemma s_removeBoundChan_buckets
    (g g' : globals) (w : window) (origin scope : string) :
  s_removeBoundChan (Some w) (VStr origin) scope g = (g', Ok tt) ->
  default [] (bucket (s_boundChans g') origin scope)
  = List.filter (fun b => negb (Nat.eqb (win b) w))
      (default [] (bucket (s_boundChans g) origin scope)) /\
  bucket (s_boundChans g') origin scope <> Some [] /\
  (forall o sc, (o, sc) <> (origin, scope) ->
     bucket (s_boundChans g') o sc = bucket (s_boundChans g) o sc).
Proof.
  intros H. apply s_removeBoundChan_ok in H as (scopes & arr & Ho & Hsc & ->).
  cbn [s_boundChans set_boundChans]. cbv zeta.
  assert (Hb : bucket (s_boundChans g) origin scope = Some arr).
  { unfold bucket. by rewrite Ho. }
  rewrite Hb. cbn [default].
  set (arr' := List.filter (fun b => negb (Nat.eqb (win b) w)) arr).
  split; [| split].
  - destruct (Nat.eqb (length arr') 0) eqn:Hlen.
    + rewrite bucket_delete_eq. cbn [default]. symmetry. exact (filter_length_0 _ Hlen).
    + by rewrite bucket_insert_eq.
  - destruct (Nat.eqb (length arr') 0) eqn:Hlen.
    + by rewrite bucket_delete_eq.
    + rewrite bucket_insert_eq. intros [= Hnil]. by rewrite Hnil in Hlen.
  - intros o sc Hne.
    replace scopes with (default ∅ (s_boundChans g !! origin)) by (by rewrite Ho).
    apply (bucket_update_ne _
             (fun scopes => if Nat.eqb (length arr') 0 then delete scope scopes
                            else <[scope := arr']> scopes) origin scope); [| done].
    intros sc0 Hsc0. destruct (Nat.eqb (length arr') 0).
    + by rewrite lookup_delete_ne.
    + by rewrite lookup_insert_ne.
Qed.

(** X4: [s_removeBoundChan] takes out of the bucket of the origin and scope
    every binding of the window and nothing else: the bindings of other
    windows stay, in their order; a bucket left empty is deleted; no other
    bucket changes. *)
Theorem s_removeBoundChan_removes_window
    (g g' : globals) (w : window) (origin scope : string) :
  s_removeBoundChan (Some w) (VStr origin) scope g = (g', Ok tt) ->
  default [] (bucket (s_boundChans g') origin scope)
  = List.filter (fun b => negb (Nat.eqb (win b) w))
      (default [] (bucket (s_boundChans g) origin scope)) /\
  bucket (s_boundChans g') origin scope <> Some [] /\
  (forall o sc, (o, sc) <> (origin, scope) ->
     bucket (s_boundChans g') o sc = bucket (s_boundChans g) o sc).
Proof. apply s_removeBoundChan_buckets. Qed.

Lemma s_removeBoundChan_removes_window_witness :
  let g := glob two_channels in
  let g' := fst (s_removeBoundChan (Some 1%nat) (VStr "*") "a" g) in
  default [] (bucket (s_boundChans g') "*" "a")
  = List.filter (fun b => negb (Nat.eqb (win b) 1%nat))
      (default [] (bucket (s_boundChans g) "*" "a")) /\
  bucket (s_boundChans g') "*" "a" <> Some [] /\
  (forall o sc, (o, sc) <> ("*", "a") ->
     bucket (s_boundChans g') o sc = bucket (s_boundChans g) o sc).
Proof.
  intros g g'. apply (s_removeBoundChan_removes_window g g' 1%nat "*" "a").
  vm_compute. reflexivity.
Defined.

Lemma filter_other_windows (w : window) (arr : list bound) :
  hasWin w arr = false -> List.filter (fun b => negb (Nat.eqb (win b) w)) arr = arr.
Proof.
  induction arr as [| b arr IH]; [done |]. unfold hasWin. cbn [existsb List.filter].
  intros H. apply orb_false_iff in H as [Hb Harr]. rewrite Hb. cbn [negb].
  f_equal. by apply IH.
Qed.

(** X5: removing a binding right after it was added undoes the addition.
    When the window had no binding in the bucket, [s_removeBoundChan] after
    [s_addBoundChan] returns, and every bucket of the registry reads as it did
    before the two calls; nothing else of the state has changed. *)
Theorem s_removeBoundChan_undoes_add
    (g g1 : globals) (w : window) (origin scope : string) (h : chan_id) :
  inherited origin = false -> inherited scope = false ->
  hasWin w (default [] (bucket (s_boundChans g) origin scope)) = false ->
  bucket (s_boundChans g) origin scope <> Some [] ->
  s_addBoundChan w origin scope h g = (g1, Ok tt) ->
  exists bc,
    s_removeBoundChan (Some w) (VStr origin) scope g1 = (set_boundChans bc g, Ok tt) /\
    (forall o sc, bucket bc o sc = bucket (s_boundChans g) o sc).
Proof.
  intros Hio His Hwin Hnil Hadd.
  destruct (s_removeBoundChan (Some w) (VStr origin) scope g1) as [g2 r] eqn:Hrem.
  pose proof (s_addBoundChan_buckets g g1 w origin scope h Hadd) as (Hb1 & Hf1).
  apply s_addBoundChan_ok in Hadd as [_ Hg1].
  assert (Hr : r = Ok tt).
  { revert Hrem. unfold s_removeBoundChan. cbn [ToString]. rewrite Hg1.
    cbn [s_boundChans set_boundChans]. rewrite !lookup_insert_eq. by intros [= _ <-]. }
  subst r. pose proof (s_removeBoundChan_buckets g1 g2 w origin scope Hrem)
    as (Ha & Hne & Hf2).
  apply s_removeBoundChan_ok in Hrem as (scopes & arr & _ & _ & Hg2).
  exists (s_boundChans g2). split.
  - f_equal. rewrite Hg2, Hg1. by destruct g.
  - intros o sc. destruct (decide ((o, sc) = (origin, scope))) as [[= -> ->] | Hdiff].
    + rewrite Hb1 in Ha. cbn [default from_option id] in Ha.
      rewrite List.filter_app, (filter_other_windows _ _ Hwin) in Ha.
      cbn [List.filter win] in Ha. rewrite Nat.eqb_refl in Ha. cbn [negb] in Ha.
      rewrite app_nil_r in Ha.
      destruct (bucket (s_boundChans g2) origin scope) as [a2 |] eqn:E2;
        destruct (bucket (s_boundChans g) origin scope) as [a0 |] eqn:E0;
        cbn [default from_option id] in Ha; subst; done.
    + by rewrite Hf2, Hf1.
Qed.

Lemma s_removeBoundChan_undoes_add_witness :
  exists bc,
    s_removeBoundChan (Some 2%nat) (VStr "*") "a" (glob (exec (build (plain_cfg 2%nat "*" "a")) page_built))
    = (set_boundChans bc (glob page_built), Ok tt) /\
    (forall o sc, bucket bc o sc = bucket (s_boundChans (glob page_built)) o sc).
Proof.
  apply (s_removeBoundChan_undoes_add (glob page_built) _ 2%nat "*" "a" 1%nat).
  - reflexivity.
  - reflexivity.
  - vm_compute. reflexivity.
  - vm_compute. discriminate.
  - vm_compute. reflexivity.
Defined.

(** ** [bind] and [unbind] *)

Lemma set_regTbl_same (c : chan) : set_regTbl (regTbl c) c = c.
Proof. by destruct c. Qed.

Lemma bind_new (name : string) (h : method_handler) (s : st) :
  name <> "" -> member (regTbl (snd s)) name = Nothing ->
  bind (VStr name) (Some h) s
  = ((fst s, set_regTbl (<[name := h]> (regTbl (snd s))) (snd s)), Ok tt).
Proof.
  intros Hne Hreg. unfold bind. cbn [truthy typeof ToString].
  apply String.eqb_neq in Hne. rewrite Hne. cbn [negb orb String.eqb Ascii.eqb Bool.eqb].
  rewrite bind_getC. by rewrite Hreg.
Qed.

(** A [bind] that returns was given a non-empty string and a function, and
    the method was not bound. *)
Lemma bind_inv (method : value) (cb : option method_handler) (s s' : st) :
  bind method cb s = (s', Ok tt) ->
  exists name h, method = VStr name /\ name <> "" /\ cb = Some h /\
                 member (regTbl (snd s)) name = Nothing.
Proof.
  unfold bind.
  destruct (negb (truthy method) || negb (String.eqb (typeof method) "string")) eqn:Hc;
    [discriminate |].
  apply orb_false_iff in Hc as [Ht Hs].
  destruct method as [| | | | name | | | |]; try discriminate Hs.
  cbn [truthy] in Ht. destruct (String.eqb_spec name "") as [-> | Hne];
    [discriminate Ht |].
  cbn [ToString].
  destruct cb as [h |]; [| discriminate]. rewrite bind_getC.
  destruct (member (regTbl (snd s)) name) eqn:Hreg; try discriminate.
  intros _. by exists name, h.
Qed.

Lemma bind_throws_unchanged (method : value) (cb : option method_handler) (s s' : st)
    (e : value) :
  bind method cb s = (s', Throw e) -> s' = s.
Proof.
  unfold bind. destruct (_ || _); [by intros [= <-] |].
  destruct cb as [h |]; [| by intros [= <-]]. rewrite bind_getC.
  destruct (member (regTbl (snd s)) (ToString method)); try discriminate; by intros [= <-].
Qed.

(** X6: [bind] returns exactly when the method is a non-empty string, the
    callback is a function, and [regTbl] has nothing under the method: it is
    not bound yet, and it is none of the names that every object inherits
    from [Object.prototype] ([constructor], [toString], ...), which [bind]
    finds in the table and takes for bound.  A [bind] that throws leaves the
    channel as it was. *)
Theorem bind_succeeds_exactly (method : value) (cb : option method_handler) (s : st) :
  ((exists s', bind method cb s = (s', Ok tt)) <->
   (exists name h, method = VStr name /\ name <> "" /\ cb = Some h /\
                   regTbl (snd s) !! name = None /\ inherited name = false)) /\
  (forall s' e, bind method cb s = (s', Throw e) -> s' = s).
Proof.
  split; [split |].
  - intros [s' H]. apply bind_inv in H as (name & h & -> & Hne & -> & Hm).
    apply member_nothing in Hm as [? ?]. by exists name, h.
  - intros (name & h & -> & Hne & -> & Hreg & Hk). eexists.
    apply bind_new; [done |]. by apply member_nothing.
  - intros s' e. apply bind_throws_unchanged.
Qed.

(** On a channel just built, [constructor] cannot be bound. *)
Example bind_constructor_throws :
  bind (VStr "constructor") (Some (HUser echo)) (glob page_built, built_chan)
  = ((glob page_built, built_chan), Throw (Error "method 'constructor' is already bound!")).
Proof. reflexivity. Qed.

(** X7: [unbind] undoes [bind].  After a [bind] that returned (of a name that
    no table inherits), [unbind] of the same method returns [true] and the
    channel is exactly as it was before the [bind]; a second [bind] of the
    method right after the first one throws and changes nothing. *)
Theorem unbind_undoes_bind (method : value) (cb cb' : option method_handler) (s s1 : st) :
  (forall name, method = VStr name -> inherited name = false) ->
  bind method cb s = (s1, Ok tt) ->
  unbind method s1 = (s, Ok true) /\
  (exists e, bind method cb' s1 = (s1, Throw e)).
Proof.
  intros _ Hb. destruct (bind_inv _ _ _ _ Hb) as (name & h & -> & Hne & -> & Hreg).
  rewrite (bind_new name h s Hne Hreg) in Hb. injection Hb as <-.
  apply member_nothing in Hreg as [Hreg _].
  destruct s as [g c]. cbn [fst snd] in *. split.
  - unfold unbind. rewrite bind_getC. cbn [snd regTbl set_regTbl ToString].
    rewrite (member_own _ _ h) by apply lookup_insert_eq.
    rewrite bind_modC. cbn [fst snd regTbl set_regTbl].
    unfold m_ret. rewrite delete_insert_id by done. do 2 f_equal. by destruct c.
  - unfold bind. cbn [truthy typeof ToString].
    apply String.eqb_neq in Hne. rewrite Hne.
    cbn [negb orb String.eqb Ascii.eqb Bool.eqb].
    destruct cb' as [h' |]; [| eexists; reflexivity].
    rewrite bind_getC. cbn [snd regTbl set_regTbl].
    rewrite (member_own _ _ h) by apply lookup_insert_eq.
    eexists. reflexivity.
Qed.

Lemma unbind_undoes_bind_witness :
  let s := (glob page_built, built_chan) in
  let s1 := exec (bind (VStr "m") (Some (HUser echo))) s in
  unbind (VStr "m") s1 = (s, Ok true) /\
  (exists e, bind (VStr "m") (Some (HUser delaying)) s1 = (s1, Throw e)).
Proof.
  intros s s1.
  apply (unbind_undoes_bind (VStr "m") (Some (HUser echo)) (Some (HUser delaying)) s s1).
  - intros name [= <-]. reflexivity.
  - reflexivity.
Defined.

(** ** Scoped method names: [split] at the double colon *)

Lemma append_nil_r (s : string) : s +:+ "" = s.
Proof. induction s as [| c s IH]; [done |]. unfold String.app in *. cbn. by rewrite IH. Qed.

Lemma append_assoc (a b c : string) : (a +:+ b) +:+ c = a +:+ b +:+ c.
Proof.
  induction a as [| x a IH]; [done |]. unfold String.app in *. cbn. by rewrite IH.
Qed.

Lemma rev_app_append (a b s : string) :
  String.rev_app a b +:+ s = String.rev_app a (b +:+ s).
Proof. revert b. induction a as [| c a IH]; intros b; [done |]. cbn. by rewrite IH. Qed.

Lemma rev_cons_append (c : Ascii.ascii) (cur s : string) :
  String.rev (String c cur) +:+ s = String.rev cur +:+ String c s.
Proof. unfold String.rev. cbn. by rewrite !rev_app_append. Qed.

(** Without an occurrence of the separator, [split] returns the string whole. *)
Lemma split_go_whole (sep s : string) :
  forall cur, occurs sep s = false -> split_go sep s 0 cur = [String.rev cur +:+ s].
Proof.
  induction s as [| c s IH]; intros cur H.
  - cbn. by rewrite append_nil_r.
  - cbn [occurs] in H. apply orb_false_iff in H as [Hp Ho].
    cbn [split_go]. rewrite Hp. rewrite IH by done. by rewrite rev_cons_append.
Qed.

Lemma split_whole (sep s : string) : occurs sep s = false -> split sep s = [s].
Proof. intros H. unfold split. by rewrite split_go_whole. Qed.

(** With an occurrence of the double colon, it returns two pieces at least. *)
Lemma split_go_pieces (s : string) :
  forall cur, occurs "::" s = true -> (1 < length (split_go "::" s 0 cur))%nat.
Proof.
  induction s as [| c s IH]; intros cur H; [discriminate H |].
  cbn [occurs] in H. cbn [split_go].
  destruct (String.prefix "::" (String c s)) eqn:Hp.
  - cbn [length]. pose proof (split_go_nonempty "::" s (String.length "::" - 1) "") as Hne.
    destruct (split_go "::" s (String.length "::" - 1) ""); [done | cbn; lia].
  - cbn [orb] in H. by apply IH.
Qed.

Lemma scope_check (sc : string) :
  Nat.ltb 1 (length (split "::" sc)) = occurs "::" sc.
Proof.
  destruct (occurs "::" sc) eqn:H.
  - apply Nat.ltb_lt. by apply split_go_pieces.
  - by rewrite split_whole.
Qed.

Lemma prefix_append (a b : string) : String.prefix a (a +:+ b) = true.
Proof.
  induction a as [| c a IH]; [by destruct b |].
  change (String c a +:+ b) with (String c (a +:+ b)). cbn [String.prefix].
  by destruct (Ascii.ascii_dec c c).
Qed.

Lemma prefix_colons (c : Ascii.ascii) (a y : string) :
  String.prefix "::" (String c (a +:+ ":")) = false ->
  String.prefix "::" (String c (a +:+ "::" +:+ y)) = false.
Proof.
  cbn [String.prefix]. destruct (Ascii.ascii_dec _ c) as [<- | Hne]; [| done].
  destruct a as [| d a]; [done |].
  change (String d a +:+ ":") with (String d (a +:+ ":")).
  change (String d a +:+ "::" +:+ y) with (String d (a +:+ "::" +:+ y)).
  cbn [String.prefix]. destruct (Ascii.ascii_dec _ d); [| done].
  assert (Hp : forall s, String.prefix "" s = true) by (by intros [|]).
  rewrite Hp. discriminate.
Qed.

(** The first double colon of [a::m], when [a] has none and does not end in
    a colon, is the one that separates the two. *)
Lemma split_go_first (a m : string) :
  forall cur, occurs "::" (a +:+ ":") = false ->
  split_go "::" (a +:+ "::" +:+ m) 0 cur = (String.rev cur +:+ a) :: split_go "::" m 0 "".
Proof.
  induction a as [| c a IH]; intros cur H.
  - change ("" +:+ "::" +:+ m) with ("::" +:+ m).
    pose proof (prefix_append "::" m) as Hp. revert Hp.
    change ("::" +:+ m) with (String (Ascii.ascii_of_nat 58) (String (Ascii.ascii_of_nat 58) m)).
    intros Hp. cbn [split_go]. rewrite Hp. cbn [String.length Nat.sub split_go].
    by rewrite append_nil_r.
  - change (String c a +:+ ":") with (String c (a +:+ ":")) in H.
    cbn [occurs] in H. apply orb_false_iff in H as [Hp Ho].
    change (String c a +:+ "::" +:+ m) with (String c (a +:+ "::" +:+ m)).
    cbn [split_go]. rewrite (prefix_colons c a m Hp).
    rewrite IH by done. by rewrite rev_cons_append.
Qed.

Lemma split_scoped (sc name : string) :
  occurs "::" (sc +:+ ":") = false -> occurs "::" name = false ->
  split "::" (sc +:+ "::" +:+ name) = [sc; name].
Proof.
  intros Hsc Hname. unfold split. rewrite split_go_first by done.
  by rewrite split_go_whole.
Qed.

(** ** The origin a channel is built with *)

Lemma take_while_spec (p : Ascii.ascii -> bool) (s : string) :
  forall a b, take_while p s = (a, b) ->
    s = a +:+ b /\ all_chars p a = true /\
    (b = "" \/ exists c b', b = String c b' /\ p c = false).
Proof.
  induction s as [| c s IH]; intros a b H.
  - injection H as <- <-. split; [done |]. split; [done | by left].
  - cbn [take_while] in H. destruct (p c) eqn:Hc.
    + destruct (take_while p s) as [a' b'] eqn:E. injection H as <- <-.
      destruct (IH a' b' eq_refl) as (-> & Ha & Hb).
      split; [done |]. split; [cbn; by rewrite Hc, Ha | done].
    + injection H as <- <-. split; [done |]. split; [done |]. right. by exists c, s.
Qed.

Lemma take_while_app (p : Ascii.ascii -> bool) (a b : string) :
  all_chars p a = true ->
  (b = "" \/ exists c b', b = String c b' /\ p c = false) ->
  take_while p (a +:+ b) = (a, b).
Proof.
  intros Ha Hb. induction a as [| c a IH].
  - change ("" +:+ b) with b. destruct Hb as [-> | (c & b' & -> & Hc)]; [done |].
    cbn [take_while]. by rewrite Hc.
  - cbn [all_chars] in Ha. apply andb_true_iff in Ha as [Hc Ha].
    change (String c a +:+ b) with (String c (a +:+ b)). cbn [take_while].
    by rewrite Hc, IH.
Qed.

Lemma drop_chars_app (a b : string) : drop_chars (String.length a) (a +:+ b) = b.
Proof. induction a as [| c a IH]; [by destruct b | exact IH]. Qed.

Lemma toLowerCase_app (a b : string) :
  toLowerCase (a +:+ b) = toLowerCase a +:+ toLowerCase b.
Proof.
  induction a as [| c a IH]; [done |].
  change (String c a +:+ b) with (String c (a +:+ b)). cbn [toLowerCase]. by rewrite IH.
Qed.

Lemma lower_char_host (c : Ascii.ascii) :
  is_host_char c = true -> is_host_char (lower_char c) = true.
Proof. destruct c as [[] [] [] [] [] [] [] []]; intros H; try discriminate H; reflexivity. Qed.

Lemma lower_char_idem (c : Ascii.ascii) : lower_char (lower_char c) = lower_char c.
Proof. by destruct c as [[] [] [] [] [] [] [] []]. Qed.

Lemma lower_char_digit (c : Ascii.ascii) : is_digit c = true -> lower_char c = c.
Proof. destruct c as [[] [] [] [] [] [] [] []]; intros H; try discriminate H; reflexivity. Qed.

Lemma toLowerCase_host (s : string) :
  all_chars is_host_char s = true -> all_chars is_host_char (toLowerCase s) = true.
Proof.
  induction s as [| c s IH]; [done |]. cbn [all_chars toLowerCase]. intros H.
  apply andb_true_iff in H as [Hc Hs]. by rewrite (lower_char_host c Hc), IH.
Qed.

Lemma toLowerCase_idem (s : string) : toLowerCase (toLowerCase s) = toLowerCase s.
Proof.
  induction s as [| c s IH]; [done |]. cbn [toLowerCase]. by rewrite lower_char_idem, IH.
Qed.

Lemma toLowerCase_digits (s : string) : all_chars is_digit s = true -> toLowerCase s = s.
Proof.
  induction s as [| c s IH]; [done |]. cbn [all_chars toLowerCase]. intros H.
  apply andb_true_iff in H as [Hc Hs]. by rewrite (lower_char_digit c Hc), IH.
Qed.

Lemma length_0 (s : string) : Nat.eqb (String.length s) 0 = true <-> s = "".
Proof. by destruct s. Qed.

Lemma origin_match_shape (s matched : string) :
  origin_match s = Some matched ->
  exists sch host port, matched = sch +:+ host +:+ port /\ origin_shape sch host port.
Proof.
  unfold origin_match.
  assert (Hgo : forall sch, (sch = "https://" \/ sch = "http://") ->
    (let '(host, rest) := take_while is_host_char (drop_chars (String.length sch) s) in
     if Nat.eqb (String.length host) 0 then None
     else match rest with
          | String c rest' =>
              let '(digits, _) := take_while is_digit rest' in
              if Nat.eqb (Ascii.nat_of_ascii c) 58 && negb (Nat.eqb (String.length digits) 0)
              then Some (sch +:+ host +:+ ":" +:+ digits)
              else Some (sch +:+ host)
          | EmptyString => Some (sch +:+ host)
          end) = Some matched ->
    exists sch host port, matched = sch +:+ host +:+ port /\ origin_shape sch host port).
  { intros sch Hsch.
    destruct (take_while is_host_char _) as [host rest] eqn:Eh.
    apply take_while_spec in Eh as (_ & Hhost & _).
    destruct (Nat.eqb (String.length host) 0) eqn:Hlen; [discriminate |].
    assert (Hne : host <> "") by (intros ->; discriminate Hlen).
    assert (Hplain : exists sch0 host0 port, sch +:+ host = sch0 +:+ host0 +:+ port /\
                                              origin_shape sch0 host0 port).
    { exists sch, host, "". rewrite append_nil_r. split; [done |].
      split; [done |]. split; [done |]. split; [done | by left]. }
    destruct rest as [| c rest']; [by intros [= <-] |].
    destruct (take_while is_digit rest') as [digits r] eqn:Ed.
    apply take_while_spec in Ed as (_ & Hdig & _).
    destruct (Nat.eqb (Ascii.nat_of_ascii c) 58 && _) eqn:Hport; [| by intros [= <-]].
    apply andb_true_iff in Hport as [_ Hd]. apply negb_true_iff in Hd.
    intros [= <-]. exists sch, host, (":" +:+ digits). split; [done |].
    split; [done |]. split; [done |]. split; [done |]. right. exists digits.
    split; [done |]. split; [| done]. intros ->. discriminate Hd. }
  destruct (String.prefix "https://" s); [apply Hgo; by left |].
  destruct (String.prefix "http://" s); [apply Hgo; by right | discriminate].
Qed.

(** A string of that shape, in lower case, followed by nothing or by a path,
    matches as itself. *)
Lemma origin_match_normal (sch host port tail : string) :
  origin_shape sch host port ->
  (tail = "" \/ exists rest, tail = "/" +:+ rest) ->
  origin_match (sch +:+ host +:+ port +:+ tail) = Some (sch +:+ host +:+ port).
Proof.
  intros (Hsch & Hne & Hhost & Hport) Htail. unfold origin_match.
  assert (Hscheme :
    (if String.prefix "https://" (sch +:+ host +:+ port +:+ tail) then Some "https://"
     else if String.prefix "http://" (sch +:+ host +:+ port +:+ tail) then Some "http://"
          else None) = Some sch).
  { destruct Hsch as [-> | ->]; [by rewrite prefix_append |].
    rewrite (prefix_append "http://").
    assert (String.prefix "https://" ("http://" +:+ host +:+ port +:+ tail) = false) as ->
      by (by vm_compute).
    done. }
  rewrite Hscheme. rewrite drop_chars_app.
  destruct Hport as [-> | (digits & -> & Hdne & Hdig)].
  - change ("" +:+ tail) with tail. rewrite append_nil_r.
    rewrite (take_while_app is_host_char host tail Hhost).
    2: { destruct Htail as [-> | (rest & ->)]; [by left |]. right. by eexists _, _. }
    destruct (Nat.eqb (String.length host) 0) eqn:Hlen;
      [by apply length_0 in Hlen |].
    destruct Htail as [-> | (rest & ->)]; [done |].
    change ("/" +:+ rest) with (String (Ascii.ascii_of_nat 47) rest). cbv iota.
    destruct (take_while is_digit rest) as [d r]. reflexivity.
  - rewrite (take_while_app is_host_char host ((":" +:+ digits) +:+ tail) Hhost).
    2: { right. by eexists _, _. }
    destruct (Nat.eqb (String.length host) 0) eqn:Hlen;
      [by apply length_0 in Hlen |].
    change ((":" +:+ digits) +:+ tail) with (String (Ascii.ascii_of_nat 58) (digits +:+ tail)).
    cbv iota.
    rewrite (take_while_app is_digit digits tail Hdig).
    2: { destruct Htail as [-> | (rest & ->)]; [by left |]. right. by eexists _, _. }
    destruct (Nat.eqb (String.length digits) 0) eqn:Hdl;
      [by apply length_0 in Hdl |].
    reflexivity.
Qed.

Lemma origin_normal_form (s matched : string) :
  origin_match s = Some matched ->
  exists sch host port,
    toLowerCase matched = sch +:+ host +:+ port /\ origin_shape sch host port /\
    toLowerCase host = host.
Proof.
  intros H. apply origin_match_shape in H as (sch & host & port & -> & Hsch & Hne & Hh & Hp).
  exists sch, (toLowerCase host), port. rewrite !toLowerCase_app.
  assert (toLowerCase sch = sch) as -> by (by destruct Hsch as [-> | ->]).
  assert (toLowerCase port = port) as ->.
  { destruct Hp as [-> | (digits & -> & _ & Hd)]; [done |].
    rewrite toLowerCase_app, (toLowerCase_digits digits Hd). done. }
  split; [done |]. split; [| apply toLowerCase_idem].
  split; [done |]. split; [by destruct host |]. split; [by apply toLowerCase_host | done].
Qed.

Lemma validate_origin_normal (sch host port tail : string) :
  origin_shape sch host port -> toLowerCase host = host ->
  (tail = "" \/ exists rest, tail = "/" +:+ rest) ->
  validate_origin (VStr ((sch +:+ host +:+ port) +:+ tail)) = Some (sch +:+ host +:+ port).
Proof.
  intros Hshape Hlow Htail. unfold validate_origin.
  assert (String.eqb ((sch +:+ host +:+ port) +:+ tail) "*" = false) as ->.
  { destruct Hshape as ([-> | ->] & _); by vm_compute. }
  rewrite !append_assoc. rewrite (origin_match_normal sch host port tail Hshape Htail).
  rewrite !toLowerCase_app, Hlow. destruct Hshape as (Hsch & _ & _ & Hp).
  assert (toLowerCase sch = sch) as -> by (by destruct Hsch as [-> | ->]).
  assert (toLowerCase port = port) as ->; [| done].
  destruct Hp as [-> | (digits & -> & _ & Hd)]; [done |].
  rewrite toLowerCase_app, (toLowerCase_digits digits Hd). done.
Qed.

(** X8: the origin [build] keeps is a normal form.  An origin that passes
    the validation comes out in lower case and without its path; validating
    the result again gives the same result, and so does validating the
    result followed by any path. *)
Theorem validate_origin_normalizes (s o : string) :
  validate_origin (VStr s) = Some o ->
  toLowerCase o = o /\
  validate_origin (VStr o) = Some o /\
  (s <> "*" -> forall path, validate_origin (VStr (o +:+ "/" +:+ path)) = Some o).
Proof.
  unfold validate_origin at 1. destruct (String.eqb_spec s "*") as [-> | Hne].
  - intros [= <-]. done.
  - destruct (origin_match s) as [matched |] eqn:Hm; [| discriminate]. intros [= <-].
    apply origin_normal_form in Hm as (sch & host & port & -> & Hshape & Hlow).
    split; [| split].
    + rewrite !toLowerCase_app, Hlow. destruct Hshape as (Hsch & _ & _ & Hp).
      assert (toLowerCase sch = sch) as -> by (by destruct Hsch as [-> | ->]).
      assert (toLowerCase port = port) as ->; [| done].
      destruct Hp as [-> | (digits & -> & _ & Hd)]; [done |].
      rewrite toLowerCase_app, (toLowerCase_digits digits Hd). done.
    + rewrite <- (append_nil_r (sch +:+ host +:+ port)) at 1.
      apply validate_origin_normal; [done | done | by left].
    + intros _ path. apply validate_origin_normal; [done | done |]. right. by exists path.
Qed.

Lemma validate_origin_normalizes_witness :
  let s := "https://Peer.Example:8080/some/page?q=1" in
  let o := "https://peer.example:8080" in
  toLowerCase o = o /\
  validate_origin (VStr o) = Some o /\
  (s <> "*" -> forall path, validate_origin (VStr (o +:+ "/" +:+ path)) = Some o).
Proof.
  intros s o. apply (validate_origin_normalizes s o). vm_compute. reflexivity.
Defined.

(** ** [Channel.build] *)

Lemma proc_same (p : proc) :
  {| glob := glob p; chans := chans p; next_chan := next_chan p |} = p.
Proof. by destruct p. Qed.

(** [obj.bind('__ready', onReady)] on the empty table of a new channel. *)
Ltac bind_ready :=
  match goal with
  | |- context [m_bind (bind (VStr "__ready") (Some HReady)) ?k ?s0] =>
      rewrite (m_bind_ok _ k s0 _ _ (bind_new "__ready" HReady s0 ltac:(done) member_ready))
  end.

(** A [build] that returns: what it checked and the state it leaves. *)
Lemma build_ok (c : config) (p p' : proc) (me : chan_id) :
  build c p = (p', Ok me) ->
  exists w origin g,
    cfg_window c = Some w /\ w <> this_window /\
    validate_origin (cfg_origin c) = Some origin /\
    s_addBoundChan w origin (scope_of c) (next_chan p) (glob p) = (g, Ok tt) /\
    me = next_chan p /\
    p' = {| glob := if is_child c
                    then set_timers (timers g ++ [PingTimer (next_chan p)]) g else g;
            chans := <[next_chan p := fresh_chan (next_chan p) c origin]> (chans p);
            next_chan := S (next_chan p) |}.
Proof.
  unfold build.
  destruct (negb (has_postMessage _)); [discriminate |].
  destruct (negb (has_JSON _)); [discriminate |].
  destruct (cfg_window c) as [w |]; [| discriminate].
  destruct (Nat.eqb this_window w) eqn:Hw; [discriminate |].
  destruct (validate_origin (cfg_origin c)) as [origin |]; [| discriminate].
  destruct (match cfg_scope c with VUndefined => _ | _ => _ end); [discriminate |].
  fold (scope_of c).
  destruct (s_addBoundChan w origin (scope_of c) (next_chan p) (glob p))
    as [g [[] | e]] eqn:Hadd; [| discriminate].
  bind_ready.
  cbn [fst snd regTbl set_regTbl]. fold (is_child c). intros Hres.
  exists w, origin, g. split; [done |].
  split; [intros ->; discriminate Hw |]. split; [done |]. split; [done |].
  destruct (is_child c); injection Hres as <- <-; done.
Qed.

(** A [build] that throws leaves the page as it was, unless the scope is
    [__proto__], under which [s_addBoundChan] may have created the table of
    the origin before it throws. *)
Lemma s_addBoundChan_throws_unchanged
    (g g' : globals) (w : window) (origin scope : string) (h : chan_id) (e : value) :
  scope <> "__proto__" -> s_addBoundChan w origin scope h g = (g', Throw e) -> g' = g.
Proof.
  intros Hne. unfold s_addBoundChan.
  destruct (overlap_exists _ _ _ _) as [[] | e']; try by intros [= <- _].
  destruct (member _ _); try discriminate.
  destruct (String.eqb_spec scope "__proto__"); [done | discriminate].
Qed.

(** Whatever it does, [s_addBoundChan] writes the registry only, and a
    [build] that throws has done no more than that. *)
Lemma s_addBoundChan_writes (w : window) (origin scope : string) (h : chan_id) (g : globals) :
  exists bc, fst (s_addBoundChan w origin scope h g) = set_boundChans bc g.
Proof.
  unfold s_addBoundChan.
  destruct (overlap_exists _ _ _ _) as [[] | e];
    try (exists (s_boundChans g); by destruct g).
  destruct (member _ _); [| destruct (String.eqb scope "__proto__") |]; eexists; reflexivity.
Qed.

Lemma build_throws_registry (c : config) (p p' : proc) (e : value) :
  build c p = (p', Throw e) ->
  exists bc, p' = {| glob := set_boundChans bc (glob p); chans := chans p;
                     next_chan := next_chan p |}.
Proof.
  assert (Hsame : exists bc, p = {| glob := set_boundChans bc (glob p); chans := chans p;
                                    next_chan := next_chan p |}).
  { exists (s_boundChans (glob p)). destruct p as [g ? ?]. by destruct g. }
  unfold build.
  destruct (negb (has_postMessage _)); [by intros [= <-] |].
  destruct (negb (has_JSON _)); [by intros [= <-] |].
  destruct (cfg_window c) as [w |]; [| by intros [= <-]].
  destruct (Nat.eqb this_window w) eqn:Hw; [by intros [= <-] |].
  destruct (validate_origin (cfg_origin c)) as [origin |]; [| by intros [= <-]].
  destruct (match cfg_scope c with VUndefined => _ | _ => _ end); [by intros [= <-] |].
  fold (scope_of c).
  destruct (s_addBoundChan_writes w origin (scope_of c) (next_chan p) (glob p)) as [bc Hbc].
  destruct (s_addBoundChan w origin (scope_of c) (next_chan p) (glob p))
    as [g [[] | e']] eqn:Hadd.
  - bind_ready. by destruct (_ && _).
  - intros [= <- _]. cbn [fst] in Hbc. rewrite Hbc. by exists bc.
Qed.

Lemma build_throws (c : config) (p p' : proc) (e : value) :
  scope_of c <> "__proto__" -> build c p = (p', Throw e) -> p' = p.
Proof.
  intros Hproto. unfold build.
  destruct (negb (has_postMessage _)); [by intros [= <-] |].
  destruct (negb (has_JSON _)); [by intros [= <-] |].
  destruct (cfg_window c) as [w |]; [| by intros [= <-]].
  destruct (Nat.eqb this_window w) eqn:Hw; [by intros [= <-] |].
  destruct (validate_origin (cfg_origin c)) as [origin |]; [| by intros [= <-]].
  destruct (match cfg_scope c with VUndefined => _ | _ => _ end); [by intros [= <-] |].
  fold (scope_of c).
  destruct (s_addBoundChan w origin (scope_of c) (next_chan p) (glob p))
    as [g [[] | e']] eqn:Hadd.
  - bind_ready.
    by destruct (_ && _).
  - intros [= <- _]. apply s_addBoundChan_throws_unchanged in Hadd as ->; [| done].
    apply proc_same.
Qed.

(** X9: for a scope that is none of the names every object inherits from
    [Object.prototype], [build] returns exactly when the browser has
    [postMessage] and [JSON], the window given is a window other than the
    present one, the origin passes the validation, the scope is absent or a
    string without a double colon, and the registry holds no binding of the
    same window and scope under an origin that overlaps the new one.  A
    [build] that throws, for such a scope, leaves the state of the module as
    it was: the registry, the channels, the tables and the timers.  (The
    [cfg] object is the caller's; [build] has by then normalized its origin
    in place if the origin passed the validation.) *)
Theorem build_succeeds_exactly (c : config) (p : proc) :
  inherited (scope_of c) = false ->
  ((exists p' me, build c p = (p', Ok me)) <->
   has_postMessage (env (glob p)) = true /\ has_JSON (env (glob p)) = true /\
   exists w origin,
     cfg_window c = Some w /\ w <> this_window /\
     validate_origin (cfg_origin c) = Some origin /\
     (cfg_scope c = VUndefined \/
      exists sc, cfg_scope c = VStr sc /\ occurs "::" sc = false) /\
     ~ (exists o arr b,
          bucket (s_boundChans (glob p)) o (scope_of c) = Some arr /\ b ∈ arr /\ win b = w /\
          ((origin = "*" /\ o <> "*") \/ (origin <> "*" /\ (o = "*" \/ o = origin))))) /\
  (forall p' e, build c p = (p', Throw e) -> p' = p).
Proof.
  intros Hsc. split.
  2: { intros p' e. apply build_throws. intros Heq. rewrite Heq in Hsc. by vm_compute in Hsc. }
  unfold build.
  destruct (has_postMessage (env (glob p))); cbn [negb];
    [| split; [by intros (? & ? & ?) | by intros (? & _)]].
  destruct (has_JSON (env (glob p))); cbn [negb];
    [| split; [by intros (? & ? & ?) | by intros (_ & ? & _)]].
  destruct (cfg_window c) as [w |];
    [| split; [by intros (? & ? & ?) | by intros (_ & _ & ? & ? & ? & _)]].
  destruct (Nat.eqb this_window w) eqn:Hw.
  { split; [by intros (? & ? & ?) |]. intros (_ & _ & w' & o & [= <-] & Hne & _).
    apply Nat.eqb_eq in Hw. by destruct Hne. }
  destruct (validate_origin (cfg_origin c)) as [origin |];
    [| split; [by intros (? & ? & ?) | by intros (_ & _ & ? & ? & _ & _ & ? & _)]].
  assert (Hscope :
    match cfg_scope c with
    | VUndefined => None
    | VStr sc => if Nat.ltb 1 (length (split "::" sc))
                 then Some (Error "scope may not contain double colons: '::'") else None
    | _ => Some (Error "scope, when specified, must be a string")
    end = None <->
    (cfg_scope c = VUndefined \/ exists sc, cfg_scope c = VStr sc /\ occurs "::" sc = false)).
  { destruct (cfg_scope c) as [| | | | sc | | | |]; try (split; [done | by intros [? | (? & ? & _)]]).
    - split; [by left | done].
    - rewrite scope_check. destruct (occurs "::" sc) eqn:Ho.
      + split; [done |]. intros [? | (sc' & [= <-] & Hf)]; [done | congruence].
      + split; [| done]. intros _. right. by exists sc. }
  destruct (match cfg_scope c with VUndefined => _ | _ => _ end) as [e |].
  { split; [by intros (? & ? & ?) |]. intros (_ & _ & w' & o & _ & _ & _ & Hs & _).
    by apply Hscope in Hs. }
  fold (scope_of c).
  destruct (overlap_exists_spec (s_boundChans (glob p)) w origin (scope_of c) Hsc)
    as (b & Hov & Hb).
  destruct (s_addBoundChan w origin (scope_of c) (next_chan p) (glob p))
    as [g [[] | e]] eqn:Hadd.
  - apply s_addBoundChan_ok in Hadd as [Hf _]. rewrite Hov in Hf. injection Hf as ->.
    bind_ready.
    split.
    + intros _. split; [done |]. split; [done |]. exists w, origin.
      split; [done |]. split; [intros ->; discriminate Hw |]. split; [done |].
      split; [by apply Hscope |]. intros Hex. by apply Hb in Hex.
    + intros _. destruct (_ && _); eexists _, _; reflexivity.
  - apply s_addBoundChan_refused in Hadd as [Ht _]; [| done].
    rewrite Hov in Ht. injection Ht as ->.
    split; [by intros (? & ? & ?) |].
    intros (_ & _ & w' & o & [= <-] & _ & [= <-] & _ & Hf). exfalso. apply Hf. by apply Hb.
Qed.

Lemma build_succeeds_exactly_witness :
  let c := plain_cfg 1%nat "http://peer.example" "a" in
  ((exists p' me, build c page0 = (p', Ok me)) <->
   has_postMessage (env (glob page0)) = true /\ has_JSON (env (glob page0)) = true /\
   exists w origin,
     cfg_window c = Some w /\ w <> this_window /\
     validate_origin (cfg_origin c) = Some origin /\
     (cfg_scope c = VUndefined \/
      exists sc, cfg_scope c = VStr sc /\ occurs "::" sc = false) /\
     ~ (exists o arr b,
          bucket (s_boundChans (glob page0)) o (scope_of c) = Some arr /\ b ∈ arr /\
          win b = w /\
          ((origin = "*" /\ o <> "*") \/ (origin <> "*" /\ (o = "*" \/ o = origin))))) /\
  (forall p' e, build c page0 = (p', Throw e) -> p' = page0).
Proof.
  intros c. apply (build_succeeds_exactly c page0). reflexivity.
Defined.

(** With the scope [constructor], a second channel for another window and a
    plain origin cannot be built once a channel with the wildcard exists,
    though nothing overlaps. *)
Example build_inherited_scope_throws :
  build (plain_cfg 2%nat "http://peer.example" "constructor") page_built
  = (page_built, Throw (not_iterable "constructor")).
Proof. by vm_compute. Qed.

(** X10: the channel that [build] returns is a new one: it is not ready, its
    queue and its transaction tables are empty and only the handshake
    handler is bound; its origin is the validated one; it is the last
    binding registered for its window under that origin and its scope.  The
    other channels, the other buckets of the registry, the transaction
    router, the counter, the heap and the listener are untouched, and the
    only timer added is the one that sends the first [ping] of a child. *)
Theorem build_registers_channel (c : config) (p p' : proc) (me : chan_id) :
  inherited (scope_of c) = false ->
  build c p = (p', Ok me) ->
  me = next_chan p /\ next_chan p' = S me /\
  (exists w origin,
     cfg_window c = Some w /\ validate_origin (cfg_origin c) = Some origin /\
     chans p' !! me = Some (fresh_chan me c origin) /\
     bucket (s_boundChans (glob p')) origin (scope_of c)
     = Some (default [] (bucket (s_boundChans (glob p)) origin (scope_of c))
               ++ [ {| win := w; handler := me |} ])%list /\
     (forall o sc, (o, sc) <> (origin, scope_of c) ->
        bucket (s_boundChans (glob p')) o sc = bucket (s_boundChans (glob p)) o sc)) /\
  (forall c', c' <> me -> chans p' !! c' = chans p !! c') /\
  timers (glob p')
  = (timers (glob p) ++ if is_child c then [PingTimer me] else [])%list /\
  s_transIds (glob p') = s_transIds (glob p) /\
  s_curTranId (glob p') = s_curTranId (glob p) /\
  trace (glob p') = trace (glob p) /\ heap (glob p') = heap (glob p) /\
  listener (glob p') = listener (glob p).
Proof.
  intros _ Hb. apply build_ok in Hb as (w & origin & g & Hw & _ & Ho & Hadd & -> & ->).
  pose proof (s_addBoundChan_ok _ _ _ _ _ _ Hadd) as [_ Hg].
  assert (Hb1 : bucket (s_boundChans g) origin (scope_of c)
                = Some (default [] (bucket (s_boundChans (glob p)) origin (scope_of c))
                          ++ [ {| win := w; handler := next_chan p |} ])%list).
  { rewrite Hg. cbn [s_boundChans set_boundChans]. apply bucket_insert_eq. }
  assert (Hb2 : forall o sc, (o, sc) <> (origin, scope_of c) ->
                bucket (s_boundChans g) o sc = bucket (s_boundChans (glob p)) o sc).
  { intros o sc Hne. rewrite Hg. cbn [s_boundChans set_boundChans].
    apply (bucket_update_ne _ (fun scopes => <[scope_of c := _]> scopes) origin (scope_of c));
      [| done].
    intros scopes Hsc. by rewrite lookup_insert_ne. }
  cbn [glob chans next_chan]. split; [done |]. split; [done |]. split.
  { exists w, origin. split; [done |]. split; [done |].
    split; [apply lookup_insert_eq |]. by destruct (is_child c). }
  split; [intros c' Hne; by rewrite lookup_insert_ne |].
  rewrite Hg. destruct (is_child c); cbn; by rewrite ?app_nil_r.
Qed.

Lemma build_registers_channel_witness :
  let c := plain_cfg 1%nat "http://Peer.Example:8080/page" "a" in
  let p := page0 in
  let p' := exec (build c) p in
  let me := 0%nat in
  me = next_chan p /\ next_chan p' = S me /\
  (exists w origin,
     cfg_window c = Some w /\ validate_origin (cfg_origin c) = Some origin /\
     chans p' !! me = Some (fresh_chan me c origin) /\
     bucket (s_boundChans (glob p')) origin (scope_of c)
     = Some (default [] (bucket (s_boundChans (glob p)) origin (scope_of c))
               ++ [ {| win := w; handler := me |} ])%list /\
     (forall o sc, (o, sc) <> (origin, scope_of c) ->
        bucket (s_boundChans (glob p')) o sc = bucket (s_boundChans (glob p)) o sc)) /\
  (forall c', c' <> me -> chans p' !! c' = chans p !! c') /\
  timers (glob p')
  = (timers (glob p) ++ if is_child c then [PingTimer me] else [])%list /\
  s_transIds (glob p') = s_transIds (glob p) /\
  s_curTranId (glob p') = s_curTranId (glob p) /\
  trace (glob p') = trace (glob p) /\ heap (glob p') = heap (glob p) /\
  listener (glob p') = listener (glob p).
Proof.
  intros c p p' me. apply (build_registers_channel c p p' me).
  - reflexivity.
  - vm_compute. reflexivity.
Defined.

(** ** The first [ping] of a child *)

(** A forced message is handed to the transport, ready or not. *)
Lemma postMessage_forced (msg : value) (g : globals) (c : chan) (w : window) :
  cfg_window (cfg c) = Some w -> truthy msg = true ->
  exists tr,
    postMessage msg true (g, c) = ((set_trace (trace g ++ tr) g, c), Ok tt) /\
    posts tr = [msg] /\ handler_runs tr = [].
Proof.
  intros Hw Ht. unfold postMessage. rewrite Ht. cbn [negb andb].
  rewrite bind_getC. cbn [negb andb]. rewrite !bind_getC. cbn [snd]. rewrite Hw.
  destruct (observe_spec (cfg_postMessageObserver (cfg c)) [cfg_origin (cfg c); msg] g c)
    as (tr & E & Hp & Hh).
  rewrite (m_bind_ok _ _ _ _ _ E).
  exists (tr ++ [EvPost w msg (cfg_origin (cfg c))])%list. split.
  - unfold log, modG, m_modify. cbn [fst snd trace set_trace]. by rewrite app_assoc.
  - rewrite posts_app, handler_runs_app, Hp, Hh. done.
Qed.

Lemma lookup_snoc {A : Type} (l : list A) (x : A) : (l ++ [x])%list !! length l = Some x.
Proof. rewrite lookup_app_r by lia. by rewrite Nat.sub_diag. Qed.

Lemma remove_snoc {A : Type} (l : list A) (x : A) :
  (take (length l) (l ++ [x]) ++ drop (S (length l)) (l ++ [x]))%list = l.
Proof.
  rewrite take_app_length. rewrite drop_ge by (rewrite length_app; cbn; lia).
  by rewrite app_nil_r.
Qed.

(** X11: a channel built for a child sends the first [ping] without waiting
    to be ready.  [build] leaves a timer for it; when the timer fires, the
    [__ready] notification with params [ping], under the scoped name, is
    handed to the transport although the channel is not ready, and the
    channel stays as it was built: not ready, with an empty queue. *)
Theorem child_ping_is_forced (c : config) (p p1 : proc) (me : chan_id) :
  inherited (scope_of c) = false ->
  build c p = (p1, Ok me) -> is_child c = true ->
  timers (glob p1) !! length (timers (glob p)) = Some (PingTimer me) /\
  exists p2 origin,
    fire_timer (length (timers (glob p))) p1 = (p2, Ok tt) /\
    posts (trace (glob p2))
    = (posts (trace (glob p))
       ++ [VObj [("method", VStr (scoped_name (fresh_chan me c origin) "__ready"));
                 ("params", VStr "ping")]])%list /\
    chans p2 !! me = Some (fresh_chan me c origin) /\
    timers (glob p2) = timers (glob p).
Proof.
  intros _ Hb Hchild.
  apply build_ok in Hb as (w & origin & g & Hw & _ & Ho & Hadd & -> & ->).
  apply s_addBoundChan_ok in Hadd as [_ ->]. rewrite Hchild.
  cbn [glob timers set_timers set_boundChans]. split; [apply lookup_snoc |].
  unfold fire_timer. cbn [glob timers set_timers set_boundChans chans next_chan].
  rewrite lookup_snoc, remove_snoc.
  unfold in_chan. cbn [chans glob]. rewrite lookup_insert_eq.
  unfold ping_action, scopeMethod. rewrite bind_getC. cbn [snd].
  match goal with
  | |- context [postMessage ?msg true (?g0, ?c0)] =>
      destruct (postMessage_forced msg g0 c0 w Hw eq_refl) as (tr & E & Hp & _)
  end.
  rewrite E. eexists _, origin. split; [reflexivity |].
  cbn [glob chans trace set_trace set_timers set_boundChans timers].
  rewrite posts_app, Hp. split; [done |]. split; [| done].
  by rewrite insert_insert_eq, lookup_insert_eq.
Qed.

Lemma child_ping_is_forced_witness :
  let c := {| cfg_window := Some 1%nat; cfg_origin := VStr "*"; cfg_scope := VStr "a";
              cfg_type := VStr "child"; cfg_gotMessageObserver := VUndefined;
              cfg_postMessageObserver := VUndefined; cfg_onReady := VUndefined |} in
  let p1 := exec (build c) page0 in
  timers (glob p1) !! length (timers (glob page0)) = Some (PingTimer 0%nat) /\
  exists p2 origin,
    fire_timer (length (timers (glob page0))) p1 = (p2, Ok tt) /\
    posts (trace (glob p2))
    = (posts (trace (glob page0))
       ++ [VObj [("method", VStr (scoped_name (fresh_chan 0%nat c origin) "__ready"));
                 ("params", VStr "ping")]])%list /\
    chans p2 !! 0%nat = Some (fresh_chan 0%nat c origin) /\
    timers (glob p2) = timers (glob page0).
Proof.
  intros c p1. apply (child_ping_is_forced c page0 p1 0%nat).
  - reflexivity.
  - vm_compute. reflexivity.
  - reflexivity.
Defined.

(** ** Routing by scope in [s_onMessage] *)

(** A message with a method, under a scope that is no inherited name, goes
    to one channel at most. *)
Lemma s_onMessage_routes (e : message_event) (m s : value) (meth : string) (p : proc) :
  e_data e = Some m -> typeof m = "object" -> m <> VNull ->
  unscope m = (s, VStr meth) -> inherited (ToString s) = false ->
  s_onMessage e p
  = match route (s_boundChans (glob p)) (e_origin e) (ToString s) (e_source e) with
    | Some c => in_chan c (onMessage (VStr (e_origin e)) (VStr meth) m) p
    | None => (p, Ok tt)
    end.
Proof.
  intros Hd Hty Hnull Hun Hs. unfold s_onMessage. rewrite Hd, Hty, Hun.
  assert (strict_equals m VNull = false) as -> by (by destruct m).
  cbn [String.eqb Ascii.eqb Bool.eqb negb orb typeof].
  unfold getP. unfold m_bind at 1, m_gets at 1. unfold route.
  rewrite !bucket_member_plain by done.
  destruct (bucket (s_boundChans (glob p)) (e_origin e) (ToString s)) as [arr |];
    cbn [mbind option_bind].
  - destruct (first_win (e_source e) arr) as [j |].
    + unfold m_bind at 1. unfold m_bind at 1.
      destruct (in_chan (handler j) _ p) as [p' [[] | x]]; reflexivity.
    + unfold m_bind at 1, m_ret at 1. unfold m_bind at 1, m_gets at 1.
      rewrite bucket_member_plain by done.
      destruct (bucket (s_boundChans (glob p)) "*" (ToString s)) as [arr' |]; [| done].
      cbn [mbind option_bind fmap option_fmap option_map].
      by destruct (first_win (e_source e) arr').
  - unfold m_bind at 1, m_ret at 1. unfold m_bind at 1, m_gets at 1.
    rewrite bucket_member_plain by done.
    destruct (bucket (s_boundChans (glob p)) "*" (ToString s)) as [arr' |]; [| done].
    cbn [mbind option_bind fmap option_fmap option_map].
    by destruct (first_win (e_source e) arr').
Qed.

Lemma scoped_name_scoped (c : chan) (sc name : string) :
  cfg_scope (cfg c) = VStr sc -> sc <> "" -> scoped_name c name = sc +:+ "::" +:+ name.
Proof.
  intros Hsc Hne. unfold scoped_name. rewrite Hsc.
  destruct sc; [done |]. reflexivity.
Qed.

(** X12: what [scopeMethod] puts together, [s_onMessage] takes apart.  A
    message whose method is the name [scopeMethod] gives to [name] on a
    channel of scope [sc] (a scope without a double colon that does not end
    in a colon and is none of the names every object inherits from
    [Object.prototype], and a name without a double colon), coming from an
    origin that is no such name either, is routed under the scope [sc], to
    one channel at most, and reaches that channel's [onMessage] with the
    bare [name]; with no binding of the source window under that scope for
    the origin or the wildcard, it is dropped.  (Under an inherited scope
    name the lookup finds the inherited member and the [for of] over it
    throws: example [inherited_scope_message_throws].) *)
Theorem scoped_message_is_routed
    (p : proc) (e : message_event) (m : value) (peer : chan) (sc name : string) :
  listener (glob p) <> Detached ->
  e_data e = Some m ->
  cfg_scope (cfg peer) = VStr sc -> sc <> "" ->
  occurs "::" (sc +:+ ":") = false -> occurs "::" name = false ->
  inherited sc = false -> inherited (e_origin e) = false ->
  prop m "method" = VStr (scoped_name peer name) ->
  deliver e p
  = match route (s_boundChans (glob p)) (e_origin e) sc (e_source e) with
    | Some c => in_chan c (onMessage (VStr (e_origin e)) (VStr name) m) p
    | None => (p, Ok tt)
    end.
Proof.
  intros Hl Hd Hsc Hne Ho1 Ho2 Hin _ Hm. unfold deliver.
  case_bool_decide; [done |].
  rewrite (scoped_name_scoped peer sc name Hsc Hne) in Hm.
  apply (s_onMessage_routes e m (VStr sc) name p Hd).
  - destruct m; try discriminate Hm; reflexivity.
  - intros ->. discriminate Hm.
  - unfold unscope. rewrite Hm. by rewrite split_scoped.
  - exact Hin.
Qed.

Lemma scoped_message_is_routed_witness :
  let m := request 9 "b::m" (VNum 1) in
  deliver (from_window2 m) two_channels
  = match route (s_boundChans (glob two_channels)) (e_origin (from_window2 m)) "b"
            (e_source (from_window2 m)) with
    | Some c => in_chan c (onMessage (VStr (e_origin (from_window2 m))) (VStr "m") m)
                  two_channels
    | None => (two_channels, Ok tt)
    end.
Proof.
  intros m.
  apply (scoped_message_is_routed two_channels (from_window2 m) m
           (chan_of two_channels 1%nat) "b" "m").
  - vm_compute. discriminate.
  - reflexivity.
  - vm_compute. reflexivity.
  - discriminate.
  - reflexivity.
  - reflexivity.
  - reflexivity.
  - reflexivity.
  - vm_compute. reflexivity.
Defined.

(** A message for [constructor::m], which no channel is bound for, is not
    dropped: the table of scopes of the wildcard inherits a [constructor],
    and [s_onMessage] throws when it iterates over it. *)
Example inherited_scope_message_throws :
  bucket (s_boundChans (glob two_channels)) "*" "constructor" = None /\
  deliver (from_window2 (request 9 "constructor::m" (VNum 1))) two_channels
  = (two_channels, Throw (not_iterable "constructor")).
Proof. split; by vm_compute. Qed.

(** X13: a method name without a double colon is routed under the key
    [undefined]: [s_onMessage] leaves its scope variable unassigned and
    uses it as a key of the registry.  [build] registers a channel without
    scope under the empty string, so such a message reaches a channel only
    if one was built with the scope [undefined]; otherwise it is dropped,
    also when a channel without scope is bound to the source window. *)
Theorem unscoped_message_is_routed_under_undefined
    (p : proc) (e : message_event) (m : value) (name : string) :
  listener (glob p) <> Detached ->
  e_data e = Some m ->
  prop m "method" = VStr name -> occurs "::" name = false ->
  inherited (e_origin e) = false ->
  deliver e p
  = match route (s_boundChans (glob p)) (e_origin e) "undefined" (e_source e) with
    | Some c => in_chan c (onMessage (VStr (e_origin e)) (VStr name) m) p
    | None => (p, Ok tt)
    end.
Proof.
  intros Hl Hd Hm Ho _. unfold deliver. case_bool_decide; [done |].
  apply (s_onMessage_routes e m VUndefined name p Hd).
  - destruct m; try discriminate Hm; reflexivity.
  - intros ->. discriminate Hm.
  - unfold unscope. rewrite Hm. by rewrite split_whole.
  - reflexivity.
Qed.

Lemma unscoped_message_is_routed_under_undefined_witness :
  let m := VObj [("method", VStr "__ready"); ("params", VStr "ping")] in
  deliver (peer_event m) unscoped_page
  = match route (s_boundChans (glob unscoped_page)) (e_origin (peer_event m)) "undefined"
            (e_source (peer_event m)) with
    | Some c => in_chan c (onMessage (VStr (e_origin (peer_event m))) (VStr "__ready") m)
                  unscoped_page
    | None => (unscoped_page, Ok tt)
    end.
Proof.
  intros m. apply (unscoped_message_is_routed_under_undefined unscoped_page (peer_event m) m
                     "__ready").
  - vm_compute. discriminate.
  - reflexivity.
  - reflexivity.
  - reflexivity.
  - reflexivity.
Defined.

(** The handshake of a channel without scope: the peer's [ping] carries the
    bare name [__ready] and is dropped, although the channel is bound to the
    peer's window under the empty scope. *)
Example unscoped_ping_dropped :
  bucket (s_boundChans (glob unscoped_page)) "*" ""
  = Some [ {| win := 1%nat; handler := 0%nat |} ] /\
  deliver (peer_event (VObj [("method", VStr "__ready"); ("params", VStr "ping")]))
    unscoped_page
  = (unscoped_page, Ok tt).
Proof. split; vm_compute; reflexivity. Qed.

(** ** What [onMessage] does with each kind of message *)

Lemma after_observer_spec (origin m : value) (g : globals) (c : chan) :
  exists tr,
    observe (cfg_gotMessageObserver (cfg c)) [origin; m] (g, c)
    = (after_observer origin m (g, c), Ok tt) /\
    after_observer origin m (g, c) = (set_trace (trace g ++ tr) g, c) /\
    posts tr = [] /\ handler_runs tr = [].
Proof.
  destruct (observe_spec (cfg_gotMessageObserver (cfg c)) [origin; m] g c)
    as (tr & E & Hp & Hh).
  exists tr. unfold after_observer, exec. cbn [snd]. by rewrite E.
Qed.

(** [onMessage] up to the point where it looks at the message. *)
Lemma onMessage_observed (origin method m : value) (s : st) :
  onMessage origin method m s = onMessage_kind origin method m (after_observer origin m s).
Proof.
  destruct s as [g c]. destruct (after_observer_spec origin m g c) as (tr & E & _).
  unfold onMessage. rewrite bind_getC. cbn [snd]. by rewrite (m_bind_ok _ _ _ _ _ E).
Qed.

Lemma after_observer_chan (origin m : value) (s : st) :
  snd (after_observer origin m s) = snd s.
Proof.
  destruct s as [g c]. destruct (after_observer_spec origin m g c) as (tr & _ & E & _).
  by rewrite E.
Qed.

Lemma after_observer_thrown (origin m : value) (s : st) :
  thrown (fst (after_observer origin m s)) = thrown (fst s).
Proof.
  destruct s as [g c]. destruct (after_observer_spec origin m g c) as (tr & _ & E & _).
  by rewrite E.
Qed.

(** A call of a function of the user: it is recorded, and ends as the user's
    code makes it end. *)
Lemma call_function_user (f : fn) (args : list value) (g : globals) (c : chan) :
  call_function (VFun f) args (g, c)
  = ((set_trace (trace g ++ [EvCall f args]) g, c), user_outcome g f args).
Proof.
  unfold call_function, user_outcome, m_bind, log, modG, getG, m_gets, m_modify, m_ret, m_throw.
  cbn [fst snd]. change (thrown (set_trace _ g)) with (thrown g).
  by destruct (thrown g f args).
Qed.

(** A response for an outstanding call, whose callback is a function. *)
Lemma onMessage_response (origin method m : value) (s : st) (entry : out_entry) (f : fn) :
  truthy (prop m "id") = true -> truthy method = false ->
  truthy (prop m "callback") = false ->
  outTbl (snd s) !! ToString (prop m "id") = Some entry ->
  response_callback entry m = VFun f ->
  let called := set_trace (trace (fst (after_observer origin m s))
                           ++ [EvCall f (response_args m)])
                  (fst (after_observer origin m s)) in
  onMessage origin method m s
  = match thrown (fst s) f (response_args m) with
    | None =>
        ((set_transIds (delete (ToString (prop m "id")) (s_transIds called)) called,
          set_outTbl (delete (ToString (prop m "id")) (outTbl (snd s))) (snd s)), Ok tt)
    | Some e => ((called, snd s), Throw e)
    end.
Proof.
  intros Hid Hm Hcb Hout Hf. rewrite onMessage_observed. unfold onMessage_kind. cbv zeta.
  pose proof (after_observer_chan origin m s) as Hc.
  pose proof (after_observer_thrown origin m s) as Ht.
  destruct (after_observer origin m s) as [g0 c0]. cbn [fst snd] in *. subst c0.
  rewrite Hid, Hm, Hcb. cbn [andb]. rewrite bind_getC. cbn [snd].
  rewrite (member_own _ _ _ Hout).
  unfold response_callback, response_args in *. rewrite <- Ht.
  assert (Hcall : forall args,
    (call_function (VFun f) args ;;
     modC (fun c => set_outTbl (delete (ToString (prop m "id")) (outTbl c)) c) ;;
     modG (fun g => set_transIds (delete (ToString (prop m "id")) (s_transIds g)) g))
      (g0, snd s)
    = match thrown g0 f args with
      | None =>
          ((set_transIds (delete (ToString (prop m "id"))
                            (s_transIds (set_trace (trace g0 ++ [EvCall f args]) g0)))
              (set_trace (trace g0 ++ [EvCall f args]) g0),
            set_outTbl (delete (ToString (prop m "id")) (outTbl (snd s))) (snd s)), Ok tt)
      | Some e => ((set_trace (trace g0 ++ [EvCall f args]) g0, snd s), Throw e)
      end).
  { intros args. unfold m_bind at 1. rewrite call_function_user. unfold user_outcome.
    by destruct (thrown g0 f args). }
  destruct (truthy (prop m "error")).
  - rewrite Hf. apply Hcall.
  - destruct (negb (strict_equals (prop m "result") VUndefined)); rewrite Hf; apply Hcall.
Qed.



(** X15: a call whose callback returned is settled once and for all.  After
    the response for an outstanding call has been handled and the function
    it called has returned, a further response or callback invocation
    carrying the same id is ignored, and the timer of the call, if it had
    one, does nothing when it fires: no user function is called and nothing
    changes.  (The id, as a key, is none of the names every object inherits
    from [Object.prototype]: under such a name [outTbl] is never found
    empty.) *)
Theorem response_delivered_once
    (origin method m origin' method' m' : value) (s : st) (entry : out_entry) (f : fn) :
  truthy (prop m "id") = true -> truthy method = false ->
  truthy (prop m "callback") = false ->
  outTbl (snd s) !! ToString (prop m "id") = Some entry ->
  response_callback entry m = VFun f ->
  thrown (fst s) f (response_args m) = None ->
  truthy method' = false ->
  ToString (prop m' "id") = ToString (prop m "id") ->
  inherited (ToString (prop m "id")) = false ->
  let s1 := exec (onMessage origin method m) s in
  onMessage origin' method' m' s1 = (after_observer origin' m' s1, Ok tt) /\
  (forall (id : Z) (timeout : value) (meth : string),
     ToString (prop m "id") = pretty id ->
     timeout_action id timeout meth s1 = (s1, Ok tt)).
Proof.
  intros Hid Hm Hcb Hout Hf Hret Hm' Hk Hin s1.
  assert (Hs1 : outTbl (snd s1) !! ToString (prop m "id") = None).
  { unfold s1, exec. rewrite (onMessage_response origin method m s entry f) by done.
    cbv zeta. rewrite Hret. cbn [fst snd outTbl set_outTbl]. apply lookup_delete_eq. }
  split.
  - rewrite <- Hk in Hs1, Hin. rewrite onMessage_observed. unfold onMessage_kind. cbv zeta.
    rewrite <- (after_observer_chan origin' m' s1) in Hs1.
    destruct (after_observer origin' m' s1) as [g0 c0]. cbn [snd] in Hs1.
    rewrite Hm'. rewrite !andb_false_r.
    destruct (truthy (prop m' "id")); cbn [andb]; [| done].
    assert (Hmem : member (outTbl c0) (ToString (prop m' "id")) = Nothing)
      by by apply member_nothing.
    destruct (truthy (prop m' "callback")); rewrite bind_getC; cbn [snd]; by rewrite Hmem.
  - intros id timeout meth Hp. rewrite Hp in Hs1. unfold timeout_action.
    destruct s1 as [g1 c1]. rewrite bind_getC. cbn [snd] in *. by rewrite Hs1.
Qed.

Lemma response_delivered_once_witness :
  let s := (glob caller_timed, chan_of caller_timed 0%nat) in
  let s1 := exec (onMessage (VStr "http://peer.example") VUndefined late_response) s in
  onMessage (VStr "http://peer.example") VUndefined progress_error s1
  = (after_observer (VStr "http://peer.example") progress_error s1, Ok tt) /\
  (forall (id : Z) (timeout : value) (meth : string),
     ToString (prop late_response "id") = pretty id ->
     timeout_action id timeout meth s1 = (s1, Ok tt)).
Proof.
  intros s.
  apply (response_delivered_once (VStr "http://peer.example") VUndefined late_response
           (VStr "http://peer.example") VUndefined progress_error s
           {| o_callbacks := ∅; o_error := VFun (FUser 2); o_success := VFun (FUser 1) |}
           (FUser 1)).
  - reflexivity.
  - reflexivity.
  - reflexivity.
  - vm_compute. reflexivity.
  - reflexivity.
  - reflexivity.
  - reflexivity.
  - reflexivity.
  - reflexivity.
Defined.

(** When the function the first response called has thrown, the call is
    still outstanding: a second response calls the function again. *)
Example thrown_response_is_delivered_again :
  let s := (set_thrown (failing (FUser 1) (VStr "boom")) (glob caller_called),
            chan_of caller_called 0%nat) in
  let s1 := exec (onMessage (VStr "http://peer.example") VUndefined late_response) s in
  let s2 := exec (onMessage (VStr "http://peer.example") VUndefined late_response) s1 in
  trace (fst s2)
  = (trace (fst s) ++ [EvCall (FUser 1) [VNum 1]; EvCall (FUser 1) [VNum 1]])%list /\
  is_Some (outTbl (snd s2) !! "500000").
Proof. split; [by vm_compute | by vm_compute; eexists]. Qed.





(** X18: [onMessage] ignores a message for which its tables have nothing: a
    request or a notification whose method is neither bound nor one of the
    names every object inherits from [Object.prototype]; a response whose
    id is neither that of an outstanding call nor such a name; a callback
    invocation whose id is that of no outstanding call, or whose callback
    name is neither one the call passed nor such a name; a message with
    neither id nor method.  Once the observer has seen it, nothing runs,
    nothing is answered and nothing changes.  (The inherited names are not
    ignored: examples [inherited_method_is_answered] and
    [inherited_id_throws].) *)
Theorem unmatched_message_ignored (origin method m : value) (s : st) :
  unmatched (snd s) method m ->
  onMessage origin method m s = (after_observer origin m s, Ok tt).
Proof.
  intros H. rewrite onMessage_observed. unfold onMessage_kind. cbv zeta.
  rewrite <- (after_observer_chan origin m s) in H.
  destruct (after_observer origin m s) as [g0 c0]. cbn [snd] in H.
  destruct H as [(Hm & Hreg) | [(Hm & Hid & Hcb & Hout)
                | [(Hm & Hid & Hcb & Hout) | (Hm & Hid)]]].
  - rewrite Hm, andb_true_r. destruct (truthy (prop m "id")).
    + rewrite bind_getC. cbn [snd]. by rewrite Hreg.
    + cbn [andb]. rewrite bind_getC. cbn [snd]. by rewrite Hreg.
  - rewrite Hm, Hid, Hcb. cbn [andb]. rewrite bind_getC. cbn [snd]. by rewrite Hout.
  - rewrite Hm, Hid, Hcb. cbn [andb]. rewrite bind_getC. cbn [snd].
    destruct Hout as [Hnone | (entry & Hout & Hnone)].
    + unfold member. rewrite Hnone. by destruct (inherited _).
    + rewrite (member_own _ _ _ Hout). cbv zeta. by rewrite Hnone.
  - rewrite Hm, Hid. done.
Qed.

Lemma unmatched_message_ignored_witness :
  onMessage (VStr "http://peer.example") (VStr "nothing") (request 3 "a::nothing" VNull)
    (glob page_ready, chan_of page_ready 0%nat)
  = (after_observer (VStr "http://peer.example") (request 3 "a::nothing" VNull)
       (glob page_ready, chan_of page_ready 0%nat), Ok tt).
Proof.
  apply unmatched_message_ignored. left. split; [reflexivity | by vm_compute].
Defined.

(** A request for [a::toString], which nothing is bound to, is answered: the
    table of methods inherits a [toString], which is called as the handler,
    and its result goes back as the result of the request. *)
Example inherited_method_is_answered :
  regTbl (chan_of page_ready 0%nat) !! "toString" = None /\
  posts (trace (glob (exec (deliver (peer_event (request 3 "a::toString" VNull)))
                        page_ready)))
  = [VObj [("method", VStr "a::__ready"); ("params", VStr "pong")];
     VObj [("id", VNum 3); ("result", VStr "[object Object]")]].
Proof. split; by vm_compute. Qed.

(** A response whose id is the string [constructor], which no call has, is
    not ignored either: [outTbl] inherits a [constructor], which has no
    [success] to call. *)
Example inherited_id_throws :
  let m := VObj [("id", VStr "constructor"); ("result", VNum 1)] in
  let s := (glob page_ready, chan_of page_ready 0%nat) in
  outTbl (snd s) !! "constructor" = None /\
  onMessage (VStr "http://peer.example") VUndefined m s
  = (s, Throw (TypeError "outTbl[m.id].success is not a function")).
Proof. split; by vm_compute. Qed.

(** ** Requests and notifications that reach a bound handler *)



(** X20: when the handler returns after [delayReturn(true)], or after it has
    completed or failed the transaction itself, the channel sends nothing on
    its own: [onMessage] returns in the state the handler left. *)
Theorem delayed_request_is_not_completed
    (s s2 : st) (fl2 : tflags) (origin m v : value) (method : string)
    (h : value -> value -> script) :
  truthy (prop m "id") = true -> truthy (VStr method) = true ->
  regTbl (snd s) !! method = Some (HUser h) ->
  (forall i cbs, prop m "callbacks" <> VArr (i :: cbs)) ->
  run_handler (HUser h) method (fst (request_trans origin m)) (prop m "params")
    (at_handler_call origin m s, snd (request_trans origin m)) = ((s2, fl2), Ok v) ->
  shouldDelayReturn fl2 = true \/ completed fl2 = true ->
  onMessage origin (VStr method) m s = (s2, Ok tt).
Proof.
  intros Hid Hm Hreg Hcb Hrun Hfl.
  rewrite (onMessage_request origin m method (HUser h) s Hid Hm Hreg).
  unfold with_flags, m_catch.
  rewrite (m_bind_ok _ _ _ _ (prop m "params"))
    by (unfold m_lift; by rewrite (install_callbacks_none m Hcb)).
  rewrite (m_bind_ok _ _ _ _ _ Hrun).
  unfold trans_delayReturn, trans_completed, m_bind at 1 2 3, m_ret, m_gets.
  cbn [typeof String.eqb Ascii.eqb Bool.eqb fst snd].
  destruct Hfl as [-> | ->]; [done |]. by rewrite andb_false_r.
Qed.

Lemma delayed_request_is_not_completed_witness :
  let p := with_handler "m" delaying page_ready in
  let s := (glob p, chan_of p 0%nat) in
  let m := request 5 "a::m" VNull in
  onMessage (VStr "http://peer.example") (VStr "m") m s
  = (exec (log (EvHandler 0%nat "m" VNull))
          (at_handler_call (VStr "http://peer.example") m s), Ok tt).
Proof.
  intros p s m.
  apply (delayed_request_is_not_completed s _ kept_flags
           (VStr "http://peer.example") m VUndefined "m" delaying).
  - reflexivity.
  - reflexivity.
  - vm_compute. reflexivity.
  - intros i cbs. discriminate.
  - vm_compute. reflexivity.
  - left. reflexivity.
Defined.

(** X21: a notification for a bound method runs the handler once with the
    params of the message.  No transaction is opened and nothing is sent;
    the value the handler returns is dropped, and an exception it throws
    leaves [onMessage] as it is. *)
Theorem notification_runs_handler
    (origin m : value) (method : string) (h : value -> value -> script) (s : st) :
  truthy (prop m "id") = false -> truthy (VStr method) = true ->
  regTbl (snd s) !! method = Some (HUser h) ->
  s_actions (h origin (prop m "params")) = [] ->
  onMessage origin (VStr method) m s
  = ((set_trace (trace (fst (after_observer origin m s))
                 ++ [EvHandler (self (snd s)) method (prop m "params")])
        (fst (after_observer origin m s)), snd s),
     match s_ending (h origin (prop m "params")) with
     | Return _ => Ok tt
     | Raise e => Throw e
     end).
Proof.
  intros Hid Hm Hreg Hact. rewrite onMessage_observed. unfold onMessage_kind. cbv zeta.
  pose proof (after_observer_chan origin m s) as Hc.
  destruct (after_observer origin m s) as [g0 c0]. cbn [fst snd] in *. subst c0.
  rewrite Hid, Hm. cbn [andb ToString]. rewrite bind_getC. cbn [snd].
  rewrite (member_own _ _ _ Hreg).
  unfold run_notification. unfold m_bind at 1. rewrite bind_getC. cbn [snd].
  unfold m_bind at 1, log at 1, modG at 1, m_modify at 1. cbn [fst snd].
  rewrite Hact. by destruct (s_ending (h origin (prop m "params"))).
Qed.

Lemma notification_runs_handler_witness :
  let p := exec (in_chan 0%nat (bind (VStr "m") (Some (HUser echo)))) page_ready in
  let s := (glob p, chan_of p 0%nat) in
  let m := VObj [("method", VStr "a::m"); ("params", VNum 3)] in
  onMessage (VStr "http://peer.example") (VStr "m") m s
  = ((set_trace (trace (fst (after_observer (VStr "http://peer.example") m s))
                 ++ [EvHandler (self (snd s)) "m" (prop m "params")])
        (fst (after_observer (VStr "http://peer.example") m s)), snd s),
     match s_ending (echo (VStr "http://peer.example") (prop m "params")) with
     | Return _ => Ok tt
     | Raise e => Throw e
     end).
Proof.
  intros p s m.
  apply (notification_runs_handler (VStr "http://peer.example") m "m" echo s).
  - reflexivity.
  - reflexivity.
  - vm_compute. reflexivity.
  - reflexivity.
Defined.

(** ** The state a [call] leaves, and its timeout *)

(** Every part of the state after a [call] that returns. *)
Lemma call_state (m : call_args) (s s' : st) (w : window) :
  call (Some m) s = (s', Ok tt) -> cfg_window (cfg (snd s)) = Some w ->
  exists ps tr,
    pruneFunctions (prune_fuel (heap (fst s))) "" (a_params m) (prune_start (heap (fst s)))
    = Done ps /\
    heap (fst s') = p_heap ps /\
    s_curTranId (fst s') = s_curTranId (fst s) + 1 /\
    s_transIds (fst s')
    = <[pretty (s_curTranId (fst s)) := self (snd s)]> (s_transIds (fst s)) /\
    timers (fst s')
    = (timers (fst s)
       ++ if truthy (a_timeout m)
          then [TimeoutTimer (self (snd s)) (s_curTranId (fst s)) (a_timeout m)
                  (scoped_name (snd s) (ToString (a_method m)))]
          else [])%list /\
    s_boundChans (fst s') = s_boundChans (fst s) /\
    listener (fst s') = listener (fst s) /\
    trace (fst s') = (trace (fst s) ++ tr)%list /\ handler_runs tr = [] /\
    outTbl (snd s')
    = <[pretty (s_curTranId (fst s)) :=
          {| o_callbacks := p_callbacks ps; o_error := a_error m;
             o_success := a_success m |}]> (outTbl (snd s)) /\
    inTbl (snd s') = inTbl (snd s) /\ regTbl (snd s') = regTbl (snd s) /\
    cfg (snd s') = cfg (snd s) /\ ready (snd s') = ready (snd s) /\
    self (snd s') = self (snd s).
Proof.
  destruct s as [g c]. cbn [fst snd]. intros Hcall Hw. unfold call in Hcall.
  destruct (_ || _); [discriminate |]. destruct (_ || _); [discriminate |].
  rewrite bind_getG in Hcall. cbn [fst snd] in Hcall.
  destruct (pruneFunctions _ _ _ _) as [ps | e ps |]; try discriminate.
  rewrite bind_modG, bind_getG in Hcall. cbn [fst snd] in Hcall.
  unfold scopeMethod in Hcall. rewrite !bind_getC in Hcall. cbn [fst snd] in Hcall.
  assert (Hend : forall (g1 : globals) (c1 : chan) msg,
    cfg_window (cfg c1) = Some w -> (forall p, truthy (msg p) = true) ->
    (let* p := params_value (a_params m) in postMessage (msg p) false) (g1, c1)
    = (s', Ok tt) ->
    exists tr, fst s' = set_trace (trace g1 ++ tr) g1 /\ handler_runs tr = [] /\
               outTbl (snd s') = outTbl c1 /\ inTbl (snd s') = inTbl c1 /\
               regTbl (snd s') = regTbl c1 /\ cfg (snd s') = cfg c1 /\
               ready (snd s') = ready c1 /\ self (snd s') = self c1).
  { intros g1 c1 msg Hw1 Ht Hrun. unfold params_value in Hrun.
    unfold m_bind at 1 in Hrun. rewrite bind_getG in Hrun. cbn [fst snd] in Hrun.
    destruct (to_value _ _ _) as [p |]; [| discriminate]. unfold m_ret in Hrun.
    destruct (postMessage_spec (msg p) g1 c1 w Hw1 (Ht p))
      as (tr & c' & E & _ & Hh & Hi & Hout & Hreg & Hcfg & Hrdy & Hself).
    unfold st in *. rewrite E in Hrun. inversion Hrun; subst. by exists tr. }
  exists ps. revert Hcall. destruct (truthy (a_timeout m)).
  - rewrite !bind_modG, !bind_modC, !bind_modG. cbn [fst snd]. intros Hcall.
    apply Hend in Hcall as (tr & -> & Hh & -> & -> & -> & -> & -> & ->); try done.
    exists tr. done.
  - unfold m_bind at 1, m_ret at 1. rewrite !bind_modC, !bind_modG. cbn [fst snd].
    intros Hcall.
    apply Hend in Hcall as (tr & -> & Hh & -> & -> & -> & -> & -> & ->); try done.
    exists tr. cbn. rewrite app_nil_r. done.
Qed.

(** X22: a call with a timeout that gets no response is failed by its timer.
    The call registers a timer for its id; when the timer fires while the
    call is outstanding, the [error] function of the call is invoked with
    [timeout_error] and the text that names the delay and the scoped
    method.  When that function returns, the call leaves [outTbl] and
    [s_transIds]; when it throws, the exception leaves the timer's function
    and the call stays in both tables: the source deletes it after the
    call.  (The delay is an [exact] value, whose text the model knows.) *)
Theorem timeout_fails_outstanding_call
    (m : call_args) (s s1 : st) (w : window) (f : fn) :
  call (Some m) s = (s1, Ok tt) -> cfg_window (cfg (snd s)) = Some w ->
  truthy (a_timeout m) = true -> exact (a_timeout m) = true -> a_error m = VFun f ->
  let id := s_curTranId (fst s) in
  let meth := scoped_name (snd s) (ToString (a_method m)) in
  let args := [VStr "timeout_error"; VStr (timeout_message (a_timeout m) meth)] in
  TimeoutTimer (self (snd s)) id (a_timeout m) meth ∈ timers (fst s1) /\
  exists s2,
    timeout_action id (a_timeout m) meth s1 = (s2, user_outcome (fst s1) f args) /\
    trace (fst s2) = (trace (fst s1) ++ [EvCall f args])%list /\
    match thrown (fst s1) f args with
    | None => outTbl (snd s2) !! pretty id = None /\ s_transIds (fst s2) !! pretty id = None
    | Some _ => outTbl (snd s2) = outTbl (snd s1) /\ s_transIds (fst s2) = s_transIds (fst s1)
    end.
Proof.
  intros Hcall Hw Ht _ Hf id meth args.
  destruct (call_state m s s1 w Hcall Hw)
    as (ps & tr & _ & _ & _ & Hids & Htimers & _ & _ & _ & _ & Hout & _).
  split.
  - rewrite Htimers, Ht. apply elem_of_app. right. by apply list_elem_of_singleton.
  - destruct s1 as [g1 c1]. cbn [fst snd] in *. unfold timeout_action.
    rewrite bind_getC. cbn [snd]. rewrite Hout, lookup_insert_eq. cbn [o_error].
    rewrite Hf. fold id meth args. unfold m_bind at 1. rewrite call_function_user.
    unfold user_outcome. destruct (thrown g1 f args).
    + eexists. split; [reflexivity |]. cbn [fst snd trace set_trace s_transIds].
      by rewrite Hout, Hf.
    + eexists. split; [reflexivity |]. cbn. rewrite !lookup_delete_eq. done.
Qed.

Lemma timeout_fails_outstanding_call_witness :
  let s := (set_thrown (failing (FUser 2) (VStr "boom")) (glob caller_page),
            chan_of caller_page 0%nat) in
  let s1 := exec (call (Some timed_call)) s in
  let id := s_curTranId (fst s) in
  let meth := scoped_name (snd s) (ToString (a_method timed_call)) in
  let args := [VStr "timeout_error"; VStr (timeout_message (a_timeout timed_call) meth)] in
  TimeoutTimer (self (snd s)) id (a_timeout timed_call) meth ∈ timers (fst s1) /\
  exists s2,
    timeout_action id (a_timeout timed_call) meth s1 = (s2, Throw (VStr "boom")) /\
    trace (fst s2) = (trace (fst s1) ++ [EvCall (FUser 2) args])%list /\
    outTbl (snd s2) = outTbl (snd s1) /\ s_transIds (fst s2) = s_transIds (fst s1).
Proof.
  intros s s1.
  apply (timeout_fails_outstanding_call timed_call s s1 1%nat (FUser 2)).
  - vm_compute. reflexivity.
  - vm_compute. reflexivity.
  - reflexivity.
  - reflexivity.
  - reflexivity.
Defined.

(** ** Params that contain themselves *)

(** The only exception of the traversal is the one for recursive params. *)
Lemma prune_keys_thrown (rec : string -> hval -> pstate -> pres)
    (path : string) (l : loc) (ks : list string) :
  (forall p v s e s', rec p v s = Thrown e s' ->
     e = Error "params cannot be a recursive data structure") ->
  forall s e s', prune_keys rec path l ks s = Thrown e s' ->
    e = Error "params cannot be a recursive data structure".
Proof.
  intros Hrec. induction ks as [| k ks IH]; intros s e s' H; [discriminate H |].
  cbn [prune_keys] in H.
  destruct (own_prop (p_heap s) l k) as [v |]; [| exact (IH _ _ _ H)].
  assert (Hvia : match rec (child_path path k) v s with
                 | Done sm => prune_keys rec path l ks sm
                 | r => r
                 end = Thrown e s' ->
                 e = Error "params cannot be a recursive data structure").
  { destruct (rec (child_path path k) v s) as [sm | e0 sm |] eqn:Hr.
    - apply IH.
    - intros [= <- <-]. by apply (Hrec _ _ _ _ _ Hr).
    - discriminate. }
  destruct v; try (exact (IH _ _ _ H)); exact (Hvia H).
Qed.

Lemma pruneFunctions_thrown (fuel : nat) :
  forall path v s e s', pruneFunctions fuel path v s = Thrown e s' ->
    e = Error "params cannot be a recursive data structure".
Proof.
  induction fuel as [| fuel IH]; intros path v s e s' H; [discriminate H |].
  cbn [pruneFunctions] in H. case_bool_decide; [by injection H as <- _ |].
  destruct v; try discriminate H. by apply (prune_keys_thrown _ _ _ _ IH) in H.
Qed.

(** While the object at [l] is being traversed, a property of it that
    refers to [l] itself stops the loop over its keys. *)
Lemma prune_keys_self (n : nat) (path : string) (l : loc) (k : string) (ks : list string) :
  forall s,
    HRef l ∈ p_seen s -> own_prop (p_heap s) l k = Some (HRef l) -> k ∈ ks ->
    forall s', prune_keys (pruneFunctions (S n)) path l ks s <> Done s'.
Proof.
  induction ks as [| k0 ks IH]; intros s Hseen Hk Hin s'; [by apply elem_of_nil in Hin |].
  cbn [prune_keys]. destruct (decide (k0 = k)) as [-> | Hne].
  - rewrite Hk. cbn [pruneFunctions]. by rewrite bool_decide_eq_true_2.
  - apply elem_of_cons in Hin as [-> | Hin]; [done |].
    destruct (own_prop (p_heap s) l k0) as [v |] eqn:Hv; [| by apply IH].
    assert (Hvia : match pruneFunctions (S n) (child_path path k0) v s with
                   | Done sm => prune_keys (pruneFunctions (S n)) path l ks sm
                   | r => r
                   end <> Done s').
    { destruct (pruneFunctions (S n) (child_path path k0) v s) as [sm | e sm |] eqn:Hr;
        [| done | done].
      destruct (pruneFunctions_ok _ _ _ _ _ Hr) as (Hext & _).
      apply IH; [by apply (ext_seen _ _ Hext) | | done].
      by apply (ext_frame _ _ Hext). }
    destruct v; try (by apply IH); try exact Hvia.
    apply IH; [done | | done]. cbn [take_function p_heap].
    rewrite own_prop_delete_ne by (by right). exact Hk.
Qed.

(** X23: [call] refuses params that contain themselves.  When a property of
    the params object refers to the params object, the call throws the
    error for recursive params; nothing has been sent or queued, no id has
    been taken and no timer set: all that may have changed is the heap,
    from which the functions found before the cycle have been deleted. *)
Theorem call_refuses_self_reference
    (m : call_args) (s : st) (name : string) (f : fn) (l : loc) (k : string) :
  a_method m = VStr name -> name <> "" -> a_success m = VFun f ->
  a_params m = HRef l -> own_prop (heap (fst s)) l k = Some (HRef l) ->
  exists h',
    call (Some m) s
    = ((set_heap h' (fst s), snd s),
       Throw (Error "params cannot be a recursive data structure")).
Proof.
  intros Hm Hne Hs Hp Hk. destruct s as [g c]. cbn [fst snd] in *. unfold call.
  rewrite Hm, Hs, Hp. cbn [truthy typeof]. apply String.eqb_neq in Hne. rewrite Hne.
  cbn [negb orb String.eqb Ascii.eqb Bool.eqb]. rewrite bind_getG. cbn [fst].
  destruct (pruneFunctions (prune_fuel (heap g)) "" (HRef l) (prune_start (heap g)))
    as [ps | e ps |] eqn:Hrun.
  - exfalso. unfold prune_fuel in Hrun. cbn [pruneFunctions] in Hrun.
    rewrite bool_decide_eq_false_2 in Hrun by apply not_elem_of_nil.
    revert Hrun. apply prune_keys_self with (k := k).
    + cbn. apply list_elem_of_singleton. done.
    + exact Hk.
    + by apply (own_prop_in_keys _ _ _ (HRef l)).
  - apply pruneFunctions_thrown in Hrun as ->. exists (p_heap ps). reflexivity.
  - by apply pruneFunctions_fuel in Hrun.
Qed.

Lemma call_refuses_self_reference_witness :
  exists h',
    call (Some progress_call) (glob looping_page, chan_of looping_page 0%nat)
    = ((set_heap h' (fst (glob looping_page, chan_of looping_page 0%nat)),
        snd (glob looping_page, chan_of looping_page 0%nat)),
       Throw (Error "params cannot be a recursive data structure")).
Proof.
  apply (call_refuses_self_reference progress_call
           (glob looping_page, chan_of looping_page 0%nat) "m" (FUser 1) 0%nat "self").
  - reflexivity.
  - discriminate.
  - reflexivity.
  - reflexivity.
  - vm_compute. reflexivity.
Defined.

(** The function found before the cycle is gone from the caller's object
    although the call failed. *)
Example looping_params_partly_pruned :
  own_prop (heap (glob (exec (in_chan 0%nat (call (Some progress_call))) looping_page)))
    0%nat "onProgress" = None /\
  posts (trace (glob (exec (in_chan 0%nat (call (Some progress_call))) looping_page)))
  = posts (trace (glob looping_page)).
Proof. split; vm_compute; reflexivity. Qed.

(** ** What the functions of a channel leave alone

    A property of the state that survives the few kinds of write the
    functions of a channel perform survives the functions themselves,
    whether they return or throw.  Each lemma asks only for the kinds of
    write its function can reach. *)

Section Frame.
Variable P : st -> Prop.
Hypothesis P_trace : forall g c ev, P (g, c) -> P (set_trace (trace g ++ [ev]) g, c).
Hypothesis P_queue : forall g c x, P (g, c) -> P (g, set_pendingQueue x c).
Hypothesis P_regTbl : forall g c x, P (g, c) -> P (g, set_regTbl x c).
Hypothesis P_ready : forall g c, P (g, c) -> P (g, set_ready true c).
Hypothesis P_inTbl : forall g c x, P (g, c) -> P (g, set_inTbl x c).
Hypothesis P_outTbl : forall g c k, P (g, c) -> P (g, set_outTbl (delete k (outTbl c)) c).
Hypothesis P_transIds :
  forall g c k, P (g, c) -> P (set_transIds (delete k (s_transIds g)) g, c).
(* the writes of [call] *)
Hypothesis P_heap : forall g c x, P (g, c) -> P (set_heap x g, c).
Hypothesis P_timers : forall g c x, P (g, c) -> P (set_timers x g, c).
Hypothesis P_outTbl_insert :
  forall g c k e, P (g, c) -> P (g, set_outTbl (<[k := e]> (outTbl c)) c).
Hypothesis P_transIds_insert :
  forall g c k v, P (g, c) -> P (set_transIds (<[k := v]> (s_transIds g)) g, c).
Hypothesis P_curTranId : forall g c, P (g, c) -> P (set_curTranId (s_curTranId g + 1) g, c).
(* the writes of [destroy] *)
Hypothesis P_boundChans : forall g c x, P (g, c) -> P (set_boundChans x g, c).
Hypothesis P_listener : forall g c, P (g, c) -> P (set_listener Detached g, c).
Hypothesis P_unready : forall g c, P (g, c) -> P (g, set_ready false c).
Hypothesis P_outTbl_empty : forall g c, P (g, c) -> P (g, set_outTbl ∅ c).
Hypothesis P_cfg : forall g c, P (g, c) -> P (g, set_cfg (set_cfg_origin VNull (cfg c)) c).

Ltac frame :=
  pres; try (apply preserves_modify; intros [? ?] ?; cbn [fst snd]; auto; fail).

Lemma frame_log (ev : event) : preserves P (log ev).
Proof. unfold log. frame. Qed.

Lemma frame_call_function (f : value) (args : list value) :
  preserves P (call_function f args).
Proof. unfold call_function. frame; apply frame_log. Qed.

Lemma frame_observe (obs : value) (args : list value) : preserves P (observe obs args).
Proof. unfold observe. frame; apply frame_call_function. Qed.

Lemma frame_postMessage (msg : value) (force : bool) : preserves P (postMessage msg force).
Proof. unfold postMessage. frame; auto using frame_observe, frame_log. Qed.

Lemma frame_scopeMethod (m : string) : preserves P (scopeMethod m).
Proof. unfold scopeMethod. frame. Qed.

Lemma frame_params_value (p : hval) : preserves P (params_value p).
Proof. unfold params_value. frame. Qed.

Lemma frame_notify (m : option call_args) : preserves P (notify m).
Proof.
  unfold notify. frame; auto using frame_scopeMethod, frame_params_value, frame_postMessage.
Qed.

Lemma frame_unbind (method : value) : preserves P (unbind method).
Proof. unfold unbind. frame. Qed.

Lemma frame_bind (method : value) (cb : option method_handler) :
  preserves P (bind method cb).
Proof. unfold bind. frame. Qed.

Lemma frame_flush (fuel : nat) : preserves P (flush fuel).
Proof. induction fuel as [| fuel IH]; simpl; frame; auto using frame_postMessage. Qed.

Lemma frame_onReady (type : value) : preserves P (onReady type).
Proof.
  unfold onReady. frame; auto using frame_unbind, frame_notify, frame_flush, frame_log.
Qed.

Lemma frame_set_completed (b : bool) :
  preserves (fun s : tst => P (fst s)) (set_completed b).
Proof. apply preserves_modify. by intros [s fl]. Qed.

Lemma frame_set_shouldDelayReturn (b : bool) :
  preserves (fun s : tst => P (fst s)) (set_shouldDelayReturn b).
Proof. apply preserves_modify. by intros [s fl]. Qed.

Lemma frame_trans_invoke (t : trans) (cbName v : value) :
  preserves (fun s : tst => P (fst s)) (trans_invoke t cbName v).
Proof. unfold trans_invoke. frame; apply frame_postMessage. Qed.

Lemma frame_trans_error (t : trans) (error message : value) :
  preserves (fun s : tst => P (fst s)) (trans_error t error message).
Proof.
  unfold trans_error. frame; auto using frame_set_completed, frame_postMessage.
Qed.

Lemma frame_trans_complete (t : trans) (v : value) :
  preserves (fun s : tst => P (fst s)) (trans_complete t v).
Proof.
  unfold trans_complete. frame; auto using frame_set_completed, frame_postMessage.
Qed.

Lemma frame_trans_delayReturn (delay : value) :
  preserves (fun s : tst => P (fst s)) (trans_delayReturn delay).
Proof. unfold trans_delayReturn. frame; apply frame_set_shouldDelayReturn. Qed.

Lemma frame_run_action (t : trans) (params : value) (a : taction) :
  preserves (fun s : tst => P (fst s)) (run_action t params a).
Proof.
  unfold run_action. destruct a; frame;
    auto using frame_trans_invoke, frame_trans_error, frame_trans_complete,
               frame_trans_delayReturn, frame_call_function.
Qed.

Lemma frame_run_actions (t : trans) (params : value) (acts : list taction) :
  preserves (fun s : tst => P (fst s)) (run_actions t params acts).
Proof. induction acts as [| a acts IH]; simpl; frame; auto using frame_run_action. Qed.

Lemma frame_finish (e : ending) : preserves (fun s : tst => P (fst s)) (finish e).
Proof. unfold finish. frame. Qed.

Lemma frame_run_handler (h : method_handler) (method : string) (t : trans)
    (params : value) :
  preserves (fun s : tst => P (fst s)) (run_handler h method t params).
Proof.
  unfold run_handler. frame;
    auto using frame_onReady, frame_run_actions, frame_finish, frame_log.
Qed.

Lemma frame_run_inherited (method : string) (a params : value) :
  preserves P (run_inherited method a params).
Proof. unfold run_inherited. frame. Qed.

Lemma frame_run_notification (h : method_handler) (method : string)
    (origin params : value) :
  preserves P (run_notification h method origin params).
Proof.
  unfold run_notification. frame; auto using frame_onReady, frame_log.
  all: unfold finish; frame.
Qed.

Lemma frame_onMessage (origin method m : value) : preserves P (onMessage origin method m).
Proof.
  unfold onMessage, onMessage_kind.
  apply preserves_bind; [pres | intros obs].
  apply preserves_bind; [apply frame_observe | intros _].
  destruct (truthy (prop m "id") && truthy method).
  - apply preserves_bind; [pres | intros tbl].
    destruct (member tbl (ToString method)) as [h | |]; [| | pres].
    all: unfold createTransaction, trans_completed; frame;
      auto using frame_run_handler, frame_run_inherited, frame_trans_delayReturn,
                 frame_trans_complete, frame_trans_error.
  - destruct (truthy (prop m "id") && truthy (prop m "callback")).
    + frame; auto using frame_call_function.
    + destruct (truthy (prop m "id")).
      * frame; auto using frame_call_function.
      * frame; auto using frame_run_notification, frame_run_inherited.
Qed.

Lemma frame_timeout_action (transId : Z) (timeout : value) (method : string) :
  preserves P (timeout_action transId timeout method).
Proof. unfold timeout_action. frame; auto using frame_call_function. Qed.

Lemma frame_ping_action : preserves P ping_action.
Proof. unfold ping_action. frame; auto using frame_scopeMethod, frame_postMessage. Qed.

Lemma frame_call (m : option call_args) : preserves P (call m).
Proof.
  unfold call. destruct m as [m |]; [| pres].
  destruct (_ || _); [pres |]. destruct (_ || _); [pres |].
  apply preserves_bind; [pres | intros h].
  destruct (pruneFunctions _ _ _ _); frame;
    auto using frame_scopeMethod, frame_params_value, frame_postMessage.
Qed.

Lemma frame_removeBoundChan (w : option window) (origin : value) (scope : string) :
  preserves P (liftG (s_removeBoundChan w origin scope)).
Proof.
  intros [g c] Hs. unfold liftG, s_removeBoundChan. cbn [fst snd].
  destruct (s_boundChans g !! ToString origin) as [scopes |]; [| done].
  destruct (scopes !! scope) as [arr |]; [| done]. cbn [fst]. auto.
Qed.

Lemma frame_detach_listener : preserves P (modG detach_listener).
Proof.
  apply preserves_modify. intros [g c] Hs. cbn [fst snd]. unfold detach_listener.
  destruct (has_removeEventListener _); [case_bool_decide; auto |].
  destruct (has_detachEvent _); [case_bool_decide; auto | done].
Qed.

Lemma frame_destroy : preserves P destroy.
Proof.
  unfold destroy. frame; auto using frame_removeBoundChan, frame_detach_listener.
Qed.

Lemma frame_with_flags {A : Type} (fl : tflags) (c : M tst A) :
  preserves (fun s : tst => P (fst s)) c -> preserves P (with_flags fl c).
Proof. apply preserves_with_flags. Qed.

(** One event on the channel, given what [call], [destroy] and the rest of
    the process do to the property. *)
Lemma frame_run_event (ev : chan_event) (s : st) :
  (forall m, ev = CeCall m -> preserves P (call m)) ->
  (ev = CeDestroy -> preserves P destroy) ->
  (forall f, ev = CeElsewhere f -> preserves P (modG f)) ->
  P s -> P (run_event ev s).
Proof.
  intros Hcall Hdestroy Helse Hs. destruct ev; simpl; unfold exec.
  - by apply frame_onMessage.
  - exact (preserves_with_flags _ _ _ (frame_trans_complete _ _) s Hs).
  - exact (preserves_with_flags _ _ _ (frame_trans_error _ _ _) s Hs).
  - exact (preserves_with_flags _ _ _ (frame_trans_invoke _ _ _) s Hs).
  - by apply (Hcall m).
  - by apply frame_notify.
  - by apply frame_bind.
  - by apply frame_unbind.
  - by apply Hdestroy.
  - by apply frame_timeout_action.
  - by apply frame_ping_action.
  - by apply (Helse f).
Qed.

End Frame.

(** ** [notify] *)

(** X24: [notify] opens no transaction.  Whatever its argument, and whether
    it returns or throws, it changes nothing but the trace, which it only
    extends, and the queue: [outTbl], [inTbl], [s_transIds], the counter and
    all the rest stay as they were.  When the method is a non-empty string
    and the params have a JSON reading, it returns, and the notification
    with the scoped method name and the params is sent (or queued). *)
Theorem notify_opens_no_transaction (m : option call_args) (s : st) :
  (exists tr q,
     fst (notify m s)
     = (set_trace (trace (fst s) ++ tr) (fst s), set_pendingQueue q (snd s))) /\
  (forall a name p w,
     m = Some a -> a_method a = VStr name -> name <> "" ->
     to_value (S (size (heap (fst s)))) (heap (fst s)) (a_params a) = Some p ->
     cfg_window (cfg (snd s)) = Some w ->
     snd (notify m s) = Ok tt /\
     sent_or_queued (VObj [("method", VStr (scoped_name (snd s) name)); ("params", p)])
       s (fst (notify m s))).
Proof.
  split.
  - apply (frame_notify
             (fun s' => exists tr q,
                s' = (set_trace (trace (fst s) ++ tr) (fst s), set_pendingQueue q (snd s)))).
    + intros g c ev (tr & q & [= -> ->]). exists (tr ++ [ev])%list, q.
      cbn. by rewrite app_assoc.
    + intros g c x (tr & q & [= -> ->]). by exists tr, x.
    + exists [], (pendingQueue (snd s)). rewrite app_nil_r. by destruct s as [[] []].
  - intros a name p w -> Hname Hne Hp Hw. destruct s as [g c]. cbn [fst snd] in *.
    assert (E0 : notify (Some a) (g, c)
                 = postMessage (VObj [("method", VStr (scoped_name c name)); ("params", p)])
                     false (g, c)).
    { unfold notify. rewrite Hname. cbn [truthy typeof ToString].
      apply String.eqb_neq in Hne. rewrite Hne.
      cbn [negb orb String.eqb Ascii.eqb Bool.eqb].
      unfold scopeMethod. rewrite bind_getC. cbn [snd].
      unfold params_value. unfold m_bind at 1. rewrite bind_getG. cbn [fst]. by rewrite Hp. }
    rewrite E0.
    destruct (postMessage_spec
                (VObj [("method", VStr (scoped_name c name)); ("params", p)]) g c w Hw eq_refl)
      as (tr & c' & E & Hs & _).
    by rewrite E.
Qed.

(** ** What changes where *)

Lemma run_events_app (evs1 evs2 : list chan_event) (s : st) :
  run_events (evs1 ++ evs2) s = run_events evs2 (run_events evs1 s).
Proof. unfold run_events. apply foldl_app. Qed.

(** X25: of all that runs on a channel once it is built, only [destroy]
    writes the registry of bound channels and the window's listener.
    Messages, transaction operations, [call], [notify], [bind], [unbind] and
    timers, in any number and order, leave both as they were. *)
Theorem registry_written_by_destroy_only (evs : list chan_event) (s : st) :
  Forall (fun ev => ~ is_destroy ev /\ ~ is_elsewhere ev) evs ->
  s_boundChans (fst (run_events evs s)) = s_boundChans (fst s) /\
  listener (fst (run_events evs s)) = listener (fst s).
Proof.
  revert s. induction evs as [| ev evs IH]; intros s Hall; [done |].
  inversion Hall as [| ? ? [Hd He] Hrest]; subst. cbn [run_events foldl].
  change (foldl (fun s ev => run_event ev s) (run_event ev s) evs)
    with (run_events evs (run_event ev s)).
  destruct (IH (run_event ev s) Hrest) as [-> ->].
  apply (frame_run_event
           (fun s' => s_boundChans (fst s') = s_boundChans (fst s) /\
                      listener (fst s') = listener (fst s))); try done.
  - intros m _. by apply frame_call.
  - intros ->. by destruct Hd.
  - intros f ->. by destruct He.
Qed.

Lemma registry_written_by_destroy_only_witness :
  let s := (glob caller_page, chan_of caller_page 0%nat) in
  let evs := [CeCall (Some timed_call); CeTimeout 500000 (VNum 500) "a::m";
              CeNotify None; CeBind (VStr "m") (Some (HUser echo))] in
  s_boundChans (fst (run_events evs s)) = s_boundChans (fst s) /\
  listener (fst (run_events evs s)) = listener (fst s).
Proof.
  intros s evs. apply (registry_written_by_destroy_only evs s).
  repeat constructor; simpl; tauto.
Defined.

(** X26: of all that runs on a channel once it is built, only [call] writes
    the caller's heap, moves the transaction counter, sets a timer or enters
    an id in [s_transIds]: whatever else runs on the channel leaves the
    first three as they were and can only take ids out of the fourth. *)
Theorem heap_and_counter_written_by_call_only (evs : list chan_event) (s : st) :
  Forall (fun ev => ~ is_call ev /\ ~ is_elsewhere ev) evs ->
  heap (fst (run_events evs s)) = heap (fst s) /\
  s_curTranId (fst (run_events evs s)) = s_curTranId (fst s) /\
  timers (fst (run_events evs s)) = timers (fst s) /\
  s_transIds (fst (run_events evs s)) ⊆ s_transIds (fst s).
Proof.
  revert s. induction evs as [| ev evs IH]; intros s Hall; [done |].
  inversion Hall as [| ? ? [Hc He] Hrest]; subst. cbn [run_events foldl].
  change (foldl (fun s ev => run_event ev s) (run_event ev s) evs)
    with (run_events evs (run_event ev s)).
  destruct (IH (run_event ev s) Hrest) as (-> & -> & -> & Hsub).
  assert (H : heap (fst (run_event ev s)) = heap (fst s) /\
              s_curTranId (fst (run_event ev s)) = s_curTranId (fst s) /\
              timers (fst (run_event ev s)) = timers (fst s) /\
              s_transIds (fst (run_event ev s)) ⊆ s_transIds (fst s)).
  { apply (frame_run_event
             (fun s' => heap (fst s') = heap (fst s) /\
                        s_curTranId (fst s') = s_curTranId (fst s) /\
                        timers (fst s') = timers (fst s) /\
                        s_transIds (fst s') ⊆ s_transIds (fst s))); try done.
    - intros g c k (? & ? & ? & Hs). cbn. repeat split; try done.
      etrans; [apply delete_subseteq | exact Hs].
    - intros m ->. by destruct Hc.
    - intros _. by apply frame_destroy.
    - intros f ->. by destruct He. }
  destruct H as (-> & -> & -> & Hsub'). repeat split; try done. by etrans.
Qed.

Lemma heap_and_counter_written_by_call_only_witness :
  let s := (glob caller_timed, chan_of caller_timed 0%nat) in
  let evs := [CeTimeout 500000 (VNum 500) "a::m"; CeNotify None; CeDestroy] in
  heap (fst (run_events evs s)) = heap (fst s) /\
  s_curTranId (fst (run_events evs s)) = s_curTranId (fst s) /\
  timers (fst (run_events evs s)) = timers (fst s) /\
  s_transIds (fst (run_events evs s)) ⊆ s_transIds (fst s).
Proof.
  intros s evs. apply (heap_and_counter_written_by_call_only evs s).
  repeat constructor; simpl; tauto.
Defined.

(** X27: a channel that is ready stays ready until it is destroyed: no
    message, transaction operation, [call], [notify], [bind], [unbind] or
    timer, and nothing that happens elsewhere in the process, makes it wait
    again. *)
Theorem ready_until_destroyed (evs : list chan_event) (s : st) :
  ready (snd s) = true ->
  Forall (fun ev => ~ is_destroy ev) evs ->
  ready (snd (run_events evs s)) = true.
Proof.
  revert s. induction evs as [| ev evs IH]; intros s Hr Hall; [done |].
  inversion Hall as [| ? ? Hd Hrest]; subst. cbn [run_events foldl].
  change (foldl (fun s ev => run_event ev s) (run_event ev s) evs)
    with (run_events evs (run_event ev s)).
  apply IH; [| done].
  apply (frame_run_event (fun s' => ready (snd s') = true)); try done.
  - intros m _. by apply frame_call.
  - intros ->. by destruct Hd.
  - intros f _. apply preserves_modify. by intros [g c].
Qed.

Lemma ready_until_destroyed_witness :
  let s := (glob caller_page, chan_of caller_page 0%nat) in
  let evs := [CeCall (Some timed_call);
              CeMessage (VStr "http://peer.example") (VStr "__ready") ping_msg;
              CeElsewhere (set_listener Detached)] in
  ready (snd (run_events evs s)) = true.
Proof.
  intros s evs. apply (ready_until_destroyed evs s).
  - vm_compute. reflexivity.
  - repeat constructor; simpl; tauto.
Defined.

(** ** The handshake happens once *)

(** [onReady] on a channel that is not ready leaves [__ready] unbound,
    whether it returns or throws on the way. *)
Lemma onReady_unbinds (type : value) (s : st) :
  ready (snd s) = false -> regTbl (snd (fst (onReady type s))) !! "__ready" = None.
Proof.
  destruct s as [g c]. cbn [snd]. intros Hr. unfold onReady.
  rewrite bind_getC. cbn [snd]. rewrite Hr.
  assert (Hu : exists c1 b, unbind (VStr "__ready") (g, c) = ((g, c1), Ok b) /\
                            regTbl c1 !! "__ready" = None).
  { unfold unbind. rewrite bind_getC. cbn [snd ToString].
    destruct (member (regTbl c) "__ready") eqn:E.
    - rewrite bind_modC. eexists _, _. split; [reflexivity |]. cbn. apply lookup_delete_eq.
    - rewrite bind_modC. eexists _, _. split; [reflexivity |]. cbn. apply lookup_delete_eq.
    - apply member_nothing in E as [E _]. by exists c, false. }
  destruct Hu as (c1 & b & Eu & Hc1). rewrite (m_bind_ok _ _ _ _ _ Eu).
  change (regTbl (snd (g, c1)) !! "__ready" = None) in Hc1.
  revert Hc1. generalize (g, c1). clear. cbv beta.
  refine (_ : preserves (fun s : st => regTbl (snd s) !! "__ready" = None) _).
  pres.
  all: try (apply preserves_modify; by intros [? ?]).
  all: try (by apply frame_notify).
  all: try (by apply frame_flush).
Qed.

(** X28: the handshake happens once.  The [__ready] notification that
    reaches a channel that is not ready makes it ready and unbinds the
    handshake handler; a [__ready] notification that arrives afterwards
    finds no handler and is ignored: it changes nothing and raises no
    error. *)
Theorem handshake_happens_once
    (g : globals) (c : chan) (w : window) (origin m origin' m' : value) :
  ready c = false -> cfg_window (cfg c) = Some w ->
  regTbl c !! "__ready" = Some HReady ->
  Forall (fun x => truthy x = true) (pendingQueue c) ->
  truthy (prop m "id") = false -> truthy (prop m' "id") = false ->
  exists s1,
    onMessage origin (VStr "__ready") m (g, c) = (s1, Ok tt) /\
    ready (snd s1) = true /\
    regTbl (snd s1) !! "__ready" = None /\
    onMessage origin' (VStr "__ready") m' s1 = (after_observer origin' m' s1, Ok tt).
Proof.
  intros Hr Hw Hreg Hall Hid Hid'.
  destruct (after_observer_spec origin m g c) as (tr0 & _ & E0 & _).
  destruct (onReady_spec (prop m "params") (set_trace (trace g ++ tr0) g) c w Hr Hw Hall)
    as (tr & c' & E & Hr' & _).
  pose proof (onReady_unbinds (prop m "params") (set_trace (trace g ++ tr0) g, c) Hr) as Hun.
  rewrite E in Hun. cbn [fst snd] in Hun.
  exists (set_trace (trace (set_trace (trace g ++ tr0) g) ++ tr) (set_trace (trace g ++ tr0) g), c').
  assert (E1 : onMessage origin (VStr "__ready") m (g, c)
               = (set_trace (trace (set_trace (trace g ++ tr0) g) ++ tr)
                    (set_trace (trace g ++ tr0) g), c', Ok tt)).
  { rewrite onMessage_observed, E0. unfold onMessage_kind. cbv zeta.
    rewrite Hid. cbn [andb truthy String.eqb negb].
    cbn [ToString]. rewrite bind_getC. cbn [snd]. rewrite (member_own _ _ _ Hreg).
    unfold run_notification. by rewrite (m_bind_ok _ _ _ _ _ E). }
  split; [exact E1 |]. split; [exact Hr' |]. split; [exact Hun |].
  rewrite onMessage_observed. unfold onMessage_kind. cbv zeta.
  match goal with |- context [after_observer origin' m' ?s] =>
    pose proof (after_observer_chan origin' m' s) as Hc;
    destruct (after_observer origin' m' s) as [g0 c0]
  end.
  cbn [snd] in Hc. subst c0.
  rewrite Hid'. cbn [andb truthy String.eqb negb ToString].
  rewrite bind_getC. cbn [snd].
  assert (member (regTbl c') "__ready" = Nothing) as -> by by apply member_nothing.
  done.
Qed.

Lemma handshake_happens_once_witness :
  exists s1,
    onMessage (VStr "http://peer.example") (VStr "__ready") ping_msg
      (glob page_built, built_chan) = (s1, Ok tt) /\
    ready (snd s1) = true /\
    regTbl (snd s1) !! "__ready" = None /\
    onMessage (VStr "http://peer.example") (VStr "__ready") ping_msg s1
    = (after_observer (VStr "http://peer.example") ping_msg s1, Ok tt).
Proof.
  apply (handshake_happens_once (glob page_built) built_chan 1%nat).
  - reflexivity.
  - reflexivity.
  - vm_compute. reflexivity.
  - constructor.
  - reflexivity.
  - reflexivity.
Defined.

(** ** Transaction ids are never reused *)

Lemma below_mono (n n' : Z) (k : string) : n <= n' -> below n k -> below n' k.
Proof. intros Hle (i & -> & Hi). exists i. split; [done | lia]. Qed.

Lemma below_fresh (n : Z) : ~ below n (pretty n).
Proof. intros (i & Hi & Hlt). apply (inj pretty) in Hi. lia. Qed.

Section IdsBelow.
Variable n0 : Z.

Lemma ids_below_delete_out (g : globals) (c : chan) (k : string) :
  ids_below_st n0 (g, c) -> ids_below_st n0 (g, set_outTbl (delete k (outTbl c)) c).
Proof.
  intros (Hn & Hids & Hout). split; [done |]. split; [done |].
  intros k' Hk'. apply Hout. cbn in *. apply lookup_delete_is_Some in Hk'. tauto.
Qed.

Lemma ids_below_delete_ids (g : globals) (c : chan) (k : string) :
  ids_below_st n0 (g, c) -> ids_below_st n0 (set_transIds (delete k (s_transIds g)) g, c).
Proof.
  intros (Hn & Hids & Hout). split; [done |]. split; [| done].
  intros k' Hk'. apply Hids. cbn in *. apply lookup_delete_is_Some in Hk'. tauto.
Qed.

Lemma ids_below_onMessage (origin method m : value) :
  preserves (ids_below_st n0) (onMessage origin method m).
Proof.
  apply frame_onMessage; try done;
    auto using ids_below_delete_out, ids_below_delete_ids.
Qed.

Lemma ids_below_destroy : preserves (ids_below_st n0) destroy.
Proof.
  apply frame_destroy; try done.
  intros g c (Hn & Hids & _). split; [done |]. split; [done |].
  intros k Hk. cbn in Hk. rewrite lookup_empty in Hk. by destruct Hk.
Qed.

(** [call] enters the id it read from the counter and moves the counter past
    it. *)
Lemma ids_below_call (m : option call_args) : preserves (ids_below_st n0) (call m).
Proof.
  unfold call. destruct m as [m |]; [| pres].
  destruct (_ || _); [pres |]. destruct (_ || _); [pres |].
  apply preserves_bind; [pres | intros h].
  destruct (pruneFunctions _ _ _ _) as [ps | e ps |]; [| pres; by apply preserves_modify; intros [? ?] ? | pres].
  intros [g c] (Hn & Hids & Hout).
  rewrite bind_modG, bind_getG. cbn [fst snd]. unfold scopeMethod.
  rewrite !bind_getC. cbn [fst snd].
  assert (Hend : forall (g1 : globals) (c1 : chan) msg,
    ids_below_st n0 (g1, c1) ->
    ids_below_st n0 (fst ((let* p := params_value (a_params m) in
                           postMessage (msg p) false) (g1, c1)))).
  { intros g1 c1 msg. apply preserves_bind; [by apply frame_params_value |].
    intros p. by apply frame_postMessage. }
  assert (Hnew : forall tm,
    ids_below_st n0
      (set_curTranId (s_curTranId g + 1)
         (set_transIds (<[pretty (s_curTranId g) := self c]> (s_transIds g))
            (set_timers tm (set_heap (p_heap ps) g))),
       set_outTbl (<[pretty (s_curTranId g) :=
                      {| o_callbacks := p_callbacks ps; o_error := a_error m;
                         o_success := a_success m |}]> (outTbl c)) c)).
  { intros tm. split; [cbn; cbn in Hn; lia |]. split.
    - intros k Hk. cbn in *. destruct (decide (k = pretty (s_curTranId g))) as [-> | Hne].
      + exists (s_curTranId g). split; [done | lia].
      + rewrite lookup_insert_ne in Hk by done.
        apply (below_mono (s_curTranId g)); [lia | by apply Hids].
    - intros k Hk. cbn in *. destruct (decide (k = pretty (s_curTranId g))) as [-> | Hne].
      + exists (s_curTranId g). split; [done | lia].
      + rewrite lookup_insert_ne in Hk by done.
        apply (below_mono (s_curTranId g)); [lia | by apply Hout]. }
  destruct (truthy (a_timeout m)).
  - rewrite !bind_modG, !bind_modC, !bind_modG. cbn [fst snd].
    apply Hend. apply Hnew.
  - unfold m_bind at 1, m_ret at 1. rewrite !bind_modC, !bind_modG. cbn [fst snd].
    apply Hend. specialize (Hnew (timers g)).
    replace (set_timers (timers g) (set_heap (p_heap ps) g)) with (set_heap (p_heap ps) g)
      in Hnew by (by destruct g).
    apply Hnew.
Qed.

Lemma ids_below_run_event (ev : chan_event) (s : st) :
  ~ is_elsewhere ev -> ids_below_st n0 s -> ids_below_st n0 (run_event ev s).
Proof.
  intros He. apply frame_run_event; try done;
    auto using ids_below_delete_out, ids_below_delete_ids, ids_below_call, ids_below_destroy.
  intros f ->. by destruct He.
Qed.

End IdsBelow.

(** A function of one channel that keeps the ids below the counter keeps
    them so on the whole page: the counter only grows, so the other channels
    are not affected. *)
Lemma ids_below_in_chan {A : Type} (c : chan_id) (f : M st A) :
  (forall n0, preserves (ids_below_st n0) f) -> preserves ids_below (in_chan c f).
Proof.
  intros Hf p [Hids Hout]. unfold in_chan.
  destruct (chans p !! c) as [ch |] eqn:Hc; [| done].
  assert (Hs : ids_below_st (s_curTranId (glob p)) (glob p, ch)).
  { split; [cbn; lia |]. split; [done |]. intros k. by apply (Hout c). }
  specialize (Hf _ _ Hs). destruct (f (glob p, ch)) as [[g' ch'] r].
  destruct Hf as (Hle & Hids' & Hout'). unfold ids_below. cbn [fst snd glob chans] in *.
  split; [done |]. intros c' ch'' k Hc' Hk.
  destruct (decide (c' = c)) as [-> | Hne].
  - rewrite lookup_insert_eq in Hc'. injection Hc' as <-. by apply Hout'.
  - rewrite lookup_insert_ne in Hc' by done.
    apply (below_mono (s_curTranId (glob p))); [done |]. by apply (Hout c' ch'').
Qed.

Lemma ids_below_build (c : config) : preserves ids_below (build c).
Proof.
  intros p [Hids Hout]. destruct (build c p) as [p' [me | e]] eqn:Hb.
  - apply build_ok in Hb as (w & origin & g & _ & _ & _ & Hadd & _ & ->).
    apply s_addBoundChan_ok in Hadd as [_ ->]. cbn [fst]. unfold ids_below.
    cbn [glob chans].
    match goal with
    | |- context [if is_child c then ?a else ?b] =>
        assert (Hg : s_transIds (if is_child c then a else b) = s_transIds (glob p) /\
                     s_curTranId (if is_child c then a else b) = s_curTranId (glob p))
          by (by destruct (is_child c))
    end.
    destruct Hg as [-> ->]. split; [done |].
    intros c' ch k Hc' Hk. destruct (decide (c' = next_chan p)) as [-> | Hne].
    + rewrite lookup_insert_eq in Hc'. injection Hc' as <-. cbn in Hk.
      rewrite lookup_empty in Hk. by destruct Hk.
    + rewrite lookup_insert_ne in Hc' by done. by apply (Hout c' ch).
  - apply build_throws_registry in Hb as [bc ->]. done.
Qed.

Lemma ids_below_s_onMessage (e : message_event) : preserves ids_below (s_onMessage e).
Proof.
  unfold s_onMessage, getP. destruct (e_data e) as [m |]; [| pres].
  destruct (_ || _); [pres |]. destruct (unscope m) as [s meth].
  pres; try (apply ids_below_in_chan; intros n0; apply ids_below_onMessage).
Qed.

Lemma ids_below_deliver (e : message_event) : preserves ids_below (deliver e).
Proof.
  intros p Hp. unfold deliver. case_bool_decide; [done |]. by apply ids_below_s_onMessage.
Qed.

Lemma ids_below_timeout_action (n0 : Z) (transId : Z) (timeout : value) (method : string) :
  preserves (ids_below_st n0) (timeout_action transId timeout method).
Proof.
  apply frame_timeout_action; try done;
    auto using ids_below_delete_out, ids_below_delete_ids.
Qed.

Lemma ids_below_fire_timer (n : nat) : preserves ids_below (fire_timer n).
Proof.
  intros p Hp. unfold fire_timer. destruct (timers (glob p) !! n) as [t |]; [| done].
  assert (Hp' : ids_below
                  {| glob := set_timers (take n (timers (glob p))
                                         ++ drop (S n) (timers (glob p))) (glob p);
                     chans := chans p; next_chan := next_chan p |}) by exact Hp.
  destruct t as [c transId timeout method | c].
  - revert Hp'. apply ids_below_in_chan. intros n0. apply ids_below_timeout_action.
  - revert Hp'. apply ids_below_in_chan. intros n0. by apply frame_ping_action.
Qed.

Lemma ids_below_run_proc_event (ev : proc_event) (p : proc) :
  of_the_module ev -> ids_below p -> ids_below (run_proc_event ev p).
Proof.
  intros Hev Hp. destruct ev as [c | e | n | c ev]; cbn [run_proc_event]; unfold exec.
  - by apply ids_below_build.
  - by apply ids_below_deliver.
  - by apply ids_below_fire_timer.
  - revert Hp. apply ids_below_in_chan. intros n0 s Hs. cbn [fst].
    by apply ids_below_run_event.
Qed.

Lemma ids_below_run_proc_events (evs : list proc_event) :
  forall p, Forall of_the_module evs -> ids_below p -> ids_below (run_proc_events evs p).
Proof.
  induction evs as [| ev evs IH]; intros p Hall Hp; [done |].
  inversion Hall; subst. cbn [run_proc_events foldl]. apply IH; [done |].
  by apply ids_below_run_proc_event.
Qed.

Lemma ids_below_initial (b : browser) (random : Q) (h : gmap loc hobj)
    (user : fn -> list value -> option value) :
  ids_below (initial b random h user).
Proof.
  split.
  - intros k Hk. cbn in Hk. rewrite lookup_empty in Hk. by destruct Hk.
  - intros c ch k Hc. cbn in Hc. by rewrite lookup_empty in Hc.
Qed.

(** X29: transaction ids are never reused.  From the moment the module is
    loaded, whatever channels are built and destroyed, whatever messages and
    timers arrive, whatever is called on the channels and whichever
    functions of the user throw, the value of the counter, which is the id
    the next [call] on the page takes, is the id of no outstanding call: it
    is neither in [s_transIds] nor in the [outTbl] of any channel. *)
Theorem next_id_is_unused
    (b : browser) (random : Q) (h : gmap loc hobj)
    (user : fn -> list value -> option value) (evs : list proc_event) :
  Forall of_the_module evs ->
  let p := run_proc_events evs (initial b random h user) in
  s_transIds (glob p) !! pretty (s_curTranId (glob p)) = None /\
  (forall c ch, chans p !! c = Some ch ->
                outTbl ch !! pretty (s_curTranId (glob p)) = None).
Proof.
  intros Hall p.
  destruct (ids_below_run_proc_events evs _ Hall (ids_below_initial b random h user))
    as [Hids Hout].
  fold p in Hids, Hout. split.
  - destruct (s_transIds (glob p) !! pretty (s_curTranId (glob p))) eqn:E; [| done].
    destruct (below_fresh (s_curTranId (glob p))). apply Hids. by rewrite E.
  - intros c ch Hc.
    destruct (outTbl ch !! pretty (s_curTranId (glob p))) eqn:E; [| done].
    destruct (below_fresh (s_curTranId (glob p))). apply (Hout c ch); [done |]. by rewrite E.
Qed.

Lemma next_id_is_unused_witness :
  let evs := [PeBuild (plain_cfg 1%nat "*" "a"); PeMessage (peer_event ping_msg);
              PeChan 0%nat (CeCall (Some timed_call)); PeTimer 0%nat;
              PeChan 0%nat (CeCall (Some silent_call)); PeChan 0%nat CeDestroy] in
  let p := run_proc_events evs (initial modern (1 # 2) ∅ (failing (FUser 2) VNull)) in
  s_transIds (glob p) !! pretty (s_curTranId (glob p)) = None /\
  (forall c ch, chans p !! c = Some ch ->
                outTbl ch !! pretty (s_curTranId (glob p)) = None).
Proof.
  intros evs. apply (next_id_is_unused modern (1 # 2) ∅ (failing (FUser 2) VNull) evs).
  repeat constructor; simpl; tauto.
Defined.

(** ** What [destroy] leaves *)

Lemma hasWin_filter (w : window) (arr : list bound) :
  hasWin w (List.filter (fun b => negb (Nat.eqb (win b) w)) arr) = false.
Proof.
  induction arr as [| b arr IH]; [done |]. cbn [List.filter].
  destruct (Nat.eqb (win b) w) eqn:Hb; cbn [negb]; [exact IH |].
  unfold hasWin in *. cbn [existsb]. by rewrite Hb, IH.
Qed.

(** X30: a [destroy] that returns has reset the channel and taken it out of
    the registry.  The channel is not ready, its queue and its three tables
    are empty and its origin is [null]; the bucket it was registered in
    holds no binding of its window any more, while the other buckets, the
    trace, the transaction router, the counter, the heap and the timers are
    as they were. *)
Theorem destroy_resets_channel (s s' : st) (w : window) (o : string) :
  destroy s = (s', Ok tt) ->
  cfg_window (cfg (snd s)) = Some w -> cfg_origin (cfg (snd s)) = VStr o ->
  snd s' = {| self := self (snd s); cfg := set_cfg_origin VNull (cfg (snd s));
              regTbl := ∅; outTbl := ∅; inTbl := ∅; ready := false;
              pendingQueue := [] |} /\
  hasWin w (default [] (bucket (s_boundChans (fst s')) o (scope_of (cfg (snd s))))) = false /\
  (forall o' sc', (o', sc') <> (o, scope_of (cfg (snd s))) ->
     bucket (s_boundChans (fst s')) o' sc' = bucket (s_boundChans (fst s)) o' sc') /\
  trace (fst s') = trace (fst s) /\ s_transIds (fst s') = s_transIds (fst s) /\
  s_curTranId (fst s') = s_curTranId (fst s) /\ heap (fst s') = heap (fst s) /\
  timers (fst s') = timers (fst s).
Proof.
  destruct s as [g c]. cbn [fst snd]. intros Hd Hw Ho. unfold destroy in Hd.
  rewrite !bind_getC in Hd. cbn [snd] in Hd. rewrite Hw, Ho in Hd.
  fold (scope_of (cfg c)) in Hd. unfold m_bind at 1, liftG at 1 in Hd. cbn [fst snd] in Hd.
  destruct (s_removeBoundChan (Some w) (VStr o) (scope_of (cfg c)) g) as [g1 [[] | e]] eqn:Hrem;
    [| discriminate].
  rewrite bind_modG, !bind_modC in Hd. cbn [fst snd] in Hd. injection Hd as <-.
  cbn [fst snd]. split; [reflexivity |].
  destruct (s_removeBoundChan_buckets g g1 w o (scope_of (cfg c)) Hrem)
    as (Hf & _ & Hother).
  apply s_removeBoundChan_ok in Hrem as (scopes & arr & _ & _ & Hg1).
  rewrite detach_listener_boundChans.
  split; [rewrite Hf; apply hasWin_filter |]. split; [exact Hother |].
  assert (Hdl : forall g0, trace (detach_listener g0) = trace g0 /\
                           s_transIds (detach_listener g0) = s_transIds g0 /\
                           s_curTranId (detach_listener g0) = s_curTranId g0 /\
                           heap (detach_listener g0) = heap g0 /\
                           timers (detach_listener g0) = timers g0).
  { intros g0. unfold detach_listener.
    destruct (has_removeEventListener _); [by case_bool_decide |].
    destruct (has_detachEvent _); [by case_bool_decide | done]. }
  destruct (Hdl g1) as (-> & -> & -> & -> & ->). by rewrite Hg1.
Qed.

Lemma destroy_resets_channel_witness :
  let s := (glob caller_called, chan_of caller_called 0%nat) in
  let s' := exec destroy s in
  snd s' = {| self := self (snd s); cfg := set_cfg_origin VNull (cfg (snd s));
              regTbl := ∅; outTbl := ∅; inTbl := ∅; ready := false;
              pendingQueue := [] |} /\
  hasWin 1%nat (default [] (bucket (s_boundChans (fst s')) "*" (scope_of (cfg (snd s)))))
  = false /\
  (forall o' sc', (o', sc') <> ("*", scope_of (cfg (snd s))) ->
     bucket (s_boundChans (fst s')) o' sc' = bucket (s_boundChans (fst s)) o' sc') /\
  trace (fst s') = trace (fst s) /\ s_transIds (fst s') = s_transIds (fst s) /\
  s_curTranId (fst s') = s_curTranId (fst s) /\ heap (fst s') = heap (fst s) /\
  timers (fst s') = timers (fst s).
Proof.
  intros s s'. apply (destroy_resets_channel s s' 1%nat "*").
  - vm_compute. reflexivity.
  - vm_compute. reflexivity.
  - vm_compute. reflexivity.
Defined.
